(** * ReplisomeTracer: the numeric signal pipeline

    A shallow embedding of the pipeline of [src/scripts]: the tag decoder,
    the sliding-window aggregator and the coordinate mapper of
    [lib/slidingWindowsBedgraphs_utils.py], the per-read driver of
    [brdu_edu_sliding_windows_from_bam.py], the track aligner, summarizer
    and aggregate boundary detector of [plot_summary.py], and the
    single-track boundary detector of [single_pair_boundary.py].

    Numbers.  Python floats are modelled by exact rationals ([Q]), and by
    real numbers ([R]) where a square root is taken; a float that may be NaN
    is an [option], and the quotient that may be infinite has a type of its
    own.  Rounding is therefore not modelled.  Python integers are [Z]. *)

From Stdlib Require Import ZArith QArith Reals Lia Lra String Ascii List.
From stdpp Require Import base list gmap strings sorting pretty.

Local Open Scope Z_scope.

(** ** Python values the scripts rely on *)

Module Py.

(** The exceptions the modelled code can raise. *)
Inductive exn : Type :=
| StopIteration   (* [next] on an exhausted iterator *)
| ValueError      (* [int] on a malformed literal, [range] with step 0,
                     [idxmin] of an empty column *)
| IndexError      (* subscript out of range *)
| RuntimeError    (* a filter of size below 1 *)
| FileNotFoundError   (* [os.makedirs] of the empty path *)
| TypeError.      (* a subscript of the wrong type *)

Inductive result (A : Type) : Type :=
| Ok (a : A)
| Raise (e : exn).
Arguments Ok {A} a.
Arguments Raise {A} e.

Definition bind {A B} (r : result A) (f : A → result B) : result B :=
  match r with
  | Ok a => f a
  | Raise e => Raise e
  end.

Definition raises {A} (r : result A) : Prop := ∃ e, r = Raise e.

(** [traverse f l]: [list(map(f, l))], stopping at the first exception. *)
Fixpoint traverse {A B} (f : A → result B) (l : list A) : result (list B) :=
  match l with
  | [] => Ok []
  | a :: l' => bind (f a) (λ b, bind (traverse f l') (λ bs, Ok (b :: bs)))
  end.

(** [s.split(sep)] for a one-character separator. *)
Fixpoint split (sep : ascii) (s : string) : list string :=
  match s with
  | EmptyString => [EmptyString]
  | String c s' =>
      if Ascii.eqb c sep then EmptyString :: split sep s'
      else match split sep s' with
           | [] => [String c EmptyString]
           | w :: ws => String c w :: ws
           end
  end.

(** White space that [int] strips (the ASCII part of [str.isspace]). *)
Definition is_space (c : ascii) : bool :=
  let n := N_of_ascii c in
  ((9 <=? n) && (n <=? 13) || (28 <=? n) && (n <=? 32))%N.

Fixpoint lstrip (s : string) : string :=
  match s with
  | String c s' => if is_space c then lstrip s' else s
  | EmptyString => EmptyString
  end.

Fixpoint rstrip (s : string) : string :=
  match s with
  | EmptyString => EmptyString
  | String c s' =>
      match rstrip s' with
      | EmptyString => if is_space c then EmptyString else String c EmptyString
      | r => String c r
      end
  end.

Definition digit_of (c : ascii) : option Z :=
  let n := Z.of_N (N_of_ascii c) in
  if (48 <=? n) && (n <=? 57) then Some (n - 48) else None.

(** Decimal digits, single underscores allowed between two digits. *)
Fixpoint digits (s : string) (acc : Z) (after_digit : bool) : option Z :=
  match s with
  | EmptyString => if after_digit then Some acc else None
  | String c s' =>
      match digit_of c with
      | Some d => digits s' (10 * acc + d) true
      | None =>
          if Ascii.eqb c "_" && after_digit then digits s' acc false else None
      end
  end.

(** [int(s)] in base 10 on ASCII text. *)
Definition int (s : string) : result Z :=
  let body :=
    match rstrip (lstrip s) with
    | String "+" r => digits r 0 false
    | String "-" r => Z.opp <$> digits r 0 false
    | r => digits r 0 false
    end in
  match body with
  | Some z => Ok z
  | None => Raise ValueError
  end.

(** [len(range(start, stop, step))], as CPython computes it. *)
Definition range_length (start stop step : Z) : Z :=
  if 0 <? step then
    if start <? stop then (stop - start - 1) / step + 1 else 0
  else
    if stop <? start then (start - stop - 1) / (- step) + 1 else 0.

(** [range(start, stop, step)] for a step that is not 0. *)
Definition range3 (start stop step : Z) : list Z :=
  (λ k : nat, start + Z.of_nat k * step)
    <$> seq 0 (Z.to_nat (range_length start stop step)).

(** [range(start, stop, step)]; step 0 is a [ValueError]. *)
Definition range (start stop step : Z) : result (list Z) :=
  if step =? 0 then Raise ValueError else Ok (range3 start stop step).

(** [range(start, stop)]. *)
Definition range2 (start stop : Z) : list Z := range3 start stop 1.

End Py.
Import Py.

Notation "'try' x := r 'in' k" := (Py.bind r (λ x, k))
  (at level 10, x name, r at level 100, k at level 200,
   format "'try'  x  :=  r  'in' '//' k").

(** ** TagDecoder: [parse_ml_mm] *)

Module TagDecoder.

(** One value of [mod_positions]: the dict
    [{"BrdU": _, "EdU": _, "None": _}]. *)
Record entry : Type := Entry { BrdU : Q; EdU : Q; None_ : Q }.

(** The entry created for an offset seen for the first time. *)
Definition fresh : entry := Entry 0 0 1.

Definition set_BrdU (prob : Q) (e : entry) : entry :=
  Entry prob (EdU e) (None_ e).
Definition set_EdU (prob : Q) (e : entry) : entry :=
  Entry (BrdU e) prob (None_ e).

(** Python's [max(0, v)]: [v] when it is greater than 0, else 0. *)
Definition max0 (v : Q) : Q := if Qlt_le_dec 0 v then v else 0%Q.

(** The body of the inner loop after [next(ml_probs)]. *)
Definition record_call (mod_type : string) (abs_position : Z) (prob : Q)
    (mod_positions : gmap Z entry) : gmap Z entry :=
  let mod_positions :=
    match mod_positions !! abs_position with
    | None => <[abs_position := fresh]> mod_positions
    | Some _ => mod_positions
    end in
  if String.eqb mod_type "N+b?" then
    alter (set_BrdU prob) abs_position mod_positions
  else if String.eqb mod_type "N+e?" then
    alter (set_EdU prob) abs_position mod_positions
  else mod_positions.

(** The state threaded through the loops: the dict, and what is left of
    the iterator [ml_probs]. *)
Abbreviation state := (gmap Z entry * list Z)%type.

(** [for rel_pos in rel_positions: ...] *)
Fixpoint decode_positions (mod_type : string) (rel_positions : list Z)
    (abs_position : Z) (st : state) : result state :=
  match rel_positions with
  | [] => Ok st
  | rel_pos :: rest =>
      let abs_position := abs_position + (rel_pos + 1) in
      match st.2 with
      | [] => Raise StopIteration
      | byte :: ml_probs =>
          let prob := (inject_Z byte / 255)%Q in
          decode_positions mod_type rest abs_position
            (record_call mod_type abs_position prob st.1, ml_probs)
      end
  end.

(** [for entry in mm_entries: ...] *)
Fixpoint decode_entries (mm_entries : list string) (st : state)
    : result state :=
  match mm_entries with
  | [] => Ok st
  | entry :: rest =>
      let parts := split "," entry in
      let mod_type := hd EmptyString parts in
      try rel_positions := traverse int (tl parts) in
      try st' := decode_positions mod_type rel_positions 0 st in
      decode_entries rest st'
  end.

(** The last loop: [None] recomputed from the two channels. *)
Definition finalize (e : entry) : entry :=
  let total_mod_prob := (BrdU e + EdU e)%Q in
  Entry (BrdU e) (EdU e) (max0 (1 - total_mod_prob)).

Definition nonempty (s : string) : bool :=
  match s with EmptyString => false | _ => true end.

Definition parse_ml_mm (MM : string) (ML : list Z) : result (gmap Z entry) :=
  let mm_entries := List.filter nonempty (split ";" MM) in
  try st := decode_entries mm_entries (∅, ML) in
  Ok (finalize <$> st.1).

End TagDecoder.

(** ** WindowAggregator: [compute_sliding_windows] *)

Module WindowAggregator.
Import TagDecoder.

(** One element of [window_results]:
    [(window_start, window_end, brdu_freq, edu_freq)]. *)
Record Window : Type := MkWindow {
  window_start : Z;
  window_end : Z;
  brdu_freq : Q;
  edu_freq : Q
}.

(** [sorted(mod_positions.keys())] *)
Definition sorted_keys (mod_positions : gmap Z entry) : list Z :=
  merge_sort Z.le (map_to_list mod_positions).*1.

(** The accumulators [(brdu_sum, edu_sum, t_count)] of the inner loop. *)
Definition accumulate (mod_positions : gmap Z entry)
    (acc : Q * Q * Z) (pos : Z) : Q * Q * Z :=
  match mod_positions !! pos with
  | Some e => ((acc.1.1 + BrdU e)%Q, (acc.1.2 + EdU e)%Q, acc.2 + 1)
  | None => acc
  end.

(** The inner loop: [for pos in range(window_start, window_end): ...] *)
Definition window_sums (mod_positions : gmap Z entry)
    (window_start window_end : Z) : Q * Q * Z :=
  foldl (accumulate mod_positions) (0%Q, 0%Q, 0)
        (range2 window_start window_end).

(** The body of the outer loop, for one [window_start]. *)
Definition window_at (mod_positions : gmap Z entry) (window_size : Z)
    (window_start : Z) : Window :=
  let window_end := window_start + window_size in
  let sums := window_sums mod_positions window_start window_end in
  let brdu_sum := sums.1.1 in
  let edu_sum := sums.1.2 in
  let t_count := sums.2 in
  if 0 <? t_count then
    MkWindow window_start window_end
      (brdu_sum / inject_Z t_count) (edu_sum / inject_Z t_count)
  else
    MkWindow window_start window_end 0 0.

(** The denominator [t_count] of the window at [window_start]. *)
Definition t_count (mod_positions : gmap Z entry) (window_size : Z)
    (window_start : Z) : Z :=
  (window_sums mod_positions window_start (window_start + window_size)).2.

Definition compute_sliding_windows (mod_positions : gmap Z entry)
    (window_size step_size : Z) : result (list Window) :=
  let sorted_positions := sorted_keys mod_positions in
  match sorted_positions with
  | [] => Ok []
  | min_pos :: _ =>
      let max_pos := List.last sorted_positions min_pos in
      try starts := range min_pos (max_pos - window_size + 1) step_size in
      Ok (window_at mod_positions window_size <$> starts)
  end.

End WindowAggregator.

(** ** CoordinateMapper: [convert_relative_to_abs_positions], and the
    per-read driver [process_read] *)

Module CoordinateMapper.
Import TagDecoder WindowAggregator.

(** One element of [new_windows]:
    [(reference_name, start, end, brdu_freq, edu_freq)]. *)
Record GenomicWindow : Type := MkGenomicWindow {
  chrom : string;
  g_start : Z;
  g_end : Z;
  g_brdu : Q;
  g_edu : Q
}.

Definition convert_relative_to_abs_positions (reference_name : string)
    (reference_start reference_end : Z) (is_reverse : bool)
    (window_results : list Window) : result (list GenomicWindow) :=
  let pos_list := window_start <$> window_results in
  try w0 := match window_results !! 0%nat with
            | Some w => Ok w
            | None => Raise IndexError
            end in
  let window_size := window_end w0 - window_start w0 in
  let starts :=
    if negb is_reverse then (λ x, reference_start + 1 + x) <$> pos_list
    else (λ x, reference_end - 1 - x) <$> pos_list in
  traverse
    (λ ix : nat * Z,
       match window_results !! ix.1 with
       | Some w =>
           Ok (MkGenomicWindow reference_name ix.2 (ix.2 + window_size)
                 (brdu_freq w) (edu_freq w))
       | None => Raise IndexError
       end)
    (imap pair starts).

(** The tuple [read_data] handed to [process_read]. *)
Record ReadData : Type := MkReadData {
  reference_name : string;
  reference_start : Z;
  reference_end : Z;
  is_reverse : bool;
  MM : string;
  ML : list Z;
  window_size : Z;
  step_size : Z;
  read_name : string
}.

(** What [process_read] returns: [[]] for no read, else
    [(read_name, abs_results)]. *)
Inductive ReadResult : Type :=
| NoRead
| ReadWindows (name : string) (abs_results : list GenomicWindow).

Definition process_read (read_data : option ReadData) : result ReadResult :=
  match read_data with
  | None => Ok NoRead
  | Some rd =>
      try mod_positions := parse_ml_mm (MM rd) (ML rd) in
      try window_results :=
        compute_sliding_windows mod_positions (window_size rd) (step_size rd) in
      try abs_results :=
        convert_relative_to_abs_positions (reference_name rd)
          (reference_start rd) (reference_end rd) (is_reverse rd)
          window_results in
      Ok (ReadWindows (read_name rd) abs_results)
  end.

End CoordinateMapper.

(** ** The calls of a tag pair

    The tag pair read as the data model describes it: groups in
    declaration order, each with its kind and relative skips, and one
    probability byte per position, consumed in that order.  These
    definitions state what [parse_ml_mm] is proved to compute. *)

Module TagCalls.
Import TagDecoder.

Abbreviation group := (string * list Z)%type.

(** The parsing step of one entry: [entry.split(",")], the kind, and
    [list(map(int, parts[1:]))]. *)
Definition parse_group (entry : string) : result group :=
  let parts := split "," entry in
  try rel_positions := traverse int (tl parts) in
  Ok (hd EmptyString parts, rel_positions).

(** [mm_entries]: the non-empty pieces between [;]. *)
Definition tag_entries (MM : string) : list string :=
  List.filter nonempty (split ";" MM).

(** The groups of a tag string; the string is well formed when this
    does not raise. *)
Definition tag_groups (MM : string) : result (list group) :=
  traverse parse_group (tag_entries MM).

(** The running absolute offset: advanced by [skip + 1] before each
    position is recorded. *)
Fixpoint offsets_from (abs_position : Z) (rel_positions : list Z) : list Z :=
  match rel_positions with
  | [] => []
  | rel_pos :: rest =>
      (abs_position + (rel_pos + 1))
        :: offsets_from (abs_position + (rel_pos + 1)) rest
  end.

(** The sum of a list of skips. *)
Definition skip_sum (rel_positions : list Z) : Z := foldr Z.add 0 rel_positions.

(** The positions of one group, the offset restarting at 0. *)
Definition group_positions (g : group) : list (string * Z) :=
  (λ o, (g.1, o)) <$> offsets_from 0 g.2.

(** All positions, in consumption order. *)
Definition positions (groups : list group) : list (string * Z) :=
  groups ≫= group_positions.

(** The total count of relative positions across all groups. *)
Definition position_count (groups : list group) : nat :=
  sum_list_with (λ g : group, length g.2) groups.

(** A call: a position together with the byte it consumes. *)
Record call : Type := MkCall { kind : string; offset : Z; byte : Z }.

Definition calls (groups : list group) (ML : list Z) : list call :=
  zip_with (λ ko b, MkCall ko.1 ko.2 b) (positions groups) ML.

Definition prob (c : call) : Q := (inject_Z (byte c) / 255)%Q.

(** The probability of the last call of kind [k] at offset [p];
    0 when there is none. *)
Definition last_prob (k : string) (p : Z) (cs : list call) : Q :=
  foldl (λ acc c,
           if bool_decide (kind c = k ∧ offset c = p) then prob c else acc)
        0%Q cs.

(** The two loops as one fold over the calls. *)
Definition run (m : gmap Z entry) (cs : list call) : gmap Z entry :=
  foldl (λ m c, record_call (kind c) (offset c) (prob c) m) m cs.

(** The calls of one group, from offset [a], on the bytes [ml]. *)
Definition group_calls (k : string) (a : Z) (rels ml : list Z) : list call :=
  zip_with (λ o b, MkCall k o b) (offsets_from a rels) ml.

(** What one call does to the entry at offset [p]. *)
Definition update_channel (k : string) (q : Q) (e : entry) : entry :=
  if String.eqb k "N+b?" then set_BrdU q e
  else if String.eqb k "N+e?" then set_EdU q e
  else e.

Definition step_entry (p : Z) (oe : option entry) (c : call) : option entry :=
  if bool_decide (offset c = p)
  then Some (update_channel (kind c) (prob c) (default fresh oe))
  else oe.

Definition last_prob_from (init : Q) (k : string) (p : Z) (cs : list call) : Q :=
  foldl (λ acc c,
           if bool_decide (kind c = k ∧ offset c = p) then prob c else acc)
        init cs.

Definition recognized (k : string) : Prop := k = "N+b?"%string ∨ k = "N+e?"%string.

(** Whether [sep] occurs in [s]. *)
Fixpoint has_char (sep : ascii) (s : string) : bool :=
  match s with
  | EmptyString => false
  | String c s' => Ascii.eqb c sep || has_char sep s'
  end.

(** How the entries at one offset compare in two decodings: the same, or
    a bare entry on the left where the right has none. *)
Definition diluted (oe oe' : option entry) : Prop :=
  oe = oe' ∨ (oe = Some fresh ∧ oe' = None).

(** The tag string of a list of entries, each closed by [;]. *)
Definition join_entries (entries : list string) : string :=
  foldr (λ e s, e +:+ String ";" s) EmptyString entries.

(** The tag pair without its [i]-th group: the entry is taken out of
    the string, and the bytes it consumes out of the byte sequence. *)
Definition before (i : nat) (groups : list group) : nat :=
  length (positions (take i groups)).

Definition MM_without (i : nat) (MM : string) : string :=
  join_entries (delete i (tag_entries MM)).

Definition ML_without (i : nat) (groups : list group) (ML : list Z) : list Z :=
  match groups !! i with
  | Some g =>
      take (before i groups) ML
        ++ drop (before i groups + length g.2) ML
  | None => ML
  end.

End TagCalls.

(** ** Columns of numbers: what the scripts use of numpy, scipy and pandas *)

Module Signal.

Definition Qltb (a b : Q) : bool := negb (Qle_bool b a).

(** [col.fillna(0)] *)
Definition fillna0 (v : option Q) : Q := default 0%Q v.

Definition Qsum (l : list Q) : Q := foldr Qplus 0%Q l.

(** The value of [input] at [j] under the [nearest] edge policy: the
    index is brought back into [0, len(input) - 1]. *)
Definition nearest (input : list Q) (j : Z) : Q :=
  let n := Z.of_nat (length input) in
  default 0%Q (input !! Z.to_nat (Z.max 0 (Z.min (n - 1) j))).

(** [uniform_filter1d(input, size, mode='nearest')] at index [i]: the
    mean of the [size] values at [i - size // 2, ..., i - size // 2 + size - 1].
    This is the exact mean.  scipy computes in floats, each value from
    the value of the row before, and the rounding can order two nearly
    equal means the other way or put a mean that is within rounding of a
    threshold on its other side. *)
Definition filter_at (input : list Q) (size : Z) (i : Z) : Q :=
  (Qsum ((λ k, nearest input (i - size / 2 + k)) <$> seqZ 0 size)
   / inject_Z size)%Q.

Definition uniform_filter1d (input : list Q) (size : Z) : result (list Q) :=
  if size <? 1 then Raise RuntimeError
  else Ok (filter_at input size <$> seqZ 0 (Z.of_nat (length input))).

(** The position of the first value that no other value beats:
    [better v best] says that [v] replaces the current [best]. *)
Fixpoint first_best (better : Q → Q → bool) (i : nat) (best : nat * Q)
    (col : list Q) : nat :=
  match col with
  | [] => best.1
  | v :: rest =>
      first_best better (S i) (if better v best.2 then (i, v) else best) rest
  end.

(** [col.idxmin()] on a column without NaN, indexed from 0. *)
Definition idxmin (col : list Q) : result nat :=
  match col with
  | [] => Raise ValueError
  | v :: rest => Ok (first_best Qltb 1 (0%nat, v) rest)
  end.

(** [col.idxmax()] on a column without NaN, indexed from 0. *)
Definition idxmax (col : list Q) : result nat :=
  match col with
  | [] => Raise ValueError
  | v :: rest => Ok (first_best (λ v best, Qltb best v) 1 (0%nat, v) rest)
  end.

(** [i] is the first position of the least value of [col]. *)
Definition first_min (col : list Q) (i : nat) : Prop :=
  ∃ v, col !! i = Some v
     ∧ (∀ (j : nat) w, col !! j = Some w → (v <= w)%Q)
     ∧ (∀ (j : nat) w, (j < i)%nat → col !! j = Some w → (v < w)%Q).

(** [i] is the first position of the greatest value of [col]. *)
Definition first_max (col : list Q) (i : nat) : Prop :=
  ∃ v, col !! i = Some v
     ∧ (∀ (j : nat) w, col !! j = Some w → (w <= v)%Q)
     ∧ (∀ (j : nat) w, (j < i)%nat → col !! j = Some w → (w < v)%Q).

(** [col.iloc[i]] (and [col.loc[i]] under the default index). *)
Definition iloc {A} (col : list A) (i : nat) : result A :=
  match col !! i with
  | Some v => Ok v
  | None => Raise IndexError
  end.

(** The positions [i] at which [test] holds, ascending: the index of
    [col[test(col)]]. *)
Definition where_ {A} (test : A → bool) (col : list A) : list nat :=
  (imap pair col ≫= λ iv : nat * A, if test iv.2 then [iv.1] else []).

(** [col.rolling(window, center=True, min_periods=1).mean()] at position
    [i] of a column without NaN, for an odd [window]: the mean of the
    values at the positions [i - window // 2, ..., i + window // 2] that
    exist. *)
Definition rolling_mean_at (col : list Q) (window : Z) (i : Z) : Q :=
  let n := Z.of_nat (length col) in
  let lo := Z.max 0 (i - window / 2) in
  let hi := Z.min (n - 1) (i + window / 2) in
  let vals := (λ j, default 0%Q (col !! Z.to_nat j)) <$> seqZ lo (hi - lo + 1) in
  (Qsum vals / inject_Z (Z.of_nat (length vals)))%Q.

Definition rolling_mean (col : list Q) (window : Z) : list Q :=
  rolling_mean_at col window <$> seqZ 0 (Z.of_nat (length col)).

(** A float quotient: finite, infinite, or NaN. *)
Inductive quotient : Type :=
| Finite (q : Q)
| PlusInf
| MinusInf
| NaN.

(** [a / b] on float columns: division by zero gives an infinity, or
    NaN for 0 / 0. *)
Definition fdiv (a b : Q) : quotient :=
  if Qeq_bool b 0 then
    if Qeq_bool a 0 then NaN
    else if Qltb 0 a then PlusInf else MinusInf
  else Finite (a / b).

(** [v <= c] as pandas evaluates it: false on NaN. *)
Definition quotient_le (v : quotient) (c : Q) : bool :=
  match v with
  | Finite q => Qle_bool q c
  | MinusInf => true
  | PlusInf | NaN => false
  end.

End Signal.

(** ** TrackAligner: [align_diff_by_minimum] *)

Module TrackAligner.
Import Signal.

(** A row of a paired track, as [read_bedgraph_tracks] builds it. *)
Record TrackRow : Type := MkTrackRow {
  chromosome : string;
  start : Z;
  end_ : Z;
  BrdU : option Q;
  EdU : option Q;
  diff : option Q
}.

(** A row after alignment: the columns [diff_roll] and [x] are added. *)
Record AlignedRow : Type := MkAlignedRow {
  track : TrackRow;
  diff_roll : Q;
  x : Z
}.

Definition set_start (s : Z) (r : TrackRow) : TrackRow :=
  MkTrackRow (chromosome r) s (end_ r) (BrdU r) (EdU r) (diff r).

(** Lines 75 to 80: what the function does once line 74 has stored the
    smoothed column [diff_roll]. *)
Definition align_by_diff_roll (df : list TrackRow) (diff_roll : list Q)
    : result (list AlignedRow) :=
  try imin := idxmin diff_roll in
  try imax := idxmax diff_roll in
  try min_start := iloc (start <$> df) imin in
  try max_start := iloc (start <$> df) imax in
  let starts :=
    if max_start <? min_start then reverse (start <$> df) else start <$> df in
  try min_start := iloc starts imin in
  Ok (zip_with (λ (rs : TrackRow * Z) (dr : Q),
                  MkAlignedRow (set_start rs.2 rs.1) dr (rs.2 - min_start))
               (zip df starts) diff_roll).

Definition align_diff_by_minimum (df : list TrackRow) (window_size : Z)
    : result (list AlignedRow) :=
  try roll := uniform_filter1d (fillna0 ∘ diff <$> df) window_size in
  align_by_diff_roll df roll.

End TrackAligner.

(** ** BoundaryDetector: [detect_signal_boundaries] (aggregate) and
    [edu_boundaries_detect] (single track) *)

Module BoundaryDetector.
Import Signal.

(** The three boundary columns, constant over the frame; [None] is NaN. *)
Record Boundaries : Type := MkBoundaries {
  edu_start : option Z;
  brdu_start : option Z;
  brdu_end : option Z
}.

(** [v > 0] on a column that may hold NaN. *)
Definition positive (v : option Q) : bool :=
  match v with
  | Some q => Qltb 0 q
  | None => false
  end.

(** [frame.iloc[idx[0]]["x"]] when [idx] is not empty, else NaN. *)
Definition x_at_first {A} (x : A → Z) (frame : list A) (idx : list nat)
    : result (option Z) :=
  match idx with
  | [] => Ok None
  | i :: _ => try r := iloc frame i in Ok (Some (x r))
  end.

(** [frame.iloc[0]["x"]] when [frame] is not empty, else NaN. *)
Definition x_of_first {A} (x : A → Z) (frame : list A) : option Z :=
  match frame with
  | [] => None
  | r :: _ => Some (x r)
  end.

(** *** The aggregate variant *)

(** The columns of a summary row that the detector reads. *)
Record SummaryRow : Type := MkSummaryRow {
  sx : Z;
  median_diff : option Q
}.

(** The block under [if not np.isnan(brdu_start)]. *)
Definition aggregate_brdu_end (brdu_start : Z) (summary_df : list SummaryRow)
    : result (option Z) :=
  let later_points := List.filter (λ r, brdu_start + 100 <? sx r) summary_df in
  try roll_median_later :=
    uniform_filter1d (fillna0 ∘ median_diff <$> later_points) 101 in
  let brdu_end_candidates :=
    where_ (λ v, Qle_bool v (1 # 100)) roll_median_later in
  x_at_first sx later_points brdu_end_candidates.

Definition detect_signal_boundaries (summary_df : list SummaryRow)
    : result Boundaries :=
  try roll_median :=
    uniform_filter1d (fillna0 ∘ median_diff <$> summary_df) 101 in
  let edu_start_idx := where_ (λ v, Qltb v (- (1 # 10))) roll_median in
  try edu_start := x_at_first sx summary_df edu_start_idx in
  let brdu_start :=
    match edu_start with
    | Some edu_start =>
        let brdu_candidates :=
          List.filter (λ r, edu_start <=? sx r) summary_df in
        let brdu_above :=
          List.filter (λ r, positive (median_diff r)) brdu_candidates in
        x_of_first sx brdu_above
    | None => None
    end in
  try brdu_end :=
    match brdu_start with
    | Some brdu_start => aggregate_brdu_end brdu_start summary_df
    | None => Ok None
    end in
  Ok (MkBoundaries edu_start brdu_start brdu_end).

(** *** The single-track variant *)

Import TrackAligner.

(** A row of [df_filtered] with its three smoothed columns. *)
Record SmoothedRow : Type := MkSmoothedRow {
  aligned : AlignedRow;
  BrdU_smooth : Q;
  diff_smooth : Q;
  diff_div_brdu_smooth : quotient
}.

Definition fx (r : SmoothedRow) : Z := x (aligned r).

(** [dropna(subset=["diff", "BrdU"])] and the three smoothed columns. *)
Definition defined (r : AlignedRow) : bool :=
  match diff (track r), BrdU (track r) with
  | Some _, Some _ => true
  | _, _ => false
  end.

Definition smooth_columns (summary_df : list AlignedRow) : list SmoothedRow :=
  let df_filtered := List.filter defined summary_df in
  let brdu_smooth := rolling_mean (fillna0 ∘ BrdU ∘ track <$> df_filtered) 201 in
  let diff_smooth := rolling_mean (fillna0 ∘ diff ∘ track <$> df_filtered) 201 in
  zip_with (λ (rb : AlignedRow * Q) (d : Q),
              MkSmoothedRow rb.1 rb.2 d (fdiv d rb.2))
           (zip df_filtered brdu_smooth) diff_smooth.

(** The test of the drop zone. *)
Definition dropped (r : SmoothedRow) : bool :=
  Qle_bool (diff_smooth r) (3 # 4)
  && quotient_le (diff_div_brdu_smooth r) (13 # 20).

(** The 15,000 bp window after [brdu_start]. *)
Definition peak_window (brdu_start : Z) (df_filtered : list SmoothedRow)
    : list SmoothedRow :=
  List.filter (λ r, (brdu_start <? fx r) && (fx r <=? brdu_start + 15000))
              df_filtered.

(** The block under [if not np.isnan(brdu_start)]. *)
Definition single_brdu_end (brdu_start : Z) (summary_df : list AlignedRow)
    : result (option Z) :=
  let df_filtered := smooth_columns summary_df in
  let window_df := peak_window brdu_start df_filtered in
  match window_df with
  | [] => Ok None
  | _ =>
      try brdu_peak_idx := idxmax (BrdU_smooth <$> window_df) in
      try peak := iloc window_df brdu_peak_idx in
      let brdu_peak_x := fx peak in
      let drop_zone := List.filter (λ r, brdu_peak_x <? fx r) df_filtered in
      let drop_zone := List.filter dropped drop_zone in
      Ok (x_of_first fx drop_zone)
  end.

(** [sort_values("x")]; rows of equal [x] keep no specified order in
    pandas, a merge sort is taken here. *)
Definition x_le (a b : AlignedRow) : Prop := x a ≤ x b.

#[export] Instance x_le_dec : RelDecision x_le := λ a b, decide (x a ≤ x b).

Definition sort_values_x (df : list AlignedRow) : list AlignedRow :=
  merge_sort x_le df.

Definition edu_boundaries_detect (summary_df : list AlignedRow)
    : result Boundaries :=
  let summary_df := sort_values_x summary_df in
  try smoothed_diff :=
    uniform_filter1d (fillna0 ∘ diff ∘ track <$> summary_df) 101 in
  let edu_mask (rs : AlignedRow * Q) : bool :=
    Qltb rs.2 (- (1 # 10)) && (x rs.1 <? 0) && (-10000 <? x rs.1) in
  let edu_idx := where_ edu_mask (zip summary_df smoothed_diff) in
  try edu_start := x_at_first x summary_df edu_idx in
  let brdu_start :=
    match edu_start with
    | Some edu_start =>
        let brdu_candidates :=
          List.filter (λ r, (edu_start <=? x r) && (0 <? x r)) summary_df in
        let brdu_above :=
          List.filter (λ r, positive (diff (track r))) brdu_candidates in
        x_of_first x brdu_above
    | None => None
    end in
  try brdu_end :=
    match brdu_start with
    | Some brdu_start => single_brdu_end brdu_start summary_df
    | None => Ok None
    end in
  Ok (MkBoundaries edu_start brdu_start brdu_end).

End BoundaryDetector.

(** ** TrackSummarizer: [summarize_combined_tracks] *)

Module TrackSummarizer.

(** The two columns of the pooled frame that are read; a diff that is
    NaN is [None]. *)
Record PooledRow : Type := MkPooledRow {
  px : Z;
  pdiff : option R
}.

Record SummaryRow : Type := MkSummaryRow {
  x : Z;
  median_diff : option R;
  mean : option R;
  sd : option R;
  n : nat;
  se : option R;
  ci_lower : option R;
  ci_upper : option R
}.

Definition Rsum (l : list R) : R := foldr Rplus 0%R l.

#[export] Instance Rle_decision : RelDecision Rle := Rle_dec.

(** The aggregations of pandas, on the values of a group that are not
    NaN. *)
Definition agg_mean (vs : list R) : option R :=
  match vs with
  | [] => None
  | _ => Some (Rsum vs / INR (length vs))%R
  end.

(** ["std"]: the sample standard deviation (divisor n - 1), NaN below
    two values. *)
Definition agg_std (vs : list R) : option R :=
  match vs with
  | [] | [_] => None
  | _ =>
      let m := (Rsum vs / INR (length vs))%R in
      Some (sqrt (Rsum ((λ v, (v - m) * (v - m))%R <$> vs)
                  / (INR (length vs) - 1)))%R
  end.

Definition agg_median (vs : list R) : option R :=
  let s := merge_sort Rle vs in
  let k := (length s / 2)%nat in
  if Nat.even (length s) then
    match s !! (k - 1)%nat, s !! k with
    | Some a, Some b => Some ((a + b) / 2)%R
    | _, _ => None
    end
  else s !! k.

(** [groupby("x")]: the distinct keys, ascending. *)
Definition group_keys (combined_df : list PooledRow) : list Z :=
  merge_sort Z.le (remove_dups (px <$> combined_df)).

(** The diff values of the group of [k] that are not NaN. *)
Definition group_values (combined_df : list PooledRow) (k : Z) : list R :=
  omap pdiff (List.filter (λ r, px r =? k) combined_df).

(** Float arithmetic on columns that may hold NaN. *)
Definition lift2 (f : R → R → R) (a b : option R) : option R :=
  match a, b with
  | Some u, Some v => Some (f u v)
  | _, _ => None
  end.

Definition summary_row (combined_df : list PooledRow) (k : Z) : SummaryRow :=
  let vs := group_values combined_df k in
  let mean := agg_mean vs in
  let sd := agg_std vs in
  let n := length vs in
  let se := (λ s, s / sqrt (INR n))%R <$> sd in
  let ci_lower := lift2 (λ m s, m - 196 / 100 * s)%R mean se in
  let ci_upper := lift2 (λ m s, m + 196 / 100 * s)%R mean se in
  MkSummaryRow k (agg_median vs) mean sd n se ci_lower ci_upper.

Definition summarize_combined_tracks (combined_df : list PooledRow)
    : list SummaryRow :=
  summary_row combined_df <$> group_keys combined_df.

End TrackSummarizer.

(** ** Concrete inputs used by the examples below *)

Module Sample.
Import TagDecoder WindowAggregator CoordinateMapper Signal TrackAligner
       BoundaryDetector.

(** A decoded map with the two offsets 1 and 4. *)
Definition two_offsets : gmap Z entry :=
  <[1 := Entry 1 0 0]> (<[4 := Entry 0 0 1]> ∅).

(** A tag string with a BrdU group at offsets 1 and 4 and a group of
    another kind at offset 2, and its bytes. *)
Definition mixed_MM : string := "N+b?,0,2;N+x?,1;".
Definition mixed_ML : list Z := [255; 255; 7].
Definition mixed_groups : list (string * list Z) :=
  [("N+b?"%string, [0; 2]); ("N+x?"%string, [1])].

(** The same with a second group of another kind at offset 2. *)
Definition twice_MM : string := "N+b?,0,2;N+x?,1;N+y?,1;".
Definition twice_ML : list Z := [255; 255; 7; 9].
Definition twice_groups : list (string * list Z) :=
  [("N+b?"%string, [0; 2]); ("N+x?"%string, [1]); ("N+y?"%string, [1])].

Definition track_row (s : Z) (b d : Q) : TrackRow :=
  MkTrackRow "chr1" s (s + 10) (Some b) (Some (b - d)%Q) (Some d).

(** A paired track whose diff is greatest in its first row and least in
    its third, and a smoothed column for it (the means of a filter of 3
    rows). *)
Definition paired_track : list TrackRow :=
  [track_row 10 1 1; track_row 20 0 0; track_row 30 0 (-1);
   track_row 40 (1 # 2) (1 # 2)].

Definition paired_roll : list Q :=
  Eval vm_compute in
    match uniform_filter1d (fillna0 ∘ diff <$> paired_track) 3 with
    | Ok roll => roll
    | Raise _ => []
    end.

Definition aligned_row (xx : Z) (b d : Q) : AlignedRow :=
  MkAlignedRow (track_row (1000 + xx) b d) 0 xx.

(** An aligned track: EdU before 0, BrdU after, nothing from 40 on. *)
Definition aligned_track : list AlignedRow :=
  [aligned_row (-30) 0 (-1); aligned_row (-20) 0 (-1);
   aligned_row (-10) 0 (-1); aligned_row 10 1 1; aligned_row 20 1 1;
   aligned_row 30 (1 # 2) (1 # 4); aligned_row 40 0 0; aligned_row 50 0 0].

(** A summary: x and median_diff. *)
Definition summary : list BoundaryDetector.SummaryRow :=
  [BoundaryDetector.MkSummaryRow (-30) (Some (-1)%Q);
   BoundaryDetector.MkSummaryRow (-20) (Some (-1)%Q);
   BoundaryDetector.MkSummaryRow 0 (Some 1%Q);
   BoundaryDetector.MkSummaryRow 100 (Some 1%Q);
   BoundaryDetector.MkSummaryRow 200 (Some 0%Q);
   BoundaryDetector.MkSummaryRow 300 (Some 0%Q)].

(** Pooled rows: two values at x = 0, one at x = 5, a NaN at x = 7. *)
Definition pooled : list TrackSummarizer.PooledRow :=
  [TrackSummarizer.MkPooledRow 0 (Some 1%R);
   TrackSummarizer.MkPooledRow 5 (Some 2%R);
   TrackSummarizer.MkPooledRow 0 (Some 3%R);
   TrackSummarizer.MkPooledRow 7 None].

End Sample.

(** ** Notions used to state the further properties *)

Module Auxiliary.

(** The genomic start of the window at relative start [r]. *)
Definition abs_start (rs re : Z) (rev : bool) (r : Z) : Z :=
  if rev then re - 1 - r else rs + 1 + r.

End Auxiliary.

(** ** The batch driver: [extract_read_data], [process_bam_and_write_bedgraphs]
    and the two writers *)

Module Batch.
Import TagDecoder WindowAggregator CoordinateMapper.

(** What the driver reads of an alignment record: a tag that is absent
    is [None]. *)
Record AlignedRead : Type := MkAlignedRead {
  query_name : string;
  a_reference_name : string;
  a_reference_start : Z;
  a_reference_end : Z;
  a_is_reverse : bool;
  tag_MM : option string;
  tag_ML : option (list Z)
}.

(** The tuple of eight that [extract_read_data] returns. *)
Record Extracted : Type := MkExtracted {
  e_reference_name : string;
  e_reference_start : Z;
  e_reference_end : Z;
  e_is_reverse : bool;
  e_MM : string;
  e_ML : list Z;
  e_window_size : Z;
  e_step_size : Z
}.

Definition extract_read_data (read : AlignedRead) (window_size step_size : Z)
    : option Extracted :=
  match tag_MM read, tag_ML read with
  | Some mm, Some ml =>
      Some (MkExtracted (a_reference_name read) (a_reference_start read)
              (a_reference_end read) (a_is_reverse read) mm ml
              window_size step_size)
  | _, _ => None
  end.

(** [tuple(list(extracted) + [read.query_name])] *)
Definition with_name (e : Extracted) (name : string) : ReadData :=
  MkReadData (e_reference_name e) (e_reference_start e) (e_reference_end e)
    (e_is_reverse e) (e_MM e) (e_ML e) (e_window_size e) (e_step_size e) name.

(** [set(bed_df['read_id'].astype(str).str.strip())] *)
Definition read_ids_of_interest (read_id : list string) : gset string :=
  list_to_set ((λ s, rstrip (lstrip s)) <$> read_id).

(** [read_chunks]: the reads of the file named in the filter, or the
    reads that [fetch] gives. *)
Definition read_chunks (filtered_bed : option (list string))
    (bamfile fetched : list AlignedRead) : list AlignedRead :=
  match filtered_bed with
  | Some read_id =>
      List.filter
        (λ read, bool_decide (query_name read ∈ read_ids_of_interest read_id))
        bamfile
  | None => fetched
  end.

(** [itertools.islice(it, num_reads)]: a negative stop is refused. *)
Definition islice {A} (it : list A) (num_reads : option Z) : result (list A) :=
  match num_reads with
  | None => Ok it
  | Some n => if n <? 0 then Raise ValueError else Ok (take (Z.to_nat n) it)
  end.

(** [read_data_list]: the tuples handed to the pool. *)
Definition read_data_list (chunks : list AlignedRead)
    (window_size step_size : Z) (num_reads : option Z)
    : result (list ReadData) :=
  let valid_reads :=
    List.filter (λ read, bool_decide
                   (is_Some (extract_read_data read window_size step_size)))
                chunks in
  try reads := islice valid_reads num_reads in
  Ok (omap (λ read, (λ e, with_name e (query_name read))
                      <$> extract_read_data read window_size step_size)
           reads).

(** [list(tqdm(pool.imap(process_read, read_data_list)))]: the results
    in the order of the reads.  The iterator raises a worker's exception
    again from its [__next__]; when that exception is [StopIteration]
    (what [next(ml_probs)] raises in [parse_ml_mm]), the iteration just
    ends there: the list holds the results of the reads before it and
    nothing is raised.  Any other exception leaves [list]. *)
Fixpoint pool_imap (tasks : list ReadData) : result (list ReadResult) :=
  match tasks with
  | [] => Ok []
  | rd :: rest =>
      match process_read (Some rd) with
      | Ok r => try results := pool_imap rest in Ok (r :: results)
      | Raise StopIteration => Ok []
      | Raise e => Raise e
      end
  end.

(** [p[:p.rfind("/") + 1]] *)
Fixpoint up_to_last_slash (p : string) : string :=
  match p with
  | EmptyString => EmptyString
  | String c p' =>
      match up_to_last_slash p' with
      | EmptyString =>
          if Ascii.eqb c "/" then String c EmptyString else EmptyString
      | head => String c head
      end
  end.

Fixpoint all_slashes (s : string) : bool :=
  match s with
  | EmptyString => true
  | String c s' => Ascii.eqb c "/" && all_slashes s'
  end.

(** [s.rstrip("/")] *)
Fixpoint rstrip_slashes (s : string) : string :=
  match s with
  | EmptyString => EmptyString
  | String c s' =>
      match rstrip_slashes s' with
      | EmptyString =>
          if Ascii.eqb c "/" then EmptyString else String c EmptyString
      | r => String c r
      end
  end.

(** [os.path.dirname(p)] on POSIX paths. *)
Definition dirname (p : string) : string :=
  let head := up_to_last_slash p in
  if nonempty head && negb (all_slashes head) then rstrip_slashes head
  else head.

(** [os.makedirs(name, exist_ok=True)]: the empty path is refused with
    [FileNotFoundError]; any other directory is taken to exist or to be
    creatable. *)
Definition makedirs (name : string) : result unit :=
  match name with
  | EmptyString => Raise FileNotFoundError
  | _ => Ok tt
  end.

(** *** The writers, as the lines they write *)

Section writers.
(** [f"{v:.6f}"], left open. *)
Variable format_6f : Q → string.

Definition bedgraph_line (chrom : string) (start end_ : Z) (v : Q) : string :=
  chrom +:+ String "009" (pretty start +:+ String "009"
    (pretty end_ +:+ String "009" (format_6f v +:+ String "010" ""))).

(** The lines of the BrdU file and of the EdU file. *)
Definition write_bedgraphs (new_windows : list GenomicWindow)
    : list string * list string :=
  ((λ w, bedgraph_line (chrom w) (g_start w) (g_end w) (g_brdu w))
     <$> new_windows,
   (λ w, bedgraph_line (chrom w) (g_start w) (g_end w) (g_edu w))
     <$> new_windows).

Definition write_wig (chrom : string) (start : Z) (values : list Q)
    : list string :=
  ("fixedStep chrom=" +:+ chrom +:+ " start=" +:+ pretty start
     +:+ " step=1" +:+ String "010" "")
    :: ((λ v, format_6f v +:+ String "010" "") <$> values).

(** The windows of a result, for [for _, sublist in results]. *)
Definition windows_of (r : ReadResult) : result (list GenomicWindow) :=
  match r with
  | ReadWindows _ windows => Ok windows
  | NoRead => Raise ValueError
  end.

(** A file: its path and its lines. *)
Abbreviation file := (string * list string)%type.

(** The files written for one result under [output_per_read]. *)
Definition per_read_files (brdu_output edu_output : string)
    (write_wig_flag : bool) (r : ReadResult) : result (list file) :=
  match r with
  | NoRead => Raise ValueError
  | ReadWindows read_name windows =>
      let lines := write_bedgraphs windows in
      let bedgraphs :=
        [(brdu_output +:+ "_" +:+ read_name +:+ ".bedgraph", lines.1);
         (edu_output +:+ "_" +:+ read_name +:+ ".bedgraph", lines.2)] in
      if write_wig_flag then
        match windows with
        | [] => Ok bedgraphs
        | w0 :: _ =>
            Ok (bedgraphs
                ++ [(brdu_output +:+ "_" +:+ read_name +:+ ".wig",
                     write_wig (chrom w0) (g_start w0) (g_brdu <$> windows));
                    (edu_output +:+ "_" +:+ read_name +:+ ".wig",
                     write_wig (chrom w0) (g_start w0) (g_edu <$> windows))])
        end
      else Ok bedgraphs
  end.

(** Lines 128 to 141: the files written from the results, in the
    order of the writes. *)
Definition write_results (brdu_output edu_output : string)
    (output_per_read write_wig_flag : bool) (results : list ReadResult)
    : result (list file) :=
  if output_per_read then
    try files :=
      traverse (per_read_files brdu_output edu_output write_wig_flag)
               results in
    Ok (mjoin files)
  else
    try sublists := traverse windows_of results in
    let all_window_results := mjoin sublists in
    let lines := write_bedgraphs all_window_results in
    Ok [(brdu_output, lines.1); (edu_output, lines.2)].

(** What [process_bam_and_write_bedgraphs] writes.  [bamfile] holds
    the reads of the file in order, [fetched] those that
    [bamfile.fetch()] gives, and [filtered_bed] the read ids of the
    bed file as [astype(str)] gives them, if a bed file is named. *)
Definition process_bam_and_write_bedgraphs
    (bamfile fetched : list AlignedRead) (filtered_bed : option (list string))
    (brdu_output edu_output : string) (window_size step_size : Z)
    (num_reads : option Z) (output_per_read write_wig_flag : bool)
    : result (list file) :=
  try made := makedirs (dirname brdu_output) in
  try made := makedirs (dirname edu_output) in
  let chunks := read_chunks filtered_bed bamfile fetched in
  try tasks := read_data_list chunks window_size step_size num_reads in
  try results := pool_imap tasks in
  write_results brdu_output edu_output output_per_read write_wig_flag
    results.

End writers.

End Batch.

(** ** The fork filter: [get_merged_forks_filtered] *)

Module ForkFilter.

(** A value of a column as [read_csv] types it (no header, the type of
    each column inferred from its fields): a field kept as text, or a
    value that is not text -- a number, in a column whose fields all read
    as numbers, or the missing value that a field such as [NA] reads
    as -- given by the text that [astype(str)] makes of it in the
    concatenated column (["nan"] for a missing value, and the text of
    the fraction for a whole number that [concat] has joined with
    fractions). *)
Inductive cell : Type :=
| Text (s : string)
| NotText (as_str : string).

(** [str(c)] *)
Definition astype_str (c : cell) : string :=
  match c with
  | Text s => s
  | NotText as_str => as_str
  end.

(** A row of a bed table: the read id (column [read_id_col]) and the
    other columns. *)
Record BedRow : Type := MkBedRow {
  read_id : cell;
  other_columns : list string
}.

(** [set(df[read_id_col].astype(str).str.strip())] *)
Definition stripped_ids (df : list BedRow) : gset string :=
  list_to_set ((λ r, rstrip (lstrip (astype_str (read_id r)))) <$> df).

(** One value of [Series.isin(values)], for a set of strings: a value
    that is not text equals none of them. *)
Definition isin (c : cell) (values : gset string) : bool :=
  match c with
  | Text s => bool_decide (s ∈ values)
  | NotText _ => false
  end.

(** The four tables are the frames that [read_csv] gives for the four
    paths. *)
Definition get_merged_forks_filtered
    (left_df right_df origin_df termination_df : list BedRow)
    : list BedRow :=
  let merged_df := left_df ++ right_df in
  let merged_ids := stripped_ids merged_df in
  let exclude_ids := stripped_ids (origin_df ++ termination_df) in
  let filtered_ids := merged_ids ∖ exclude_ids in
  List.filter (λ r, isin (read_id r) filtered_ids) merged_df.

End ForkFilter.

(** ** The aggregate path: [make_aggregate_plot_df] *)

Module AggregatePipeline.
Import Signal TrackAligner BoundaryDetector.

#[export] Instance Qle_decision : RelDecision Qle := λ a b,
  match Qlt_le_dec b a with
  | left H => right (Qlt_not_le _ _ H)
  | right H => left H
  end.

(** [pd.concat(aligned, ignore_index=True)]: nothing to concatenate is a
    [ValueError]. *)
Definition concat (aligned : list (list AlignedRow)) : result (list AlignedRow) :=
  match aligned with
  | [] => Raise ValueError
  | _ => Ok (mjoin aligned)
  end.

(** ["median"] on the values of a group that are not NaN. *)
Definition agg_median (vs : list Q) : option Q :=
  let s := merge_sort Qle vs in
  let k := (length s / 2)%nat in
  if Nat.even (length s) then
    match s !! (k - 1)%nat, s !! k with
    | Some a, Some b => Some ((a + b) / 2)%Q
    | _, _ => None
    end
  else s !! k.

Definition group_keys (combined_df : list AlignedRow) : list Z :=
  merge_sort Z.le (remove_dups (x <$> combined_df)).

Definition group_values (combined_df : list AlignedRow) (k : Z) : list Q :=
  omap (diff ∘ track) (List.filter (λ r, x r =? k) combined_df).

(** The columns [x] and [median_diff] of [summarize_combined_tracks],
    the two that the clip and the detector read, in exact rationals. *)
Definition summarize_median (combined_df : list AlignedRow)
    : list SummaryRow :=
  (λ k, MkSummaryRow k (agg_median (group_values combined_df k)))
    <$> group_keys combined_df.

(** [summary_df[(x >= -40000) & (x <= 60000)]] *)
Definition clip (summary_df : list SummaryRow) : list SummaryRow :=
  List.filter (λ r, (-40000 <=? sx r) && (sx r <=? 60000)) summary_df.

(** The summary (x and median_diff) and the three boundary columns that
    [make_aggregate_plot_df] returns for the tracks read. *)
Definition make_aggregate_plot_df (replication_tracks : list (list TrackRow))
    : result (list SummaryRow * Boundaries) :=
  try aligned :=
    traverse (λ df, align_diff_by_minimum df 500) replication_tracks in
  try combined_df := concat aligned in
  let summary_df := summarize_median combined_df in
  let summary_df := clip summary_df in
  try boundaries := detect_signal_boundaries summary_df in
  Ok (summary_df, boundaries).

End AggregatePipeline.

(** ** The single-track path: [plot_each_track] *)

Module SingleTrack.
Import TrackAligner.

(** One dict appended to [results]; a float that is NaN is [None]. *)
Record Entry : Type := MkEntry {
  read_id : string;
  e_edu_start : option Z;
  e_brdu_start : option Z;
  e_brdu_end : option Z;
  edu_track : option Z;
  brdu_track : option Z;
  edu_speed : option Q;
  brdu_speed : option Q;
  Fork_track : option Z;
  Fork_speed : option Q
}.

(** What iterating over a frame of [read_bedgraph_tracks] gives: the
    labels of its six columns, whatever its rows.  (The line of
    [read_bedgraph_tracks] that would append a pair of a name and a
    frame is a comment; the function appends the frame.) *)
Definition iter_frame (df : list TrackRow) : list string :=
  ["chromosome"; "start"; "end"; "BrdU"; "EdU"; "diff"]%string.

(** [(sample_id, df) = item]: two names take exactly two values. *)
Definition unpack_two {A} (item : list A) : result (A * A) :=
  match item with
  | [a; b] => Ok (a, b)
  | _ => Raise ValueError
  end.

(** The body of the loop with [sample_id] and [df] bound to two column
    labels: [align_diff_by_minimum] begins with [df["diff"]], and a
    string takes no string as subscript. *)
Definition loop_body (sample_id df : string) : result (option Entry) :=
  Raise TypeError.

(** [results] at the end of the loop of [plot_each_track], from the
    list of frames that [read_bedgraph_tracks] returns. *)
Definition plot_each_track (paired_tracks : list (list TrackRow))
    : result (list Entry) :=
  try entries :=
    traverse (λ item,
                try names := unpack_two (iter_frame item) in
                loop_body names.1 names.2)
             paired_tracks in
  Ok (omap (λ e, e) entries).

End SingleTrack.

(** ** Concrete inputs for the further properties *)

Module Cases.
Import TagDecoder TagCalls WindowAggregator CoordinateMapper Batch ForkFilter Signal
       TrackAligner BoundaryDetector AggregatePipeline.

(** The map decoded from [Sample.mixed_MM] and [Sample.mixed_ML]. *)
Definition decoded : gmap Z entry :=
  finalize <$> run ∅ (calls Sample.mixed_groups Sample.mixed_ML).

(** A read on the forward strand with BrdU calls at offsets 1 and 4. *)
Definition forward_read : ReadData :=
  MkReadData "chr1" 100 200 false "N+b?,0,2" [255; 128] 2 1 "read1".

Definition rows_of (r : result ReadResult) : list GenomicWindow :=
  match r with
  | Ok (ReadWindows _ rows) => rows
  | _ => []
  end.

Definition forward_rows : list GenomicWindow :=
  Eval vm_compute in rows_of (process_read (Some forward_read)).

(** Alignment records: two with both tags and one without tags, then
    one more whose single call spans less than any window. *)
Definition record (name MM : string) (ML : list Z) : AlignedRead :=
  MkAlignedRead name "chr1" 100 200 false (Some MM) (Some ML).

Definition bam : list AlignedRead :=
  [record "read1" "N+b?,0,2" [255; 128];
   MkAlignedRead "read2" "chr1" 300 400 false None None;
   record "read3" "N+e?,1,3" [51; 204]].

Definition bam_with_short_read : list AlignedRead :=
  bam ++ [record "read4" "N+b?,0" [255]].

(** The same reads, with one between them whose tag names two positions
    and whose probabilities hold one byte. *)
Definition bam_with_short_ML : list AlignedRead :=
  [record "read1" "N+b?,0,2" [255; 128];
   record "read5" "N+b?,0,2" [255];
   record "read3" "N+e?,1,3" [51; 204]].

Definition tasks_of (records : list AlignedRead) : list ReadData :=
  default [] (match read_data_list records 2 1 None with
              | Ok tasks => Some tasks
              | Raise _ => None
              end).

Definition tasks_with_short_ML : list ReadData :=
  Eval vm_compute in tasks_of bam_with_short_ML.

Definition short_ML_task : ReadData :=
  MkReadData "chr1" 100 200 false "N+b?,0,2" [255] 2 1 "read5".

(** A stand-in for the format of the values: the millionths, as
    digits. *)
Definition millionths (v : Q) : string :=
  pretty (Qnum v * 1000000 / Z.pos (Qden v)).

Definition files_of (r : result (list (string * list string)))
    : list (string * list string) :=
  match r with
  | Ok files => files
  | Raise _ => []
  end.

Definition combined_files : list (string * list string) :=
  Eval vm_compute in
    files_of (process_bam_and_write_bedgraphs millionths [] bam None
                "out/brdu.bedgraph" "out/edu.bedgraph" 2 1 None false true).

Definition per_read_files : list (string * list string) :=
  Eval vm_compute in
    files_of (process_bam_and_write_bedgraphs millionths [] bam None
                "out/brdu" "out/edu" 2 1 None true true).

(** Fork tables: read b has an origin call, and one field of the left
    table reads as a missing value. *)
Definition bed (id : cell) : BedRow := MkBedRow id ["chr1"; "0"; "10"].

Definition left_forks : list BedRow :=
  [bed (Text "a"); bed (Text "b"); bed (NotText "nan")].
Definition right_forks : list BedRow :=
  [bed (Text "b"); bed (Text "c"); bed (Text "a")].
Definition origins : list BedRow := [bed (Text " b ")].
Definition terminations : list BedRow := [bed (Text "d")].

(** Fork tables whose read ids all read as numbers. *)
Definition numbered_forks : list BedRow :=
  [bed (NotText "7"); bed (NotText "12")].

(** A summary and an aligned track with EdU and no positive difference
    to the right of 0, and a track to the right of 0. *)
Definition edu_only_summary : list BoundaryDetector.SummaryRow :=
  [BoundaryDetector.MkSummaryRow (-200) (Some (-1)%Q);
   BoundaryDetector.MkSummaryRow (-100) (Some (-1)%Q);
   BoundaryDetector.MkSummaryRow 0 None;
   BoundaryDetector.MkSummaryRow 100 (Some 0%Q)].

Definition edu_only_track : list AlignedRow :=
  [Sample.aligned_row (-20) 0 (-1); Sample.aligned_row (-10) 1 1;
   Sample.aligned_row 10 0 0; Sample.aligned_row 20 0 (-1)].

Definition right_track : list AlignedRow :=
  [Sample.aligned_row 0 0 (-1); Sample.aligned_row 10 1 1;
   Sample.aligned_row 20 0 0].

(** Two short tracks for the aggregate: EdU in the first three rows,
    BrdU in the next two, nothing after. *)
Definition short_row (i : nat) (d : Q) : TrackRow :=
  Sample.track_row (5000 + 100 * Z.of_nat i) (if Qle_bool d 0 then 0 else d) d.

Definition short_track : list TrackRow :=
  imap short_row [-1; -1; -1; 1; 1; 0; 0; 0; 0]%Q.

Definition short_aligned : list AlignedRow :=
  Eval vm_compute in
    match align_diff_by_minimum short_track 500 with
    | Ok out => out
    | Raise _ => []
    end.

Definition aggregate_of (r : result (list BoundaryDetector.SummaryRow * Boundaries))
    : list BoundaryDetector.SummaryRow * Boundaries :=
  match r with
  | Ok out => out
  | Raise _ => ([], MkBoundaries None None None)
  end.

Definition aggregate : list BoundaryDetector.SummaryRow * Boundaries :=
  Eval vm_compute in
    aggregate_of (make_aggregate_plot_df [short_track; short_track]).

End Cases.

(** * Properties *)

(** Closed goals on concrete inputs are settled by evaluation. *)
Ltac by_evaluation := vm_compute; reflexivity.

(** ** The decoder *)

Section decoder.
Import TagDecoder TagCalls.

(** *** The loops as a fold over the calls *)

Lemma length_offsets_from a rels : length (offsets_from a rels) = length rels.
Proof. revert a. induction rels as [|r rels IH]; intros a; simpl; auto. Qed.

(** The [j]-th offset of a group: the skips up to [j], plus one for each
    of them. *)
Lemma offsets_from_lookup rels : ∀ a (j : nat),
  (j < length rels)%nat →
  offsets_from a rels !! j
  = Some (a + skip_sum (take (S j) rels) + Z.of_nat (S j)).
Proof.
  induction rels as [|r rels IH]; intros a j Hj; simpl in *; [lia|].
  destruct j as [|j].
  - rewrite take_0. simpl. f_equal. lia.
  - simpl lookup. rewrite IH by lia. f_equal.
    change (skip_sum (take (S (S j)) (r :: rels)))
      with (r + skip_sum (take (S j) rels)). lia.
Qed.

Lemma decode_positions_ok k rels : ∀ a m ml,
  (length rels ≤ length ml)%nat →
  decode_positions k rels a (m, ml)
  = Ok (run m (group_calls k a rels ml), drop (length rels) ml).
Proof.
  induction rels as [|r rels IH]; intros a m ml Hlen; simpl.
  - by rewrite drop_0.
  - destruct ml as [|b ml]; simpl in *; [lia|].
    rewrite IH by lia. reflexivity.
Qed.

Lemma decode_positions_short k rels : ∀ a m ml,
  (length ml < length rels)%nat →
  decode_positions k rels a (m, ml) = Raise StopIteration.
Proof.
  induction rels as [|r rels IH]; intros a m ml Hlen; simpl in *; [lia|].
  destruct ml as [|b ml]; simpl in *; [done|].
  apply IH. lia.
Qed.

Lemma length_group_positions g : length (group_positions g) = length g.2.
Proof. unfold group_positions. by rewrite length_fmap, length_offsets_from. Qed.

Lemma positions_cons g gs : positions (g :: gs) = group_positions g ++ positions gs.
Proof. reflexivity. Qed.

Lemma calls_cons g gs ml :
  calls (g :: gs) ml
  = group_calls g.1 0 g.2 ml ++ calls gs (drop (length g.2) ml).
Proof.
  unfold calls. rewrite positions_cons.
  rewrite <- (take_drop (length g.2) ml) at 1.
  destruct (decide (length g.2 ≤ length ml)%nat) as [Hle|Hgt].
  - rewrite zip_with_app by (rewrite length_group_positions, length_take; lia).
    f_equal. unfold group_calls, group_positions.
    rewrite zip_with_fmap_l. simpl.
    rewrite <- (length_offsets_from 0 g.2). apply zip_with_take_r.
  - rewrite drop_ge by lia. rewrite app_nil_r, take_ge by lia.
    rewrite zip_with_nil_r, app_nil_r.
    rewrite zip_with_app_l. rewrite drop_ge by (rewrite length_group_positions; lia).
    rewrite zip_with_nil_r, app_nil_r.
    rewrite take_ge by (rewrite length_group_positions; lia).
    unfold group_calls, group_positions. by rewrite zip_with_fmap_l.
Qed.

(** The entries of a well-formed string decode like their groups. *)
Lemma decode_entries_ok entries : ∀ groups m ml,
  traverse parse_group entries = Ok groups →
  (length (positions groups) ≤ length ml)%nat →
  decode_entries entries (m, ml)
  = Ok (run m (calls groups ml), drop (length (positions groups)) ml).
Proof.
  induction entries as [|en entries IH]; intros groups m ml Hp Hlen; simpl in *.
  - injection Hp as <-. simpl. by rewrite drop_0.
  - unfold parse_group in Hp at 1.
    destruct (traverse int (tl (split "," en))) as [rels|e]; simpl in *; [|done].
    destruct (traverse parse_group entries) as [gs|e] eqn:Hgs; simpl in *; [|done].
    injection Hp as <-.
    rewrite positions_cons, length_app, length_group_positions in Hlen. simpl in Hlen.
    rewrite decode_positions_ok by lia. simpl.
    rewrite (IH gs) by (rewrite ?length_drop; auto; lia).
    rewrite calls_cons. simpl. unfold run. rewrite foldl_app.
    rewrite length_app, length_group_positions. simpl.
    by rewrite drop_drop.
Qed.

Lemma decode_entries_short entries : ∀ groups m ml,
  traverse parse_group entries = Ok groups →
  (length ml < length (positions groups))%nat →
  decode_entries entries (m, ml) = Raise StopIteration.
Proof.
  induction entries as [|en entries IH]; intros groups m ml Hp Hlen; simpl in *.
  - injection Hp as <-. simpl in Hlen. lia.
  - unfold parse_group in Hp at 1.
    destruct (traverse int (tl (split "," en))) as [rels|e]; simpl in *; [|done].
    destruct (traverse parse_group entries) as [gs|e] eqn:Hgs; simpl in *; [|done].
    injection Hp as <-.
    rewrite positions_cons, length_app, length_group_positions in Hlen. simpl in Hlen.
    destruct (decide (length rels ≤ length ml)%nat) as [Hle|Hgt].
    + rewrite decode_positions_ok by lia. simpl.
      apply (IH gs); [done|]. rewrite length_drop. lia.
    + rewrite decode_positions_short by lia. done.
Qed.

(** *** One offset at a time *)

Lemma record_call_lookup k o q (m : gmap Z entry) p :
  record_call k o q m !! p
  = if bool_decide (o = p)
    then Some (update_channel k q (default fresh (m !! p)))
    else m !! p.
Proof.
  unfold record_call, update_channel.
  case_bool_decide as Hop.
  - subst p. destruct (m !! o) as [e|] eqn:Hm; simpl;
      repeat case_match; rewrite ?lookup_alter_eq, ?lookup_insert_eq, ?Hm; done.
  - destruct (m !! o) as [e|] eqn:Hm; simpl;
      repeat case_match;
      rewrite ?lookup_alter_ne, ?lookup_insert_ne by done; done.
Qed.

Lemma run_lookup cs : ∀ (m : gmap Z entry) p,
  run m cs !! p = foldl (step_entry p) (m !! p) cs.
Proof.
  induction cs as [|c cs IH]; intros m p; simpl; [done|].
  unfold run in *. simpl. rewrite IH, record_call_lookup. done.
Qed.

Lemma step_entries_is_Some p cs : ∀ oe,
  is_Some (foldl (step_entry p) oe cs)
  ↔ is_Some oe ∨ ∃ c, c ∈ cs ∧ offset c = p.
Proof.
  induction cs as [|c cs IH]; intros oe; simpl.
  - split; [auto|]. intros [H|(c & Hc & _)]; [done|]. by apply elem_of_nil in Hc.
  - rewrite IH. unfold step_entry. case_bool_decide as Hc.
    + split; [|eauto]. intros _. right. exists c. split; [left|done].
    + split.
      * intros [H|(c' & Hc' & Hp)]; [by left|]. right. exists c'. split; [by right|done].
      * intros [H|(c' & Hc' & Hp)]; [by left|].
        apply elem_of_cons in Hc' as [->|Hc']; [done|]. right. eauto.
Qed.

Lemma update_channel_BrdU k q e :
  BrdU (update_channel k q e) = if bool_decide (k = "N+b?"%string) then q else BrdU e.
Proof.
  unfold update_channel.
  destruct (String.eqb_spec k "N+b?") as [->|Hb]; [done|].
  rewrite bool_decide_eq_false_2 by done.
  by destruct (String.eqb k "N+e?").
Qed.

Lemma update_channel_EdU k q e :
  EdU (update_channel k q e) = if bool_decide (k = "N+e?"%string) then q else EdU e.
Proof.
  unfold update_channel.
  destruct (String.eqb_spec k "N+b?") as [->|Hb]; [done|].
  destruct (String.eqb_spec k "N+e?") as [->|He]; [done|].
  by rewrite bool_decide_eq_false_2 by done.
Qed.

Lemma step_entries_BrdU p cs : ∀ oe e,
  foldl (step_entry p) oe cs = Some e →
  BrdU e = last_prob_from (BrdU (default fresh oe)) "N+b?" p cs.
Proof.
  induction cs as [|c cs IH]; intros oe e He; simpl in *.
  - by subst oe.
  - apply IH in He. rewrite He. unfold last_prob_from. f_equal.
    unfold step_entry. case_bool_decide as Hc; simpl.
    + rewrite update_channel_BrdU.
      case_bool_decide as Hk.
      * by rewrite bool_decide_eq_true_2 by done.
      * by rewrite bool_decide_eq_false_2 by (intros []; done).
    + by rewrite bool_decide_eq_false_2 by (intros []; done).
Qed.

Lemma step_entries_EdU p cs : ∀ oe e,
  foldl (step_entry p) oe cs = Some e →
  EdU e = last_prob_from (EdU (default fresh oe)) "N+e?" p cs.
Proof.
  induction cs as [|c cs IH]; intros oe e He; simpl in *.
  - by subst oe.
  - apply IH in He. rewrite He. unfold last_prob_from. f_equal.
    unfold step_entry. case_bool_decide as Hc; simpl.
    + rewrite update_channel_EdU.
      case_bool_decide as Hk.
      * by rewrite bool_decide_eq_true_2 by done.
      * by rewrite bool_decide_eq_false_2 by (intros []; done).
    + by rewrite bool_decide_eq_false_2 by (intros []; done).
Qed.

Lemma length_positions groups : length (positions groups) = position_count groups.
Proof.
  induction groups as [|g gs IH]; [done|].
  rewrite positions_cons, length_app, length_group_positions. simpl. lia.
Qed.

Lemma last_prob_from_0 k p cs : last_prob_from 0 k p cs = last_prob k p cs.
Proof. reflexivity. Qed.

(** What [parse_ml_mm] returns on a well-formed string with enough bytes. *)
Lemma parse_ml_mm_run MM ML groups :
  tag_groups MM = Ok groups →
  (position_count groups ≤ length ML)%nat →
  parse_ml_mm MM ML = Ok (finalize <$> run ∅ (calls groups ML)).
Proof.
  intros Hg Hlen. unfold parse_ml_mm.
  rewrite (decode_entries_ok _ groups) by (rewrite ?length_positions; done).
  reflexivity.
Qed.

Lemma parse_ml_mm_short MM ML groups :
  tag_groups MM = Ok groups →
  (length ML < position_count groups)%nat →
  parse_ml_mm MM ML = Raise StopIteration.
Proof.
  intros Hg Hlen. unfold parse_ml_mm.
  rewrite (decode_entries_short _ groups) by (rewrite ?length_positions; done).
  reflexivity.
Qed.

Lemma finalize_run_lookup cs p e :
  (finalize <$> run ∅ cs) !! p = Some e →
  BrdU e = last_prob "N+b?" p cs ∧ EdU e = last_prob "N+e?" p cs
  ∧ None_ e = max0 (1 - (BrdU e + EdU e)).
Proof.
  rewrite lookup_fmap, run_lookup, lookup_empty.
  destruct (foldl (step_entry p) None cs) as [e0|] eqn:He0; simpl; [|done].
  intros [= <-]. simpl.
  pose proof (step_entries_BrdU _ _ _ _ He0) as Hb.
  pose proof (step_entries_EdU _ _ _ _ He0) as Hd.
  simpl in Hb, Hd. rewrite last_prob_from_0 in Hb, Hd. done.
Qed.

Lemma finalize_run_is_Some cs p :
  is_Some ((finalize <$> run ∅ cs) !! p) ↔ ∃ c, c ∈ cs ∧ offset c = p.
Proof.
  rewrite lookup_fmap, fmap_is_Some, run_lookup, lookup_empty.
  rewrite step_entries_is_Some. split; [|auto].
  intros [H|H]; [by destruct H|done].
Qed.

(** Python's [max(0, v)] on the complement [v = 1 - total]. *)
Lemma max0_complement (total : Q) :
  ((total < 1)%Q → max0 (1 - total) = (1 - total)%Q)
  ∧ ((1 <= total)%Q → max0 (1 - total) = 0%Q).
Proof.
  unfold max0. split; intros H; destruct (Qlt_le_dec 0 (1 - total)) as [Hv|Hv].
  - reflexivity.
  - exfalso. apply (Qlt_not_le _ _ H). apply Qle_minus_iff.
    apply Qle_minus_iff in Hv.
    assert (total + - (1) == 0 + - (1 - total))%Q as -> by ring.
    exact Hv.
  - exfalso. apply (Qle_not_lt _ _ H). apply Qlt_minus_iff. exact Hv.
  - reflexivity.
Qed.

(** C1.  For a well-formed tag string with a byte for every position,
    [parse_ml_mm] returns a map whose keys are exactly the offsets of the
    calls (groups in declaration order, the offset restarting at 0 in each
    group and advanced by skip + 1 before each position, the k-th position
    overall consuming the k-th byte), in which each channel of an offset
    is byte/255 of the last call of that kind there (0 without one), and
    [None] is max(0, 1 - BrdU - EdU): 1 - BrdU - EdU when BrdU + EdU is
    below 1, and 0 from 1 on.  In particular the BrdU group with skips
    0,2,1 and bytes 255,128,0 yields the offsets 1,4,6 with BrdU
    1, 128/255, 0 and None 0, 127/255, 1; and an offset called with byte
    255 in both channels has None 0, not 1 - 2. *)
Theorem parse_ml_mm_decodes :
  (∀ MM ML groups,
     tag_groups MM = Ok groups →
     (position_count groups ≤ length ML)%nat →
     ∃ m, parse_ml_mm MM ML = Ok m
       ∧ (∀ p, is_Some (m !! p) ↔ ∃ c, c ∈ calls groups ML ∧ offset c = p)
       ∧ (∀ p e, m !! p = Some e →
            BrdU e = last_prob "N+b?" p (calls groups ML)
            ∧ EdU e = last_prob "N+e?" p (calls groups ML)
            ∧ ((BrdU e + EdU e < 1)%Q →
               None_ e = (1 - (BrdU e + EdU e))%Q)
            ∧ ((1 <= BrdU e + EdU e)%Q → None_ e = 0%Q)))
  ∧ (tag_groups "N+b?,0,2,1" = Ok [("N+b?"%string, [0; 2; 1])]
     ∧ calls [("N+b?"%string, [0; 2; 1])] [255; 128; 0]
       = [MkCall "N+b?" 1 255; MkCall "N+b?" 4 128; MkCall "N+b?" 6 0]
     ∧ ∃ m e1 e4 e6,
         parse_ml_mm "N+b?,0,2,1" [255; 128; 0] = Ok m
         ∧ dom m = {[1; 4; 6]}
         ∧ m !! 1 = Some e1 ∧ m !! 4 = Some e4 ∧ m !! 6 = Some e6
         ∧ (BrdU e1 == 1 ∧ BrdU e4 == 128 # 255 ∧ BrdU e6 == 0)%Q
         ∧ (EdU e1 == 0 ∧ EdU e4 == 0 ∧ EdU e6 == 0)%Q
         ∧ (None_ e1 == 0 ∧ None_ e4 == 127 # 255 ∧ None_ e6 == 1)%Q)
  ∧ (∃ m e1,
       parse_ml_mm "N+b?,0;N+e?,0" [255; 255] = Ok m
       ∧ m !! 1 = Some e1
       ∧ (BrdU e1 == 1 ∧ EdU e1 == 1 ∧ None_ e1 == 0)%Q).
Proof.
  split; [|split].
  - intros MM ML groups Hg Hlen.
    exists (finalize <$> run ∅ (calls groups ML)).
    split; [by apply parse_ml_mm_run|].
    split; [apply finalize_run_is_Some|].
    intros p e He. apply finalize_run_lookup in He as (Hb & Hd & Hn).
    split; [done|]. split; [done|].
    destruct (max0_complement (BrdU e + EdU e)) as [Hlt Hge].
    split; intros H; rewrite Hn; auto.
  - split; [reflexivity|]. split; [reflexivity|].
    eexists _, _, _, _.
    split; [rewrite (parse_ml_mm_run _ _ [("N+b?"%string, [0; 2; 1])]);
            [reflexivity|reflexivity|simpl; lia]|].
    split.
    { apply set_eq. intros p. rewrite elem_of_dom, finalize_run_is_Some.
      split.
      - intros (c & Hc & <-). vm_compute in Hc.
        set_unfold. destruct Hc as [-> | [-> | [-> | Hc]]]; simpl; auto. done.
      - set_unfold. intros [[-> | ->] | ->].
        + exists (MkCall "N+b?" 1 255). split; [|done]. vm_compute. auto.
        + exists (MkCall "N+b?" 4 128). split; [|done]. vm_compute. auto.
        + exists (MkCall "N+b?" 6 0). split; [|done]. vm_compute. auto. }
    repeat split; by_evaluation.
  - eexists _, _.
    split; [rewrite (parse_ml_mm_run _ _ [("N+b?"%string, [0]);
                                           ("N+e?"%string, [0])]);
            [reflexivity|reflexivity|simpl; lia]|].
    repeat split; by_evaluation.
Qed.

Lemma parse_ml_mm_decodes_witness :
  let groups := [("N+b?"%string, [0; 2; 1]); ("N+e?"%string, [0])] in
  tag_groups "N+b?,0,2,1;N+e?,0" = Ok groups
  ∧ (position_count groups ≤ length [255; 128; 0; 255]%Z)%nat
  ∧ ∃ m, parse_ml_mm "N+b?,0,2,1;N+e?,0" [255; 128; 0; 255] = Ok m
      ∧ (∀ p, is_Some (m !! p)
           ↔ ∃ c, c ∈ calls groups [255; 128; 0; 255] ∧ offset c = p)
      ∧ (∀ p e, m !! p = Some e →
           BrdU e = last_prob "N+b?" p (calls groups [255; 128; 0; 255])
           ∧ EdU e = last_prob "N+e?" p (calls groups [255; 128; 0; 255])
           ∧ ((BrdU e + EdU e < 1)%Q →
              None_ e = (1 - (BrdU e + EdU e))%Q)
           ∧ ((1 <= BrdU e + EdU e)%Q → None_ e = 0%Q)).
Proof.
  split; [reflexivity|]. split; [simpl; lia|].
  apply (proj1 parse_ml_mm_decodes "N+b?,0,2,1;N+e?,0" [255; 128; 0; 255]).
  - reflexivity.
  - simpl; lia.
Defined.

(** A tag string whose skips are not integers is refused by [int],
    whatever the bytes; and bytes that are left over are ignored. *)
Example parse_ml_mm_malformed :
  parse_ml_mm "N+b?,x" [255] = Raise ValueError
  ∧ parse_ml_mm "N+b?," [255] = Raise ValueError
  ∧ ∃ m, parse_ml_mm "N+b?,0" [255; 9; 9] = Ok m.
Proof. repeat split; try (vm_compute; reflexivity). eexists. reflexivity. Qed.

(** C8.  On a well-formed tag string, [parse_ml_mm] raises exactly when
    the bytes are fewer than the positions of all groups, the exception
    is then [StopIteration], and with at least as many bytes as positions
    it returns a map. *)
Theorem parse_ml_mm_raises_iff MM ML groups :
  tag_groups MM = Ok groups →
  (raises (parse_ml_mm MM ML) ↔ (length ML < position_count groups)%nat)
  ∧ ((length ML < position_count groups)%nat →
     parse_ml_mm MM ML = Raise StopIteration)
  ∧ ((position_count groups ≤ length ML)%nat →
     ∃ m, parse_ml_mm MM ML = Ok m).
Proof.
  intros Hg.
  assert (Hok : (position_count groups ≤ length ML)%nat →
                ∃ m, parse_ml_mm MM ML = Ok m).
  { intros Hlen. eexists. by apply (parse_ml_mm_run _ _ groups). }
  split; [|split; [by apply (parse_ml_mm_short _ _ groups)|done]].
  split.
  - intros [e He].
    destruct (decide (length ML < position_count groups)%nat) as [|Hge]; [done|].
    destruct Hok as [m Hm]; [lia|]. congruence.
  - intros Hlt. exists StopIteration. by apply (parse_ml_mm_short _ _ groups).
Qed.

Lemma parse_ml_mm_raises_iff_witness :
  tag_groups "N+b?,0,2,1;N+e?,0,2;" = Ok [("N+b?"%string, [0; 2; 1]); ("N+e?"%string, [0; 2])]
  ∧ (raises (parse_ml_mm "N+b?,0,2,1;N+e?,0,2;" [255; 128; 0; 7])
     ↔ (length [255; 128; 0; 7]%Z < position_count [("N+b?"%string, [0; 2; 1]%Z); ("N+e?"%string, [0; 2]%Z)])%nat)
  ∧ ((length [255; 128; 0; 7]%Z < position_count [("N+b?"%string, [0; 2; 1]%Z); ("N+e?"%string, [0; 2]%Z)])%nat →
     parse_ml_mm "N+b?,0,2,1;N+e?,0,2;" [255; 128; 0; 7] = Raise StopIteration)
  ∧ ((position_count [("N+b?"%string, [0; 2; 1]%Z); ("N+e?"%string, [0; 2]%Z)] ≤ length [255; 128; 0; 7]%Z)%nat →
     ∃ m, parse_ml_mm "N+b?,0,2,1;N+e?,0,2;" [255; 128; 0; 7] = Ok m).
Proof.
  split; [reflexivity|].
  apply (parse_ml_mm_raises_iff "N+b?,0,2,1;N+e?,0,2;" [255; 128; 0; 7]).
  reflexivity.
Defined.

End decoder.

(** ** The window aggregator *)

Section windows.
Import TagDecoder WindowAggregator.

(** *** [range] *)

Lemma range_length_pos start stop step :
  0 < step →
  ∀ i : nat, (i < Z.to_nat (range_length start stop step))%nat
             ↔ start + Z.of_nat i * step < stop.
Proof.
  intros Hs i. unfold range_length.
  rewrite (proj2 (Z.ltb_lt 0 step)) by done.
  destruct (Z.ltb_spec start stop) as [Hlt|Hge].
  - pose proof (Z.div_mod (stop - start - 1) step ltac:(lia)) as Hdm.
    pose proof (Z.mod_pos_bound (stop - start - 1) step Hs) as Hmod.
    assert (0 ≤ (stop - start - 1) / step) by (apply Z.div_pos; lia).
    split; intros H'; nia.
  - simpl. split; [lia|]. intros H'. nia.
Qed.

Lemma range3_lookup start stop step (i : nat) :
  0 < step →
  range3 start stop step !! i
  = if decide (start + Z.of_nat i * step < stop)
    then Some (start + Z.of_nat i * step) else None.
Proof.
  intros Hs. unfold range3. rewrite list_lookup_fmap.
  pose proof (range_length_pos start stop step Hs i) as Hi.
  case_decide as Hd.
  - rewrite lookup_seq_lt by (by apply Hi). done.
  - rewrite lookup_seq_ge; [done|]. apply Nat.nlt_ge. by rewrite Hi.
Qed.

Lemma elem_of_range2 start stop p : p ∈ range2 start stop → start ≤ p < stop.
Proof.
  unfold range2. intros Hp. apply list_elem_of_lookup in Hp as [i Hi].
  rewrite range3_lookup in Hi by lia. case_decide; [|done].
  injection Hi as <-. lia.
Qed.

(** *** The sorted keys *)

Lemma elem_of_sorted_keys (m : gmap Z entry) p :
  p ∈ sorted_keys m ↔ is_Some (m !! p).
Proof.
  unfold sorted_keys. rewrite merge_sort_Permutation.
  rewrite list_elem_of_fmap. split.
  - intros ([k e] & -> & Hin). apply elem_of_map_to_list in Hin. simpl. eauto.
  - intros [e He]. exists (p, e). split; [done|]. by apply elem_of_map_to_list.
Qed.

Lemma sorted_keys_sorted (m : gmap Z entry) : StronglySorted Z.le (sorted_keys m).
Proof. apply StronglySorted_merge_sort; apply _. Qed.

Lemma sorted_keys_nil (m : gmap Z entry) : sorted_keys m = [] ↔ m = ∅.
Proof.
  split.
  - intros Hnil. apply map_empty. intros p.
    apply eq_None_not_Some. rewrite <- elem_of_sorted_keys, Hnil.
    apply not_elem_of_nil.
  - intros ->. reflexivity.
Qed.

Lemma StronglySorted_le_last (l : list Z) d x :
  StronglySorted Z.le l → x ∈ l → x ≤ List.last l d.
Proof.
  intros Hsorted. revert x.
  induction Hsorted as [|y l Hl IH Hall]; intros x Hx.
  - by apply elem_of_nil in Hx.
  - destruct l as [|z l'].
    + apply list_elem_of_singleton in Hx as ->. simpl. lia.
    + change (List.last (y :: z :: l') d) with (List.last (z :: l') d).
      apply elem_of_cons in Hx as [->|Hx]; [|auto].
      etrans; [|apply IH; left].
      rewrite Forall_forall in Hall. apply Hall. left.
Qed.

Lemma last_elem_of (l : list Z) d : l ≠ [] → List.last l d ∈ l.
Proof.
  induction l as [|y l IH]; [done|]. intros _.
  destruct l as [|z l']; [left|].
  change (List.last (y :: z :: l') d) with (List.last (z :: l') d).
  right. by apply IH.
Qed.

(** The first and the last sorted key are the least and the greatest
    key of the map. *)
Lemma sorted_keys_bounds (m : gmap Z entry) min_pos rest :
  sorted_keys m = min_pos :: rest →
  let max_pos := List.last (sorted_keys m) min_pos in
  is_Some (m !! min_pos) ∧ is_Some (m !! max_pos)
  ∧ ∀ p, is_Some (m !! p) → min_pos ≤ p ≤ max_pos.
Proof.
  intros Hs max_pos.
  pose proof (sorted_keys_sorted m) as Hsorted.
  split; [|split].
  - apply elem_of_sorted_keys. rewrite Hs. left.
  - apply elem_of_sorted_keys. apply last_elem_of. by rewrite Hs.
  - intros p Hp. apply elem_of_sorted_keys in Hp. split.
    + rewrite Hs in Hp, Hsorted. apply StronglySorted_inv in Hsorted as [_ Hall].
      apply elem_of_cons in Hp as [->|Hp]; [lia|].
      rewrite Forall_forall in Hall. by apply Hall.
    + by apply StronglySorted_le_last.
Qed.

(** *** One window *)

Lemma window_at_start m ws s : window_start (window_at m ws s) = s.
Proof. unfold window_at. by case_match. Qed.

Lemma window_at_end m ws s : window_end (window_at m ws s) = s + ws.
Proof. unfold window_at. by case_match. Qed.

Lemma accumulate_absent (m : gmap Z entry) l acc :
  (∀ p, p ∈ l → m !! p = None) → foldl (accumulate m) acc l = acc.
Proof.
  revert acc. induction l as [|p l IH]; intros acc Hl; simpl; [done|].
  unfold accumulate at 2. rewrite (Hl p) by left.
  apply IH. intros q Hq. apply Hl. by right.
Qed.

Lemma window_at_absent (m : gmap Z entry) ws s :
  (∀ p, s ≤ p < s + ws → m !! p = None) →
  brdu_freq (window_at m ws s) = 0%Q ∧ edu_freq (window_at m ws s) = 0%Q.
Proof.
  intros Habs. unfold window_at, window_sums.
  rewrite accumulate_absent; [done|].
  intros p Hp. apply Habs. by apply elem_of_range2.
Qed.

(** C2.  On a non-empty map with positive sizes, [compute_sliding_windows]
    returns the windows whose starts are min_pos, min_pos + step_size,
    min_pos + 2 step_size, ... for every start <= max_pos - window_size
    and no other, in that (ascending) order, min_pos and max_pos being the
    least and the greatest key; every window ends at start + window_size;
    a window without a mapped position in [start, end) has both
    frequencies equal to 0; and there is no window at all when
    min_pos + window_size > max_pos. *)
Theorem compute_sliding_windows_spec (m : gmap Z entry) window_size step_size :
  m ≠ ∅ → 0 < window_size → 0 < step_size →
  ∃ min_pos max_pos ws,
    (is_Some (m !! min_pos) ∧ is_Some (m !! max_pos)
     ∧ ∀ p, is_Some (m !! p) → min_pos ≤ p ≤ max_pos)
    ∧ compute_sliding_windows m window_size step_size = Ok ws
    ∧ (∀ i : nat,
         window_start <$> ws !! i
         = if decide (min_pos + Z.of_nat i * step_size ≤ max_pos - window_size)
           then Some (min_pos + Z.of_nat i * step_size) else None)
    ∧ (∀ (i j : nat) wi wj, ws !! i = Some wi → ws !! j = Some wj →
         (i < j)%nat → window_start wi < window_start wj)
    ∧ (∀ w, w ∈ ws → window_end w = window_start w + window_size)
    ∧ (∀ w, w ∈ ws →
         (∀ p, window_start w ≤ p < window_end w → m !! p = None) →
         brdu_freq w = 0%Q ∧ edu_freq w = 0%Q)
    ∧ (min_pos + window_size > max_pos → ws = []).
Proof.
  intros Hne Hw Hs.
  destruct (sorted_keys m) as [|min_pos rest] eqn:Hkeys.
  { by apply sorted_keys_nil in Hkeys. }
  pose proof (sorted_keys_bounds m min_pos rest Hkeys) as Hb. simpl in Hb.
  set (max_pos := List.last (sorted_keys m) min_pos) in *.
  set (starts := range3 min_pos (max_pos - window_size + 1) step_size).
  exists min_pos, max_pos, (window_at m window_size <$> starts).
  assert (Hlook : ∀ i : nat,
    window_start <$> (window_at m window_size <$> starts) !! i
    = if decide (min_pos + Z.of_nat i * step_size ≤ max_pos - window_size)
      then Some (min_pos + Z.of_nat i * step_size) else None).
  { intros i. rewrite list_lookup_fmap. unfold starts.
    rewrite range3_lookup by done.
    repeat case_decide; try lia; simpl; [|done].
    by rewrite window_at_start. }
  split; [exact Hb|]. split.
  { unfold compute_sliding_windows. rewrite Hkeys. fold max_pos.
    rewrite <- Hkeys. fold max_pos.
    unfold range. rewrite (proj2 (Z.eqb_neq step_size 0)) by lia.
    reflexivity. }
  split; [exact Hlook|]. split.
  { intros i j wi wj Hi Hj Hij.
    pose proof (Hlook i) as Hli. pose proof (Hlook j) as Hlj.
    rewrite Hi in Hli. rewrite Hj in Hlj. simpl in *.
    repeat case_decide; try done.
    injection Hli as ->. injection Hlj as ->. nia. }
  split.
  { intros w Hin. apply list_elem_of_fmap in Hin as (s & -> & _).
    by rewrite window_at_start, window_at_end. }
  split.
  { intros w Hin Habs. apply list_elem_of_fmap in Hin as (s & -> & _).
    rewrite window_at_start, window_at_end in Habs.
    by apply window_at_absent. }
  intros Hgt. apply (list_eq _ []). intros i.
  pose proof (Hlook i) as Hli. case_decide; [nia|].
  rewrite lookup_nil. by destruct (_ !! i).
Qed.

Lemma compute_sliding_windows_spec_witness :
  Sample.two_offsets ≠ ∅ ∧ 0 < 2 ∧ 0 < 1
  ∧ ∃ min_pos max_pos ws,
    (is_Some (Sample.two_offsets !! min_pos)
     ∧ is_Some (Sample.two_offsets !! max_pos)
     ∧ ∀ p, is_Some (Sample.two_offsets !! p) → min_pos ≤ p ≤ max_pos)
    ∧ compute_sliding_windows Sample.two_offsets 2 1 = Ok ws
    ∧ (∀ i : nat,
         window_start <$> ws !! i
         = if decide (min_pos + Z.of_nat i * 1 ≤ max_pos - 2)
           then Some (min_pos + Z.of_nat i * 1) else None)
    ∧ (∀ (i j : nat) wi wj, ws !! i = Some wi → ws !! j = Some wj →
         (i < j)%nat → window_start wi < window_start wj)
    ∧ (∀ w, w ∈ ws → window_end w = window_start w + 2)
    ∧ (∀ w, w ∈ ws →
         (∀ p, window_start w ≤ p < window_end w →
               Sample.two_offsets !! p = None) →
         brdu_freq w = 0%Q ∧ edu_freq w = 0%Q)
    ∧ (min_pos + 2 > max_pos → ws = []).
Proof.
  assert (Hne : Sample.two_offsets ≠ ∅) by apply insert_non_empty.
  split; [exact Hne|]. split; [lia|]. split; [lia|].
  apply (compute_sliding_windows_spec Sample.two_offsets 2 1); [exact Hne|lia|lia].
Defined.

(** The windows of the example: offsets 1 and 4, windows of 2 by steps
    of 1; the second window holds no offset. *)
Example compute_sliding_windows_two_offsets :
  compute_sliding_windows Sample.two_offsets 2 1
  = Ok [MkWindow 1 3 (1 / 1) (0 / 1); MkWindow 2 4 0 0].
Proof. by_evaluation. Qed.

(** A step of 0 is refused by [range]; the empty map has no window. *)
Example compute_sliding_windows_step_0 :
  compute_sliding_windows Sample.two_offsets 2 0 = Raise ValueError
  ∧ compute_sliding_windows ∅ 2 0 = Ok [].
Proof. split; by_evaluation. Qed.

End windows.

(** ** The coordinate mapper and the per-read driver *)

Section mapper.
Import TagDecoder WindowAggregator CoordinateMapper.

Lemma traverse_Ok {A B} (f : A → result B) (g : A → B) (l : list A) :
  (∀ x, x ∈ l → f x = Ok (g x)) → traverse f l = Ok (g <$> l).
Proof.
  induction l as [|a l IH]; intros Hf; simpl; [done|].
  rewrite (Hf a) by left. simpl.
  rewrite IH by (intros x Hx; apply Hf; by right). done.
Qed.

Lemma convert_empty name rs re rev :
  convert_relative_to_abs_positions name rs re rev [] = Raise IndexError.
Proof. reflexivity. Qed.

(** C3.  On a non-empty window sequence the mapper returns one row per
    window, in order; the row of a window with relative start r starts at
    reference_start + 1 + r on the forward strand and at
    reference_end - 1 - r on the reverse strand, ends at its start plus
    the span of the first input window on both strands, and carries the
    reference name and the two frequencies of its window. *)
Theorem convert_relative_to_abs_positions_spec
    name rs re (rev : bool) (w0 : Window) (rest : list Window) :
  let window_results := w0 :: rest in
  let window_size := window_end w0 - window_start w0 in
  ∃ new_windows,
    convert_relative_to_abs_positions name rs re rev window_results
    = Ok new_windows
    ∧ length new_windows = length window_results
    ∧ ∀ (i : nat) w, window_results !! i = Some w →
        ∃ g, new_windows !! i = Some g
           ∧ g_start g = (if rev then re - 1 - window_start w
                          else rs + 1 + window_start w)
           ∧ g_end g = g_start g + window_size
           ∧ chrom g = name
           ∧ g_brdu g = brdu_freq w ∧ g_edu g = edu_freq w.
Proof.
  intros window_results window_size.
  set (f := λ x, if rev then re - 1 - x else rs + 1 + x).
  set (starts := f <$> (window_start <$> window_results)).
  set (row := λ ix : nat * Z,
         MkGenomicWindow name ix.2 (ix.2 + window_size)
           (brdu_freq (default w0 (window_results !! ix.1)))
           (edu_freq (default w0 (window_results !! ix.1)))).
  exists (row <$> imap pair starts).
  split; [|split].
  - unfold convert_relative_to_abs_positions. cbv zeta.
    change (window_results !! 0%nat) with (Some w0).
    unfold Py.bind. fold window_size.
    replace (if negb rev
             then (λ x, rs + 1 + x) <$> (window_start <$> window_results)
             else (λ x, re - 1 - x) <$> (window_start <$> window_results))
      with starts by (unfold starts, f; by destruct rev).
    apply traverse_Ok. intros [i x] Hin.
    apply list_elem_of_lookup in Hin as [j Hj].
    rewrite list_lookup_imap in Hj.
    destruct (starts !! j) as [y|] eqn:Hy; simpl in Hj; [|done].
    injection Hj as <- <-. simpl.
    unfold starts in Hy. rewrite !list_lookup_fmap in Hy.
    destruct (window_results !! j) as [w|] eqn:Hw; [|done].
    unfold row. simpl. by rewrite Hw.
  - unfold starts. by rewrite length_fmap, length_imap, !length_fmap.
  - intros i w Hw. exists (row (i, f (window_start w))).
    rewrite list_lookup_fmap, list_lookup_imap.
    unfold starts. rewrite !list_lookup_fmap, Hw. simpl.
    split; [done|]. unfold row, f. simpl. rewrite Hw. simpl.
    by destruct rev.
Qed.

Lemma convert_relative_to_abs_positions_spec_witness :
  ∃ new_windows,
    convert_relative_to_abs_positions "chr1" 1000 2000 true
      [MkWindow 50 150 (1 # 2) 0; MkWindow 60 160 (1 # 4) 0]
    = Ok new_windows
    ∧ length new_windows
      = length [MkWindow 50 150 (1 # 2) 0; MkWindow 60 160 (1 # 4) 0]
    ∧ ∀ (i : nat) w,
        [MkWindow 50 150 (1 # 2) 0; MkWindow 60 160 (1 # 4) 0] !! i = Some w →
        ∃ g, new_windows !! i = Some g
           ∧ g_start g = (if true then 2000 - 1 - window_start w
                          else 1000 + 1 + window_start w)
           ∧ g_end g = g_start g + (150 - 50)
           ∧ chrom g = "chr1"%string
           ∧ g_brdu g = brdu_freq w ∧ g_edu g = edu_freq w.
Proof.
  exact (convert_relative_to_abs_positions_spec "chr1" 1000 2000 true
           (MkWindow 50 150 (1 # 2) 0) [MkWindow 60 160 (1 # 4) 0]).
Defined.

(** The two strands at reference_start = 1000, reference_end = 2000 and
    a window starting at 50. *)
Example convert_forward :
  convert_relative_to_abs_positions "chr1" 1000 2000 false
    [MkWindow 50 150 (1 # 2) 0]
  = Ok [MkGenomicWindow "chr1" 1051 1151 (1 # 2) 0].
Proof. reflexivity. Qed.

Example convert_reverse :
  convert_relative_to_abs_positions "chr1" 1000 2000 true
    [MkWindow 50 150 (1 # 2) 0]
  = Ok [MkGenomicWindow "chr1" 1949 2049 (1 # 2) 0].
Proof. reflexivity. Qed.

(** C7.  The mapper raises [IndexError] on an empty window sequence, and
    [process_read] hands it one: a read whose decoded offsets span less
    than the window size (offsets 10 and 15, window size 20) gets no
    window, and the call is made all the same, so that [process_read]
    raises. *)
Theorem process_read_empty_windows :
  (∀ name rs re rev,
     convert_relative_to_abs_positions name rs re rev [] = Raise IndexError)
  ∧ (∃ m, parse_ml_mm "N+b?,9,4" [204; 102] = Ok m
        ∧ sorted_keys m = [10; 15]
        ∧ compute_sliding_windows m 20 10 = Ok [])
  ∧ process_read
      (Some (MkReadData "chr1" 100 200 false "N+b?,9,4" [204; 102] 20 10 "read1"))
    = Raise IndexError.
Proof.
  split; [apply convert_empty|]. split.
  - eexists. split; [reflexivity|]. split; by_evaluation.
  - vm_compute. reflexivity.
Qed.

(** [process_read] has no handler: what the decoder or the aggregator
    raises, it raises. *)
Lemma process_read_propagates rd e :
  parse_ml_mm (MM rd) (ML rd) = Raise e →
  process_read (Some rd) = Raise e.
Proof. intros Hm. unfold process_read. by rewrite Hm. Qed.

(** Whatever the read, [process_read] raises when its windows are none. *)
Lemma process_read_no_window rd m :
  parse_ml_mm (MM rd) (ML rd) = Ok m →
  compute_sliding_windows m (window_size rd) (step_size rd) = Ok [] →
  process_read (Some rd) = Raise IndexError.
Proof. intros Hm Hw. unfold process_read. rewrite Hm. simpl. rewrite Hw. done. Qed.

End mapper.

(** ** Groups of an unrecognized kind *)

Section unrecognized.
Import TagDecoder WindowAggregator TagCalls.

(** *** Taking an entry out of the tag string *)

Lemma split_app_sep sep e rest :
  has_char sep e = false →
  split sep (e +:+ String sep rest) = e :: split sep rest.
Proof.
  induction e as [|c e IH]; simpl; intros Hc.
  - by rewrite Ascii.eqb_refl.
  - apply orb_false_iff in Hc as [Hc He]. rewrite Hc, IH by done. done.
Qed.

Lemma split_has_char sep s : Forall (λ e, has_char sep e = false) (split sep s).
Proof.
  induction s as [|c s IH]; simpl.
  - by constructor.
  - destruct (Ascii.eqb c sep) eqn:Hc.
    + by constructor.
    + destruct (split sep s) as [|w ws]; inversion IH; subst;
        constructor; simpl; rewrite ?Hc; auto.
Qed.

Lemma split_join_entries es :
  Forall (λ e, has_char ";" e = false) es →
  split ";" (join_entries es) = es ++ [EmptyString].
Proof.
  induction 1 as [|e es He Hes IH]; simpl; [done|].
  by rewrite split_app_sep, IH.
Qed.

Lemma tag_entries_join es :
  Forall (λ e, has_char ";" e = false) es →
  Forall (λ e, nonempty e = true) es →
  tag_entries (join_entries es) = es.
Proof.
  intros Hc Hn. unfold tag_entries. rewrite split_join_entries by done.
  rewrite List.filter_app. simpl. rewrite app_nil_r.
  induction Hn as [|e es He Hes IH]; simpl; [done|].
  rewrite He. f_equal. apply IH. by inversion Hc.
Qed.

Lemma tag_entries_has_char MM : Forall (λ e, has_char ";" e = false) (tag_entries MM).
Proof.
  unfold tag_entries. pose proof (split_has_char ";" MM) as H.
  induction H as [|e es He Hes IH]; simpl; [constructor|].
  destruct (nonempty e); [constructor|]; done.
Qed.

Lemma tag_entries_nonempty MM : Forall (λ e, nonempty e = true) (tag_entries MM).
Proof.
  unfold tag_entries.
  induction (split ";" MM) as [|e es IH]; simpl; [constructor|].
  destruct (nonempty e) eqn:He; [constructor|]; done.
Qed.

Lemma Forall_delete' {A} (P : A → Prop) (l : list A) i :
  Forall P l → Forall P (delete i l).
Proof.
  intros H. revert i. induction H as [|x l Hx Hl IH]; intros [|i]; simpl;
    try constructor; auto.
Qed.

Lemma tag_entries_without i MM :
  tag_entries (MM_without i MM) = delete i (tag_entries MM).
Proof.
  unfold MM_without. apply tag_entries_join; apply Forall_delete'.
  - apply tag_entries_has_char.
  - apply tag_entries_nonempty.
Qed.

Lemma traverse_delete {A B} (f : A → result B) l : ∀ l' i,
  traverse f l = Ok l' → traverse f (delete i l) = Ok (delete i l').
Proof.
  induction l as [|a l IH]; intros l' i Hl; simpl in *.
  - injection Hl as <-. by destruct i.
  - destruct (f a) as [b|e] eqn:Hb; simpl in *; [|done].
    destruct (traverse f l) as [bs|e] eqn:Hbs; simpl in *; [|done].
    injection Hl as <-. destruct i as [|i]; simpl; [done|].
    rewrite Hb. simpl. by rewrite (IH bs i).
Qed.

Lemma tag_groups_without i MM groups :
  tag_groups MM = Ok groups →
  tag_groups (MM_without i MM) = Ok (delete i groups).
Proof.
  unfold tag_groups. intros Hg. rewrite tag_entries_without.
  by apply traverse_delete.
Qed.

(** *** Taking its calls out of the call sequence *)

Lemma positions_app gs1 gs2 : positions (gs1 ++ gs2) = positions gs1 ++ positions gs2.
Proof. unfold positions. apply bind_app. Qed.

Lemma calls_without i groups g ML :
  groups !! i = Some g →
  (position_count groups ≤ length ML)%nat →
  ∃ A S B,
    calls groups ML = A ++ S ++ B
    ∧ calls (delete i groups) (ML_without i groups ML) = A ++ B
    ∧ Forall (λ c, kind c = g.1) S
    ∧ offset <$> S = offsets_from 0 g.2.
Proof.
  intros Hi Hlen. rewrite <- length_positions in Hlen.
  unfold ML_without. rewrite Hi. unfold before.
  pose proof (take_drop_middle groups i g Hi) as Hsplit.
  assert (Hcalls : calls groups ML
                   = calls (take i groups ++ g :: drop (S i) groups) ML)
    by (by rewrite Hsplit).
  assert (Hpos : positions groups
                 = positions (take i groups ++ g :: drop (S i) groups))
    by (by rewrite Hsplit).
  rewrite Hcalls. rewrite Hpos in Hlen. clear Hcalls Hpos Hsplit.
  rewrite delete_take_drop.
  set (P1 := positions (take i groups)) in *.
  set (P3 := positions (drop (S i) groups)) in *.
  rewrite positions_app, positions_cons in Hlen. fold P1 P3 in Hlen.
  rewrite !length_app, length_group_positions in Hlen.
  set (n := length P1) in *. set (len := length g.2) in *.
  set (F := λ (ko : string * Z) (b : Z), MkCall ko.1 ko.2 b).
  exists (zip_with F P1 (take n ML)),
         (zip_with F (group_positions g) (take len (drop n ML))),
         (zip_with F P3 (drop (n + len) ML)).
  split; [|split; [|split]].
  - unfold calls. rewrite positions_app, positions_cons. fold P1 P3 F.
    rewrite <- (take_drop n ML) at 1.
    rewrite zip_with_app by (rewrite length_take; lia). f_equal.
    rewrite <- (take_drop len (drop n ML)) at 1.
    rewrite zip_with_app by (rewrite length_group_positions, length_take, length_drop; lia).
    by rewrite drop_drop.
  - unfold calls. rewrite positions_app. fold P1 P3 F.
    rewrite zip_with_app by (rewrite length_take; lia). done.
  - apply Forall_forall. intros c Hc.
    apply elem_of_lookup_zip_with in Hc as (j & ko & b & -> & Hko & _).
    unfold group_positions in Hko. rewrite list_lookup_fmap in Hko.
    destruct (offsets_from 0 g.2 !! j); simpl in Hko; [|done].
    by injection Hko as <-.
  - unfold group_positions. rewrite zip_with_fmap_l.
    apply list_eq. intros j. rewrite list_lookup_fmap, lookup_zip_with.
    destruct (offsets_from 0 g.2 !! j) as [o|] eqn:Ho; simpl; [|done].
    apply lookup_lt_Some in Ho as Hj. rewrite length_offsets_from in Hj.
    destruct (lookup_lt_is_Some_2 (take len (drop n ML)) j) as [b ->]; [|done].
    rewrite length_take, length_drop. fold len in Hj. lia.
Qed.

(** *** The effect on one offset *)

Lemma step_entry_diluted p c oe oe' :
  diluted oe oe' → diluted (step_entry p oe c) (step_entry p oe' c).
Proof.
  intros [->|[-> ->]]; [by left|].
  unfold step_entry. case_bool_decide; [left|right]; done.
Qed.

Lemma steps_diluted p cs : ∀ oe oe',
  diluted oe oe' →
  diluted (foldl (step_entry p) oe cs) (foldl (step_entry p) oe' cs).
Proof.
  induction cs as [|c cs IH]; intros oe oe' H; simpl; [done|].
  apply IH. by apply step_entry_diluted.
Qed.

Lemma update_channel_unrecognized k q e :
  ¬ recognized k → update_channel k q e = e.
Proof.
  intros Hk. unfold update_channel, recognized in *.
  destruct (String.eqb_spec k "N+b?"); [tauto|].
  destruct (String.eqb_spec k "N+e?"); [tauto|]. done.
Qed.

Lemma steps_unrecognized p S : ∀ oe oe',
  Forall (λ c, ¬ recognized (kind c)) S →
  diluted oe oe' →
  diluted (foldl (step_entry p) oe S) oe'
  ∧ ((∃ c, c ∈ S ∧ offset c = p) → is_Some (foldl (step_entry p) oe S)).
Proof.
  induction S as [|c S IH]; intros oe oe' HS Hd; simpl.
  - split; [done|]. intros (c & Hc & _). by apply elem_of_nil in Hc.
  - apply Forall_cons in HS as [Hc HS].
    assert (Hd' : diluted (step_entry p oe c) oe').
    { unfold step_entry. case_bool_decide; [|done].
      rewrite update_channel_unrecognized by done.
      destruct Hd as [->|[-> ->]]; [|by right].
      destruct oe' as [e|]; [by left|by right]. }
    destruct (IH _ _ HS Hd') as [H1 H2]. split; [done|].
    intros (c' & Hc' & Hp).
    apply elem_of_cons in Hc' as [->|Hc']; [|eauto].
    apply step_entries_is_Some. left.
    unfold step_entry. rewrite bool_decide_eq_true_2 by done. eauto.
Qed.

Lemma run_without A S B p :
  Forall (λ c, ¬ recognized (kind c)) S →
  diluted (run ∅ (A ++ S ++ B) !! p) (run ∅ (A ++ B) !! p).
Proof.
  intros HS. rewrite !run_lookup, !foldl_app.
  apply steps_diluted.
  by apply steps_unrecognized; [|left].
Qed.

(** *** The effect on a window *)

Lemma elem_of_range2_2 start stop p : start ≤ p < stop → p ∈ range2 start stop.
Proof.
  intros Hp. apply list_elem_of_lookup. exists (Z.to_nat (p - start)).
  unfold range2. rewrite range3_lookup by lia.
  rewrite decide_True by lia. f_equal. lia.
Qed.

Lemma accumulate_count_le (m : gmap Z entry) l : ∀ acc,
  acc.2 ≤ (foldl (accumulate m) acc l).2.
Proof.
  induction l as [|p l IH]; intros acc; simpl; [lia|].
  etrans; [|apply IH]. unfold accumulate. destruct (m !! p); simpl; lia.
Qed.

Lemma accumulate_count_eq (m : gmap Z entry) l : ∀ acc,
  (foldl (accumulate m) acc l).2 = acc.2 → foldl (accumulate m) acc l = acc.
Proof.
  induction l as [|p l IH]; intros acc Heq; simpl in *; [done|].
  pose proof (accumulate_count_le m l (accumulate m acc p)) as Hle.
  unfold accumulate in *. destruct (m !! p); simpl in *; [lia|].
  by apply IH.
Qed.

Lemma accumulate_nonneg (m : gmap Z entry) l : ∀ acc,
  (∀ p e, m !! p = Some e → (0 <= BrdU e)%Q ∧ (0 <= EdU e)%Q) →
  (0 <= acc.1.1)%Q → (0 <= acc.1.2)%Q →
  (0 <= (foldl (accumulate m) acc l).1.1)%Q
  ∧ (0 <= (foldl (accumulate m) acc l).1.2)%Q.
Proof.
  induction l as [|p l IH]; intros acc Hm Hb He; simpl; [done|].
  apply IH; [done| |]; unfold accumulate;
    destruct (m !! p) as [e|] eqn:Hp; simpl; try done;
    destruct (Hm p e Hp);
    (apply (Qle_trans _ (0 + 0)); [done|by apply Qplus_le_compat]).
Qed.

Section two_maps.
Variables m m' : gmap Z entry.
Hypothesis Hrel : ∀ p,
  m !! p = m' !! p ∨ (m !! p = Some (Entry 0 0 1) ∧ m' !! p = None).
Hypothesis Hpos : ∀ p e,
  m !! p = Some e → (0 <= BrdU e)%Q ∧ (0 <= EdU e)%Q.

Lemma accumulate_compare l : ∀ acc acc',
  (acc.1.1 == acc'.1.1)%Q → (acc.1.2 == acc'.1.2)%Q → acc'.2 ≤ acc.2 →
  let r := foldl (accumulate m) acc l in
  let r' := foldl (accumulate m') acc' l in
  (r.1.1 == r'.1.1)%Q ∧ (r.1.2 == r'.1.2)%Q ∧ r'.2 ≤ r.2
  ∧ (acc'.2 < acc.2 ∨ (∃ p, p ∈ l ∧ m' !! p = None ∧ is_Some (m !! p))
     → r'.2 < r.2).
Proof.
  induction l as [|p l IH]; intros acc acc' Hb He Ht; simpl.
  - repeat split; try done. intros [H|(p & Hp & _)]; [done|].
    by apply elem_of_nil in Hp.
  - destruct (Hrel p) as [Heq|[Hm Hm']].
    + destruct (IH (accumulate m acc p) (accumulate m' acc' p))
        as (H1 & H2 & H3 & H4).
      * unfold accumulate. rewrite Heq. destruct (m' !! p); simpl; [|done].
        by rewrite Hb.
      * unfold accumulate. rewrite Heq. destruct (m' !! p); simpl; [|done].
        by rewrite He.
      * unfold accumulate. rewrite Heq. destruct (m' !! p); simpl; lia.
      * repeat split; try done.
        intros [Hlt|(q & Hq & Hq' & Hqs)]; apply H4.
        -- left. unfold accumulate. rewrite Heq.
           destruct (m' !! p); simpl; lia.
        -- apply elem_of_cons in Hq as [->|Hq]; [|right; eauto].
           rewrite Heq, Hq' in Hqs. by destruct Hqs.
    + destruct (IH (accumulate m acc p) (accumulate m' acc' p))
        as (H1 & H2 & H3 & H4).
      * unfold accumulate. rewrite Hm, Hm'. simpl. rewrite Hb. ring.
      * unfold accumulate. rewrite Hm, Hm'. simpl. rewrite He. ring.
      * unfold accumulate. rewrite Hm, Hm'. simpl. lia.
      * repeat split; try done. intros _. apply H4. left.
        unfold accumulate. rewrite Hm, Hm'. simpl. lia.
Qed.

Lemma Qdiv_le_denominator (b b' : Q) (t t' : Z) :
  (b == b')%Q → (0 <= b)%Q → 0 < t' → t' ≤ t →
  (b / inject_Z t <= b' / inject_Z t')%Q.
Proof.
  intros Hb Hb0 Ht' Ht. rewrite <- Hb.
  assert (0 < inject_Z t')%Q by (rewrite <- (Zlt_Qlt 0); done).
  assert (0 < inject_Z t)%Q by (rewrite <- (Zlt_Qlt 0); lia).
  apply Qle_shift_div_r; [done|].
  unfold Qdiv. rewrite <- Qmult_assoc.
  rewrite <- (Qmult_1_r b) at 1.
  apply Qmult_le_compat_nonneg; [split; [done|apply Qle_refl]|].
  split; [done|].
  rewrite Qmult_comm. apply Qle_shift_div_l; [done|].
  rewrite Qmult_1_l. by rewrite <- Zle_Qle.
Qed.

Lemma Qdiv_lt_denominator (b b' : Q) (t t' : Z) :
  (b == b')%Q → (0 < b)%Q → 0 < t' → t' < t →
  (b / inject_Z t < b' / inject_Z t')%Q.
Proof.
  intros Hb Hb0 Ht' Ht. rewrite <- Hb.
  assert (0 < inject_Z t')%Q by (rewrite <- (Zlt_Qlt 0); done).
  assert (0 < inject_Z t)%Q by (rewrite <- (Zlt_Qlt 0); lia).
  apply Qlt_shift_div_r; [done|].
  unfold Qdiv. rewrite <- Qmult_assoc.
  rewrite <- (Qmult_1_r b) at 1.
  apply Qmult_lt_l; [done|].
  rewrite Qmult_comm. apply Qlt_shift_div_l; [done|].
  rewrite Qmult_1_l. by rewrite <- Zlt_Qlt.
Qed.

Lemma window_at_compare window_size s :
  let w := window_at m window_size s in
  let w' := window_at m' window_size s in
  (brdu_freq w <= brdu_freq w')%Q ∧ (edu_freq w <= edu_freq w')%Q
  ∧ t_count m' window_size s ≤ t_count m window_size s
  ∧ ((∃ p, s ≤ p < s + window_size ∧ m' !! p = None ∧ is_Some (m !! p)) →
     t_count m' window_size s < t_count m window_size s
     ∧ ((0 < brdu_freq w')%Q → (brdu_freq w < brdu_freq w')%Q)
     ∧ ((0 < edu_freq w')%Q → (edu_freq w < edu_freq w')%Q)).
Proof.
  intros w w'. unfold w, w', window_at, t_count, window_sums.
  set (l := range2 s (s + window_size)).
  destruct (accumulate_compare l (0%Q, 0%Q, 0) (0%Q, 0%Q, 0))
    as (Hb & He & Ht & Hlt); [done|done|simpl; lia|].
  destruct (accumulate_nonneg m l (0%Q, 0%Q, 0) Hpos) as [Hb0 He0];
    [done|done|].
  pose proof (accumulate_count_le m' l (0%Q, 0%Q, 0)) as Ht0'.
  pose proof (accumulate_count_eq m' l (0%Q, 0%Q, 0)) as Hz'.
  set (r := foldl (accumulate m) (0%Q, 0%Q, 0) l) in *.
  set (r' := foldl (accumulate m') (0%Q, 0%Q, 0) l) in *.
  simpl in Ht0', Hz'.
  assert (Hfreq : (brdu_freq
            (if 0 <? r.2 then MkWindow s (s + window_size)
               (r.1.1 / inject_Z r.2) (r.1.2 / inject_Z r.2)
             else MkWindow s (s + window_size) 0 0)
           <= brdu_freq
            (if 0 <? r'.2 then MkWindow s (s + window_size)
               (r'.1.1 / inject_Z r'.2) (r'.1.2 / inject_Z r'.2)
             else MkWindow s (s + window_size) 0 0))%Q
          ∧ (edu_freq
            (if 0 <? r.2 then MkWindow s (s + window_size)
               (r.1.1 / inject_Z r.2) (r.1.2 / inject_Z r.2)
             else MkWindow s (s + window_size) 0 0)
           <= edu_freq
            (if 0 <? r'.2 then MkWindow s (s + window_size)
               (r'.1.1 / inject_Z r'.2) (r'.1.2 / inject_Z r'.2)
             else MkWindow s (s + window_size) 0 0))%Q).
  { destruct (Z.ltb_spec 0 r'.2) as [Hp'|Hz].
    - rewrite (proj2 (Z.ltb_lt 0 r.2)) by lia. simpl.
      split; by apply Qdiv_le_denominator.
    - assert (Hr' : r' = (0%Q, 0%Q, 0)) by (apply Hz'; lia).
      rewrite Hr' in Hb, He. simpl in Hb, He.
      destruct (0 <? r.2); simpl; [|done].
      rewrite Hb, He. unfold Qdiv. rewrite !Qmult_0_l. done. }
  split; [apply Hfreq|]. split; [apply Hfreq|]. split; [done|].
  intros (p & Hp & Hp' & Hps).
  assert (Hstrict : r'.2 < r.2).
  { apply Hlt. right. exists p. split; [|done]. by apply elem_of_range2_2. }
  split; [done|].
  destruct (Z.ltb_spec 0 r'.2) as [Hp0|Hz]; simpl.
  - rewrite (proj2 (Z.ltb_lt 0 r.2)) by lia. simpl.
    assert (0 < inject_Z r'.2)%Q by (rewrite <- (Zlt_Qlt 0); done).
    split; intros Hf; apply Qdiv_lt_denominator; try done.
    + rewrite Hb. apply (Qmult_lt_r _ _ (/ inject_Z r'.2));
        [by apply Qinv_lt_0_compat|]. by rewrite Qmult_0_l.
    + rewrite He. apply (Qmult_lt_r _ _ (/ inject_Z r'.2));
        [by apply Qinv_lt_0_compat|]. by rewrite Qmult_0_l.
  - split; intros Hf; by apply Qlt_irrefl in Hf.
Qed.

End two_maps.

(** *** The two decodings *)

Lemma last_prob_from_none k p cs : ∀ init,
  (∀ c, c ∈ cs → ¬ (kind c = k ∧ offset c = p)) →
  last_prob_from init k p cs = init.
Proof.
  induction cs as [|c cs IH]; intros init Hcs; [done|].
  unfold last_prob_from in *. simpl.
  rewrite bool_decide_eq_false_2 by (apply Hcs; left).
  apply IH. intros c' Hc'. apply Hcs. by right.
Qed.

Lemma last_prob_from_nonneg k p cs : ∀ init,
  (0 <= init)%Q → Forall (λ c, 0 ≤ byte c) cs →
  (0 <= last_prob_from init k p cs)%Q.
Proof.
  induction cs as [|c cs IH]; intros init Hinit Hcs; [done|].
  apply Forall_cons in Hcs as [Hc Hcs].
  unfold last_prob_from in *. simpl. apply IH; [|done].
  case_bool_decide; [|done].
  unfold prob. apply Qle_shift_div_l; [done|].
  rewrite Qmult_0_l. by rewrite <- (Zle_Qle 0).
Qed.

Lemma calls_bytes_nonneg groups ML :
  Forall (λ b, 0 ≤ b) ML → Forall (λ c, 0 ≤ byte c) (calls groups ML).
Proof.
  intros HML. apply Forall_forall. intros c Hc.
  apply elem_of_lookup_zip_with in Hc as (j & ko & b & -> & _ & Hb).
  simpl. rewrite Forall_forall in HML. apply HML.
  by apply list_elem_of_lookup_2 in Hb.
Qed.

Lemma finalize_fresh : finalize fresh = Entry 0 0 1.
Proof. reflexivity. Qed.

(** C9, as the code has it.  In a well-formed tag string with enough
    bytes, none of them negative, take a group of a kind other than
    [N+b?] and [N+e?].  Each of its offsets is a key of the decoded map,
    with the entry BrdU 0, EdU 0, None 1 when no recognized call lands
    on it.  Compared with the decoding of the tag pair without that group,
    every window [s, s + window_size) has a denominator at least as
    large and both frequencies at most as large; and when the window
    covers an offset of the group that the other decoding lacks, the
    denominator is larger, and a frequency is smaller whenever it is
    positive without the group. *)
Theorem unrecognized_group_dilutes MM ML groups (i : nat) k rels :
  tag_groups MM = Ok groups →
  (position_count groups ≤ length ML)%nat →
  Forall (λ b, 0 ≤ b) ML →
  groups !! i = Some (k, rels) →
  ¬ recognized k →
  ∃ m m',
    parse_ml_mm MM ML = Ok m
    ∧ parse_ml_mm (MM_without i MM) (ML_without i groups ML) = Ok m'
    ∧ (∀ p, p ∈ offsets_from 0 rels →
         ∃ e, m !! p = Some e
            ∧ ((∀ c, c ∈ calls groups ML → offset c = p →
                     ¬ recognized (kind c)) →
               e = Entry 0 0 1))
    ∧ (∀ window_size s,
         let w := window_at m window_size s in
         let w' := window_at m' window_size s in
         t_count m' window_size s ≤ t_count m window_size s
         ∧ (brdu_freq w <= brdu_freq w')%Q ∧ (edu_freq w <= edu_freq w')%Q
         ∧ (∀ p, p ∈ offsets_from 0 rels → s ≤ p < s + window_size →
              m' !! p = None →
              t_count m' window_size s < t_count m window_size s
              ∧ ((0 < brdu_freq w')%Q → (brdu_freq w < brdu_freq w')%Q)
              ∧ ((0 < edu_freq w')%Q → (edu_freq w < edu_freq w')%Q))).
Proof.
  intros Hg Hlen HML Hi Hk.
  destruct (calls_without i groups (k, rels) ML Hi Hlen)
    as (A & S & B & Hcs & Hcs' & HS & HSo). simpl in HS, HSo.
  assert (HSk : Forall (λ c, ¬ recognized (kind c)) S).
  { eapply Forall_impl; [exact HS|]. simpl. by intros c ->. }
  set (m := finalize <$> run ∅ (calls groups ML)).
  set (m' := finalize <$> run ∅ (calls (delete i groups) (ML_without i groups ML))).
  assert (Hlen' : (position_count (delete i groups)
                   ≤ length (ML_without i groups ML))%nat).
  { rewrite <- length_positions.
    assert (length (calls (delete i groups) (ML_without i groups ML))
            = length (A ++ B)) as Hl by (by rewrite Hcs').
    assert (length (calls groups ML) = length (A ++ S ++ B)) as Hl2
      by (by rewrite Hcs).
    unfold calls in Hl, Hl2. rewrite length_zip_with in Hl, Hl2.
    rewrite !length_app in Hl, Hl2.
    assert (length S = length rels) as HlS.
    { rewrite <- (length_fmap offset), HSo. apply length_offsets_from. }
    unfold ML_without in *. rewrite Hi in *. simpl in *.
    rewrite length_positions in Hl2.
    pose proof (take_drop_middle groups i (k, rels) Hi) as Hsplit.
    assert (Hpc : position_count groups
                  = (position_count (delete i groups) + length rels)%nat).
    { rewrite <- !length_positions. rewrite <- Hsplit at 1.
      rewrite delete_take_drop, !positions_app, positions_cons.
      rewrite !length_app, length_group_positions. simpl. lia. }
    assert (Hb : (before i groups ≤ position_count (delete i groups))%nat).
    { unfold before. rewrite <- length_positions.
      rewrite delete_take_drop, positions_app, length_app. lia. }
    rewrite length_positions.
    rewrite length_app, length_take, length_drop. lia. }
  exists m, m'.
  split; [by apply parse_ml_mm_run|].
  split; [apply parse_ml_mm_run; [by apply tag_groups_without|done]|].
  assert (Hrel : ∀ p, m !! p = m' !! p
                      ∨ (m !! p = Some (Entry 0 0 1) ∧ m' !! p = None)).
  { intros p. unfold m, m'. rewrite !lookup_fmap, Hcs, Hcs'.
    destruct (run_without A S B p HSk) as [->|[-> ->]]; [by left|by right]. }
  assert (Hpos : ∀ p e, m !! p = Some e → (0 <= BrdU e)%Q ∧ (0 <= EdU e)%Q).
  { intros p e He. apply finalize_run_lookup in He as (-> & -> & _).
    split; apply last_prob_from_nonneg; try done;
      by apply calls_bytes_nonneg. }
  split.
  - intros p Hp.
    assert (Hsome : is_Some (m !! p)).
    { apply finalize_run_is_Some. rewrite Hcs. rewrite <- HSo in Hp.
      apply list_elem_of_fmap in Hp as (c & -> & Hc).
      exists c. split; [|done]. rewrite !elem_of_app. auto. }
    destruct Hsome as [e He]. exists e. split; [done|].
    intros Hnone. apply finalize_run_lookup in He as (Hb & Hd & Hn).
    rewrite <- last_prob_from_0, last_prob_from_none in Hb, Hd.
    + destruct e as [b d n]. simpl in *. subst b d. rewrite Hn. reflexivity.
    + intros c Hc [Hck Hco]. apply (Hnone c Hc Hco). right. done.
    + intros c Hc [Hck Hco]. apply (Hnone c Hc Hco). left. done.
  - intros window_size s w w'.
    destruct (window_at_compare m m' Hrel Hpos window_size s)
      as (H1 & H2 & H3 & H4).
    split; [done|]. split; [done|]. split; [done|].
    intros p Hp Hrange Hp'. apply H4. exists p. split; [done|]. split; [done|].
    destruct (Hrel p) as [Heq|[-> _]]; [|eauto].
    apply finalize_run_is_Some. rewrite Hcs. rewrite <- HSo in Hp.
    apply list_elem_of_fmap in Hp as (c & -> & Hc).
    exists c. split; [|done]. rewrite !elem_of_app. auto.
Qed.

Lemma unrecognized_group_dilutes_witness :
  tag_groups Sample.mixed_MM = Ok Sample.mixed_groups
  ∧ (position_count Sample.mixed_groups ≤ length Sample.mixed_ML)%nat
  ∧ Forall (λ b, 0 ≤ b) Sample.mixed_ML
  ∧ Sample.mixed_groups !! 1%nat = Some ("N+x?"%string, [1])
  ∧ ¬ recognized "N+x?"
  ∧ ∃ m m',
    parse_ml_mm Sample.mixed_MM Sample.mixed_ML = Ok m
    ∧ parse_ml_mm (MM_without 1 Sample.mixed_MM)
        (ML_without 1 Sample.mixed_groups Sample.mixed_ML) = Ok m'
    ∧ (∀ p, p ∈ offsets_from 0 [1] →
         ∃ e, m !! p = Some e
            ∧ ((∀ c, c ∈ calls Sample.mixed_groups Sample.mixed_ML →
                     offset c = p → ¬ recognized (kind c)) →
               e = Entry 0 0 1))
    ∧ (∀ window_size s,
         let w := window_at m window_size s in
         let w' := window_at m' window_size s in
         t_count m' window_size s ≤ t_count m window_size s
         ∧ (brdu_freq w <= brdu_freq w')%Q ∧ (edu_freq w <= edu_freq w')%Q
         ∧ (∀ p, p ∈ offsets_from 0 [1] → s ≤ p < s + window_size →
              m' !! p = None →
              t_count m' window_size s < t_count m window_size s
              ∧ ((0 < brdu_freq w')%Q → (brdu_freq w < brdu_freq w')%Q)
              ∧ ((0 < edu_freq w')%Q → (edu_freq w < edu_freq w')%Q))).
Proof.
  assert (H1 : tag_groups Sample.mixed_MM = Ok Sample.mixed_groups)
    by reflexivity.
  assert (H2 : (position_count Sample.mixed_groups
                ≤ length Sample.mixed_ML)%nat) by (simpl; lia).
  assert (H3 : Forall (λ b, 0 ≤ b) Sample.mixed_ML)
    by (repeat constructor; lia).
  assert (H4 : Sample.mixed_groups !! 1%nat = Some ("N+x?"%string, [1]))
    by reflexivity.
  assert (H5 : ¬ recognized "N+x?") by (intros [H|H]; discriminate H).
  split; [exact H1|]. split; [exact H2|]. split; [exact H3|].
  split; [exact H4|]. split; [exact H5|].
  exact (unrecognized_group_dilutes Sample.mixed_MM Sample.mixed_ML
           Sample.mixed_groups 1 "N+x?" [1] H1 H2 H3 H4 H5).
Defined.

(** C9 as worded fails in two ways.  In the first example the group of
    kind [N+x?] puts offset 2 in the map, with both channels 0, and no
    recognized group records it; the first window, [1, 3), covers it, with
    and without the group.  Its BrdU frequency falls from 1 to 1/2, but
    its EdU frequency is 0 either way: it is not lowered.  In the second
    example a group of kind [N+y?] records offset 2 as well: without the
    [N+x?] group the offset is still in the map, and the window [1, 3) has
    the same denominator 2 and the same BrdU frequency 1/2 with and
    without the group. *)
Lemma unrecognized_group_keeps_zero_frequency :
  (∃ m m' w w2 w' w2',
    parse_ml_mm Sample.mixed_MM Sample.mixed_ML = Ok m
    ∧ parse_ml_mm (MM_without 1 Sample.mixed_MM)
        (ML_without 1 Sample.mixed_groups Sample.mixed_ML) = Ok m'
    ∧ MM_without 1 Sample.mixed_MM = "N+b?,0,2;"%string
    ∧ ML_without 1 Sample.mixed_groups Sample.mixed_ML = [255; 255]
    ∧ m !! 2 = Some (Entry 0 0 1) ∧ m' !! 2 = None
    ∧ compute_sliding_windows m 2 1 = Ok [w; w2]
    ∧ compute_sliding_windows m' 2 1 = Ok [w'; w2']
    ∧ (window_start w = 1 ∧ window_end w = 3)
    ∧ (window_start w' = 1 ∧ window_end w' = 3)
    ∧ t_count m 2 1 = 2 ∧ t_count m' 2 1 = 1
    ∧ (brdu_freq w == 1 # 2)%Q ∧ (brdu_freq w' == 1)%Q
    ∧ (edu_freq w == 0)%Q ∧ (edu_freq w' == 0)%Q
    ∧ ¬ (edu_freq w < edu_freq w')%Q)
  ∧ (∃ m m' w w2 w' w2',
      tag_groups Sample.twice_MM = Ok Sample.twice_groups
      ∧ parse_ml_mm Sample.twice_MM Sample.twice_ML = Ok m
      ∧ parse_ml_mm (MM_without 1 Sample.twice_MM)
          (ML_without 1 Sample.twice_groups Sample.twice_ML) = Ok m'
      ∧ MM_without 1 Sample.twice_MM = "N+b?,0,2;N+y?,1;"%string
      ∧ ML_without 1 Sample.twice_groups Sample.twice_ML = [255; 255; 9]
      ∧ m !! 2 = Some (Entry 0 0 1) ∧ m' !! 2 = Some (Entry 0 0 1)
      ∧ compute_sliding_windows m 2 1 = Ok [w; w2]
      ∧ compute_sliding_windows m' 2 1 = Ok [w'; w2']
      ∧ (window_start w = 1 ∧ window_end w = 3)
      ∧ (window_start w' = 1 ∧ window_end w' = 3)
      ∧ t_count m 2 1 = 2 ∧ t_count m' 2 1 = 2
      ∧ (brdu_freq w == 1 # 2)%Q ∧ (brdu_freq w' == 1 # 2)%Q
      ∧ (0 < brdu_freq w')%Q
      ∧ ¬ (brdu_freq w < brdu_freq w')%Q).
Proof.
  split.
  - eexists _, _, _, _, _, _.
    do 8 (split; [by_evaluation|]).
    split; [split; reflexivity|].
    split; [split; reflexivity|].
    do 6 (split; [by_evaluation|]).
    vm_compute. intros H. discriminate H.
  - eexists _, _, _, _, _, _.
    do 9 (split; [by_evaluation|]).
    split; [split; reflexivity|].
    split; [split; reflexivity|].
    do 4 (split; [by_evaluation|]).
    split; [by_evaluation|].
    vm_compute. intros H. discriminate H.
Qed.

End unrecognized.

(** ** Columns: the first minimum and maximum, the uniform filter *)

Section columns.
Import Signal.

Lemma Qltb_lt a b : Qltb a b = true ↔ (a < b)%Q.
Proof.
  unfold Qltb. rewrite negb_true_iff, <- not_true_iff_false, Qle_bool_iff.
  split; [apply Qnot_le_lt|apply Qlt_not_le].
Qed.

Section first_best.
Variable better : Q → Q → bool.
Variable lt : Q → Q → Prop.
Hypothesis better_lt : ∀ a b, better a b = true ↔ lt a b.
Hypothesis lt_irrefl : ∀ a, ¬ lt a a.
Hypothesis lt_trans : ∀ a b c, lt a b → lt b c → lt a c.
Hypothesis lt_le_trans : ∀ a b c, lt a b → ¬ lt c b → lt a c.

Lemma first_best_spec rest : ∀ pre bi bv,
  pre !! bi = Some bv →
  (∀ (j : nat) w, pre !! j = Some w → ¬ lt w bv) →
  (∀ (j : nat) w, (j < bi)%nat → pre !! j = Some w → lt bv w) →
  ∃ v, (pre ++ rest) !! first_best better (length pre) (bi, bv) rest = Some v
     ∧ (∀ (j : nat) w, (pre ++ rest) !! j = Some w → ¬ lt w v)
     ∧ (∀ (j : nat) w, (j < first_best better (length pre) (bi, bv) rest)%nat →
          (pre ++ rest) !! j = Some w → lt v w).
Proof.
  induction rest as [|u rest IH]; intros pre bi bv Hbi Hall Hbefore; simpl.
  - rewrite app_nil_r. eauto.
  - replace (pre ++ u :: rest) with ((pre ++ [u]) ++ rest)
      by (by rewrite <- app_assoc).
    replace (S (length pre)) with (length (pre ++ [u]))
      by (rewrite length_app; simpl; lia).
    destruct (better u bv) eqn:Hb.
    + apply better_lt in Hb. apply IH.
      * by rewrite lookup_app_r, Nat.sub_diag by lia.
      * intros j w Hj. apply lookup_app_Some in Hj as [Hj|[_ Hj]].
        -- intros Hw. apply (Hall j w Hj). by apply (lt_trans w u bv).
        -- apply list_lookup_singleton_Some in Hj as [_ <-].
           apply lt_irrefl.
      * intros j w Hj Hw. rewrite lookup_app_l in Hw by done.
        apply (lt_le_trans u bv w Hb). by apply (Hall j).
    + assert (¬ lt u bv) as Hnb by (rewrite <- better_lt; congruence).
      apply IH.
      * apply lookup_lt_Some in Hbi as Hlt. by rewrite lookup_app_l.
      * intros j w Hj. apply lookup_app_Some in Hj as [Hj|[_ Hj]]; [eauto|].
        by apply list_lookup_singleton_Some in Hj as [_ <-].
      * intros j w Hj Hw. apply lookup_lt_Some in Hbi as Hlt.
        rewrite lookup_app_l in Hw by lia. eauto.
Qed.
End first_best.

Lemma idxmin_spec col : col ≠ [] → ∃ i, idxmin col = Ok i ∧ first_min col i.
Proof.
  destruct col as [|v rest]; [done|]. intros _. eexists. split; [reflexivity|].
  destruct (first_best_spec Qltb Qlt Qltb_lt Qlt_irrefl Qlt_trans
              (λ a b c Hab Hcb, Qlt_le_trans a b c Hab (Qnot_lt_le _ _ Hcb))
              rest [v] 0%nat v)
    as (w & Hw & Hall & Hbefore); [done| |intros; lia|].
  { intros [|j] w' Hj; [|done]. injection Hj as <-. apply Qlt_irrefl. }
  exists w. split; [exact Hw|]. split; [|exact Hbefore].
  intros j w' Hj. apply Qnot_lt_le. by apply (Hall j).
Qed.

Lemma idxmax_spec col : col ≠ [] → ∃ i, idxmax col = Ok i ∧ first_max col i.
Proof.
  destruct col as [|v rest]; [done|]. intros _. eexists. split; [reflexivity|].
  destruct (first_best_spec (λ a b, Qltb b a) (λ a b, (b < a)%Q)
              (λ a b, Qltb_lt b a) Qlt_irrefl
              (λ a b c Hab Hbc, Qlt_trans c b a Hbc Hab)
              (λ a b c Hab Hcb, Qle_lt_trans c b a (Qnot_lt_le _ _ Hcb) Hab)
              rest [v] 0%nat v)
    as (w & Hw & Hall & Hbefore); [done| |intros; lia|].
  { intros [|j] w' Hj; [|done]. injection Hj as <-. apply Qlt_irrefl. }
  exists w. split; [exact Hw|]. split; [|exact Hbefore].
  intros j w' Hj. apply Qnot_lt_le. by apply (Hall j).
Qed.

Lemma first_min_lt col i : first_min col i → (i < length col)%nat.
Proof. intros (v & Hv & _). by apply lookup_lt_Some in Hv. Qed.

Lemma first_max_lt col i : first_max col i → (i < length col)%nat.
Proof. intros (v & Hv & _). by apply lookup_lt_Some in Hv. Qed.

Lemma uniform_filter1d_Ok input size :
  1 ≤ size →
  ∃ out, uniform_filter1d input size = Ok out ∧ length out = length input.
Proof.
  intros Hs. unfold uniform_filter1d.
  rewrite (proj2 (Z.ltb_ge size 1)) by done.
  eexists. split; [reflexivity|].
  by rewrite length_fmap, length_seqZ, Nat2Z.id.
Qed.

End columns.

(** ** The track aligner *)

Section aligner.
Import Signal TrackAligner.

Lemma aligned_rows_lookup (df : list TrackRow) starts roll origin (i : nat) :
  length starts = length df → length roll = length df →
  zip_with (λ (rs : TrackRow * Z) (dr : Q),
              MkAlignedRow (set_start rs.2 rs.1) dr (rs.2 - origin))
           (zip df starts) roll !! i
  = match df !! i, starts !! i, roll !! i with
    | Some r, Some s, Some dr =>
        Some (MkAlignedRow (set_start s r) dr (s - origin))
    | _, _, _ => None
    end.
Proof.
  intros Hs Hr. rewrite lookup_zip_with, lookup_zip_with.
  destruct (df !! i) as [r|] eqn:Hdf; simpl; [|done].
  destruct (starts !! i) as [s|] eqn:Hst; simpl; [|done].
  by destruct (roll !! i).
Qed.

Lemma aligned_rows_column {A} (f : AlignedRow → A) (g : TrackRow → Z → Q → A)
    (df : list TrackRow) starts roll origin :
  length starts = length df → length roll = length df →
  (∀ r s dr, f (MkAlignedRow (set_start s r) dr (s - origin)) = g r s dr) →
  ∀ i : nat,
    (f <$> zip_with (λ (rs : TrackRow * Z) (dr : Q),
                       MkAlignedRow (set_start rs.2 rs.1) dr (rs.2 - origin))
                    (zip df starts) roll) !! i
    = match df !! i, starts !! i, roll !! i with
      | Some r, Some s, Some dr => Some (g r s dr)
      | _, _, _ => None
      end.
Proof.
  intros Hs Hr Hf i. rewrite list_lookup_fmap, aligned_rows_lookup by done.
  destruct (df !! i), (starts !! i), (roll !! i); simpl; try done.
  by rewrite Hf.
Qed.

(** C4.  On a non-empty track, whatever smoothed diff [roll] the filter
    has stored for its rows, with its first minimum at row [imin] and its
    first maximum at row [imax]: the start column of the result is the
    start column of the input reversed exactly when the start at [imin]
    is greater than the start at [imax], and is unchanged otherwise;
    every other column keeps its row order; and with [origin] the start
    found at [imin] after that, every row has x = start - origin, so that
    x is 0 at row [imin].  This is the result of [align_diff_by_minimum]
    whenever [roll] is the column that the filter gives. *)
Theorem align_diff_by_minimum_spec (df : list TrackRow) (roll : list Q) :
  df ≠ [] → length roll = length df →
  ∃ imin imax min_start max_start out origin,
    first_min roll imin ∧ first_max roll imax
    ∧ (start <$> df) !! imin = Some min_start
    ∧ (start <$> df) !! imax = Some max_start
    ∧ align_by_diff_roll df roll = Ok out
    ∧ start ∘ track <$> out
      = (if decide (max_start < min_start)
         then reverse (start <$> df) else start <$> df)
    ∧ chromosome ∘ track <$> out = chromosome <$> df
    ∧ end_ ∘ track <$> out = end_ <$> df
    ∧ BrdU ∘ track <$> out = BrdU <$> df
    ∧ EdU ∘ track <$> out = EdU <$> df
    ∧ diff ∘ track <$> out = diff <$> df
    ∧ diff_roll <$> out = roll
    ∧ (start ∘ track <$> out) !! imin = Some origin
    ∧ (∀ r, r ∈ out → x r = start (track r) - origin)
    ∧ (x <$> out) !! imin = Some 0
    ∧ (∀ window_size,
         uniform_filter1d (fillna0 ∘ diff <$> df) window_size = Ok roll →
         align_diff_by_minimum df window_size = Ok out).
Proof.
  intros Hne Hlen.
  assert (Hrne : roll ≠ []).
  { intros ->. destruct df; [done|]. simpl in Hlen. lia. }
  destruct (idxmin_spec roll Hrne) as (imin & Himin & Hmin).
  destruct (idxmax_spec roll Hrne) as (imax & Himax & Hmax).
  pose proof (first_min_lt _ _ Hmin) as Hlmin.
  pose proof (first_max_lt _ _ Hmax) as Hlmax.
  destruct (lookup_lt_is_Some_2 (start <$> df) imin) as [min_start Hms];
    [rewrite length_fmap; lia|].
  destruct (lookup_lt_is_Some_2 (start <$> df) imax) as [max_start Hxs];
    [rewrite length_fmap; lia|].
  set (starts := if decide (max_start < min_start)
                 then reverse (start <$> df) else start <$> df).
  assert (Hls : length starts = length df).
  { unfold starts. case_decide; by rewrite ?length_reverse, length_fmap. }
  destruct (lookup_lt_is_Some_2 starts imin) as [origin Horigin]; [lia|].
  set (out := zip_with (λ (rs : TrackRow * Z) (dr : Q),
                 MkAlignedRow (set_start rs.2 rs.1) dr (rs.2 - origin))
               (zip df starts) roll).
  exists imin, imax, min_start, max_start, out, origin.
  assert (Hcol : ∀ {A} (f : AlignedRow → A) (g : TrackRow → A),
             (∀ r s dr, f (MkAlignedRow (set_start s r) dr (s - origin)) = g r) →
             f <$> out = g <$> df).
  { intros A f g Hfg. apply list_eq. intros i. unfold out.
    rewrite (aligned_rows_column f (λ r _ _, g r)) by done.
    rewrite list_lookup_fmap.
    destruct (df !! i) as [r|] eqn:Hr; simpl; [|done].
    apply lookup_lt_Some in Hr as Hi.
    destruct (lookup_lt_is_Some_2 starts i) as [s ->]; [lia|].
    destruct (lookup_lt_is_Some_2 roll i) as [dr ->]; [lia|]. done. }
  assert (Hstarts : start ∘ track <$> out = starts).
  { apply list_eq. intros i. unfold out.
    rewrite (aligned_rows_column _ (λ _ s _, s)) by done.
    destruct (starts !! i) as [s|] eqn:Hs; simpl.
    - apply lookup_lt_Some in Hs as Hi.
      destruct (lookup_lt_is_Some_2 df i) as [r ->]; [lia|].
      destruct (lookup_lt_is_Some_2 roll i) as [dr ->]; [lia|]. done.
    - by destruct (df !! i). }
  split; [done|]. split; [done|].
  assert (Hrun : align_by_diff_roll df roll = Ok out).
  { unfold align_by_diff_roll.
    rewrite Himin, Himax. simpl. unfold iloc at 1 2. rewrite Hms, Hxs. simpl.
    replace (if max_start <? min_start
             then reverse (start <$> df) else start <$> df) with starts
      by (unfold starts; case_decide; destruct (Z.ltb_spec max_start min_start);
          done || lia).
    unfold iloc. rewrite Horigin. reflexivity. }
  split; [done|]. split; [done|]. split; [exact Hrun|].
  split; [done|].
  split; [by apply Hcol|]. split; [by apply Hcol|]. split; [by apply Hcol|].
  split; [by apply Hcol|]. split; [by apply Hcol|].
  split.
  { apply list_eq. intros i. unfold out.
    rewrite (aligned_rows_column _ (λ _ _ dr, dr)) by done.
    destruct (roll !! i) as [dr|] eqn:Hr; simpl.
    - apply lookup_lt_Some in Hr as Hi.
      destruct (lookup_lt_is_Some_2 df i) as [r ->]; [lia|].
      destruct (lookup_lt_is_Some_2 starts i) as [s ->]; [lia|]. done.
    - by destruct (df !! i), (starts !! i). }
  split; [by rewrite Hstarts|]. split.
  { intros r Hr. apply list_elem_of_lookup in Hr as [i Hi].
    unfold out in Hi. rewrite aligned_rows_lookup in Hi by done.
    destruct (df !! i), (starts !! i), (roll !! i); try done.
    by injection Hi as <-. }
  split.
  { unfold out. rewrite (aligned_rows_column _ (λ _ s _, s - origin)) by done.
    rewrite Horigin.
    destruct (lookup_lt_is_Some_2 df imin) as [r ->]; [lia|].
    destruct (lookup_lt_is_Some_2 roll imin) as [dr ->]; [lia|].
    f_equal. lia. }
  intros window_size Hroll. unfold align_diff_by_minimum.
  rewrite Hroll. exact Hrun.
Qed.

Lemma align_diff_by_minimum_spec_witness :
  Sample.paired_track ≠ []
  ∧ length Sample.paired_roll = length Sample.paired_track
  ∧ ∃ imin imax min_start max_start out origin,
    first_min Sample.paired_roll imin ∧ first_max Sample.paired_roll imax
    ∧ (start <$> Sample.paired_track) !! imin = Some min_start
    ∧ (start <$> Sample.paired_track) !! imax = Some max_start
    ∧ align_by_diff_roll Sample.paired_track Sample.paired_roll = Ok out
    ∧ start ∘ track <$> out
      = (if decide (max_start < min_start)
         then reverse (start <$> Sample.paired_track)
         else start <$> Sample.paired_track)
    ∧ chromosome ∘ track <$> out = chromosome <$> Sample.paired_track
    ∧ end_ ∘ track <$> out = end_ <$> Sample.paired_track
    ∧ BrdU ∘ track <$> out = BrdU <$> Sample.paired_track
    ∧ EdU ∘ track <$> out = EdU <$> Sample.paired_track
    ∧ diff ∘ track <$> out = diff <$> Sample.paired_track
    ∧ diff_roll <$> out = Sample.paired_roll
    ∧ (start ∘ track <$> out) !! imin = Some origin
    ∧ (∀ r, r ∈ out → x r = start (track r) - origin)
    ∧ (x <$> out) !! imin = Some 0
    ∧ (∀ window_size,
         uniform_filter1d (fillna0 ∘ diff <$> Sample.paired_track)
           window_size = Ok Sample.paired_roll →
         align_diff_by_minimum Sample.paired_track window_size = Ok out).
Proof.
  assert (Hne : Sample.paired_track ≠ []) by (vm_compute; discriminate).
  assert (Hlen : length Sample.paired_roll = length Sample.paired_track)
    by reflexivity.
  split; [exact Hne|]. split; [exact Hlen|].
  apply (align_diff_by_minimum_spec Sample.paired_track Sample.paired_roll);
    [exact Hne|exact Hlen].
Defined.

(** The example track with the smoothed column 2/3, 0, -1/6, 0 (the
    means of a filter of 3 rows): the least value is in the third row
    (start 30), the greatest in the first (start 10), so the start column
    is reversed, and only it; the start at the third row is then 20. *)
Example align_diff_by_minimum_reverses :
  Forall2 Qeq Sample.paired_roll [2 # 3; 0; - (1 # 6); 0]%Q
  ∧ ∃ out, align_by_diff_roll Sample.paired_track Sample.paired_roll = Ok out
    ∧ align_diff_by_minimum Sample.paired_track 3 = Ok out
    ∧ start ∘ track <$> out = [40; 30; 20; 10]
    ∧ end_ ∘ track <$> out = [20; 30; 40; 50]
    ∧ x <$> out = [20; 10; 0; -10].
Proof.
  split; [by repeat constructor|].
  eexists. split; [by_evaluation|]. split; [by_evaluation|]. repeat split.
Qed.

(** A track without rows has no minimum, and a filter of size 0 is
    refused. *)
Example align_diff_by_minimum_raises :
  align_diff_by_minimum [] 500 = Raise ValueError
  ∧ align_by_diff_roll [] [] = Raise ValueError
  ∧ align_diff_by_minimum Sample.paired_track 0 = Raise RuntimeError.
Proof. repeat split; reflexivity. Qed.

End aligner.

(** ** The boundary detectors *)

Section boundaries.
Import Signal TrackAligner BoundaryDetector.

(** *** Selections *)

Lemma elem_of_where_ {A} (test : A → bool) (col : list A) (i : nat) :
  i ∈ where_ test col ↔ ∃ v, col !! i = Some v ∧ test v = true.
Proof.
  unfold where_. rewrite list_elem_of_bind. split.
  - intros ([j v] & Hi & Hjv). simpl in Hi.
    apply list_elem_of_lookup in Hjv as [k Hk].
    rewrite list_lookup_imap in Hk.
    destruct (col !! k) as [u|] eqn:Hu; simpl in Hk; [|done].
    injection Hk as <- <-.
    destruct (test u) eqn:Ht; [|by apply elem_of_nil in Hi].
    apply list_elem_of_singleton in Hi as ->. eauto.
  - intros (v & Hv & Ht). exists (i, v). simpl. rewrite Ht.
    split; [apply list_elem_of_singleton; done|].
    apply list_elem_of_lookup. exists i.
    by rewrite list_lookup_imap, Hv.
Qed.

Lemma x_at_first_Some {A} (x : A → Z) frame idx e :
  x_at_first x frame idx = Ok (Some e) →
  ∃ (i : nat) r, i ∈ idx ∧ frame !! i = Some r ∧ x r = e.
Proof.
  destruct idx as [|i idx]; simpl; [done|].
  unfold iloc. destruct (frame !! i) as [r|] eqn:Hr; simpl; [|done].
  intros [= <-]. exists i, r. split; [left|done].
Qed.

Lemma x_of_first_Some {A} (x : A → Z) frame e :
  x_of_first x frame = Some e ↔ ∃ r rest, frame = r :: rest ∧ x r = e.
Proof.
  destruct frame as [|r rest]; simpl.
  - split; [done|]. by intros (? & ? & ? & _).
  - split; [intros [= <-]; eauto|]. by intros (? & ? & [= <- <-] & <-).
Qed.

Lemma elem_of_filter_bool {A} (f : A → bool) l r :
  r ∈ List.filter f l ↔ r ∈ l ∧ f r = true.
Proof. rewrite !list_elem_of_In. apply filter_In. Qed.

Lemma filter_filter_bool {A} (f g : A → bool) l :
  List.filter f (List.filter g l) = List.filter (λ r, g r && f r) l.
Proof.
  induction l as [|a l IH]; simpl; [done|].
  destruct (g a); simpl; [|done]. destruct (f a); by rewrite IH.
Qed.

(** The head of a selection is the first row that passes the test. *)
Lemma filter_head {A} (f : A → bool) l r :
  (∃ rest, List.filter f l = r :: rest)
  ↔ ∃ pre post, l = pre ++ r :: post ∧ f r = true
                ∧ ∀ y, y ∈ pre → f y = false.
Proof.
  induction l as [|a l IH]; simpl.
  - split; [by intros [? ?]|]. intros (pre & post & H & _).
    by destruct pre.
  - destruct (f a) eqn:Ha.
    + split.
      * intros [rest [= <- _]]. exists [], l. split; [done|]. split; [done|].
        intros y Hy. by apply elem_of_nil in Hy.
      * intros (pre & post & Hl & Hr & Hpre). destruct pre as [|b pre].
        -- injection Hl as -> ->. eauto.
        -- injection Hl as -> ->. rewrite Hpre in Ha by left. done.
    + rewrite IH. split.
      * intros (pre & post & -> & Hr & Hpre). exists (a :: pre), post.
        split; [done|]. split; [done|]. intros y Hy.
        apply elem_of_cons in Hy as [->|Hy]; auto.
      * intros (pre & post & Hl & Hr & Hpre). destruct pre as [|b pre].
        -- injection Hl as -> ->. congruence.
        -- injection Hl as -> ->. exists pre, post. split; [done|].
           split; [done|]. intros y Hy. apply Hpre. by right.
Qed.

Lemma filter_nil {A} (f : A → bool) l :
  List.filter f l = [] ↔ ∀ y, y ∈ l → f y = false.
Proof.
  induction l as [|a l IH]; simpl.
  - split; [|done]. intros _ y Hy. by apply elem_of_nil in Hy.
  - destruct (f a) eqn:Ha.
    + split; [done|]. intros H. rewrite H in Ha by left. done.
    + rewrite IH. split.
      * intros H y Hy. apply elem_of_cons in Hy as [->|Hy]; auto.
      * intros H y Hy. apply H. by right.
Qed.

(** *** The aggregate variant *)

Lemma aggregate_brdu_end_Some b df d :
  aggregate_brdu_end b df = Ok (Some d) →
  ∃ r, r ∈ df ∧ sx r = d ∧ b + 100 < d.
Proof.
  unfold aggregate_brdu_end.
  destruct (uniform_filter1d _ 101) as [roll|]; simpl; [|done].
  intros H. apply x_at_first_Some in H as (i & r & _ & Hr & <-).
  apply list_elem_of_lookup_2, elem_of_filter_bool in Hr as [Hr Hx].
  exists r. split; [done|]. split; [done|]. lia.
Qed.

Lemma detect_signal_boundaries_ordered df e b d :
  detect_signal_boundaries df = Ok (MkBoundaries (Some e) (Some b) (Some d)) →
  (∃ re rb rd, re ∈ df ∧ rb ∈ df ∧ rd ∈ df
               ∧ sx re = e ∧ sx rb = b ∧ sx rd = d)
  ∧ e ≤ b ∧ b + 100 < d.
Proof.
  unfold detect_signal_boundaries.
  destruct (uniform_filter1d _ 101) as [roll|]; simpl; [|done].
  destruct (x_at_first sx df _) as [[es|]|] eqn:Hes; simpl; try done.
  destruct (x_of_first sx _) as [bs|] eqn:Hbs; simpl; [|congruence].
  destruct (aggregate_brdu_end bs df) as [[ds|]|] eqn:Hds; simpl; try done.
  intros [= -> -> ->].
  apply x_at_first_Some in Hes as (i & re & _ & Hre & He).
  apply x_of_first_Some in Hbs as (rb & rest & Hrb & Hb).
  assert (rb ∈ List.filter (λ r, positive (median_diff r))
                 (List.filter (λ r, e <=? sx r) df)) as Hin
    by (rewrite Hrb; left).
  apply elem_of_filter_bool in Hin as [Hin _].
  apply elem_of_filter_bool in Hin as [Hin Hle].
  apply aggregate_brdu_end_Some in Hds as (rd & Hrd & Hd & Hlt).
  split; [|lia].
  exists re, rb, rd. apply list_elem_of_lookup_2 in Hre. done.
Qed.

(** *** The single-track variant *)

Lemma x_at_first_where {A B} (x : A → Z) (frame : list A) (col : list B)
    (test : A * B → bool) :
  ∃ o, x_at_first x frame (where_ test (zip frame col)) = Ok o
     ∧ ∀ e, o = Some e → ∃ r v, r ∈ frame ∧ x r = e ∧ test (r, v) = true.
Proof.
  destruct (where_ test (zip frame col)) as [|i idx] eqn:Hidx; simpl.
  - exists None. split; [done|]. congruence.
  - assert (i ∈ where_ test (zip frame col)) as Hi by (rewrite Hidx; left).
    apply elem_of_where_ in Hi as ([r v] & Hrv & Ht).
    apply lookup_zip_Some in Hrv as [Hr Hv]. simpl in *.
    unfold iloc. rewrite Hr. simpl. exists (Some (x r)). split; [done|].
    intros e [= <-]. exists r, v. split; [|done].
    by apply list_elem_of_lookup_2 in Hr.
Qed.

Lemma peak_window_elem b F r :
  r ∈ peak_window b F ↔ r ∈ F ∧ b < fx r ≤ b + 15000.
Proof.
  unfold peak_window. rewrite elem_of_filter_bool, andb_true_iff.
  rewrite Z.ltb_lt, Z.leb_le. tauto.
Qed.

(** The block that finds [brdu_end], in terms of the peak row. *)
Lemma single_brdu_end_peak b sdf :
  let F := smooth_columns sdf in
  let W := peak_window b F in
  (W = [] → single_brdu_end b sdf = Ok None)
  ∧ (W ≠ [] →
     ∃ (ipeak : nat) peak,
       first_max (BrdU_smooth <$> W) ipeak ∧ W !! ipeak = Some peak
       ∧ single_brdu_end b sdf
         = Ok (x_of_first fx
                 (List.filter (λ r, (fx peak <? fx r) && dropped r) F))).
Proof.
  intros F W. unfold single_brdu_end. fold F. fold W. clearbody W. split.
  - by intros ->.
  - intros HW.
    assert (BrdU_smooth <$> W ≠ []) as Hne by (by destruct W).
    destruct (idxmax_spec _ Hne) as (ipeak & Hidx & Hmax).
    pose proof (first_max_lt _ _ Hmax) as Hlt. rewrite length_fmap in Hlt.
    destruct (lookup_lt_is_Some_2 W ipeak Hlt) as [peak Hpeak].
    exists ipeak, peak. split; [done|]. split; [done|].
    destruct W as [|w0 W']; [done|].
    rewrite Hidx. simpl. unfold iloc. rewrite Hpeak. simpl.
    by rewrite filter_filter_bool.
Qed.

Lemma single_brdu_end_total b sdf : ∃ o, single_brdu_end b sdf = Ok o.
Proof.
  destruct (single_brdu_end_peak b sdf) as [Hnil Hcons].
  destruct (peak_window b (smooth_columns sdf)) as [|w W] eqn:HW.
  - eexists. by apply Hnil.
  - destruct Hcons as (? & ? & _ & _ & ->); [done|]. eauto.
Qed.

(** [edu_boundaries_detect] returns, and its three boundaries are found
    one after the other. *)
Lemma edu_boundaries_detect_steps df :
  ∃ out, edu_boundaries_detect df = Ok out
    ∧ (∀ e, edu_start out = Some e → -10000 < e < 0)
    ∧ match edu_start out with
      | None => brdu_start out = None
      | Some e =>
          brdu_start out
          = x_of_first x
              (List.filter (λ r, positive (diff (track r)))
                 (List.filter (λ r, (e <=? x r) && (0 <? x r))
                    (sort_values_x df)))
      end
    ∧ match brdu_start out with
      | None => brdu_end out = None
      | Some b => single_brdu_end b (sort_values_x df) = Ok (brdu_end out)
      end.
Proof.
  unfold edu_boundaries_detect.
  destruct (uniform_filter1d_Ok (fillna0 ∘ diff ∘ track <$> sort_values_x df) 101)
    as (sm & -> & _); [lia|]. simpl.
  match goal with
  | |- context [x_at_first x ?f (where_ ?t (zip ?f ?c))] =>
      destruct (x_at_first_where x f c t) as (oe & -> & Hoe)
  end. simpl.
  match goal with
  | |- context [Py.bind ?c _] => destruct c as [od|err] eqn:Hod
  end; simpl.
  - eexists. split; [reflexivity|]. simpl. split; [|split].
    + intros e ->. destruct (Hoe e eq_refl) as (r & v & _ & <- & Ht).
      simpl in Ht. rewrite !andb_true_iff, !Z.ltb_lt in Ht. lia.
    + by destruct oe.
    + destruct oe as [e|]; [|by injection Hod as <-].
      destruct (x_of_first x _) as [b|]; [done|by injection Hod as <-].
  - exfalso. destruct oe as [e|]; [|done].
    destruct (x_of_first x _) as [b|]; [|done].
    destruct (single_brdu_end_total b (sort_values_x df)) as [o Ho]. congruence.
Qed.

Lemma rolling_mean_lookup col window (i : nat) :
  (i < length col)%nat →
  rolling_mean col window !! i = Some (rolling_mean_at col window (Z.of_nat i)).
Proof.
  intros Hi. unfold rolling_mean. rewrite list_lookup_fmap.
  rewrite lookup_seqZ_lt by lia. simpl. f_equal.
Qed.

Lemma length_rolling_mean col window : length (rolling_mean col window) = length col.
Proof. unfold rolling_mean. by rewrite length_fmap, length_seqZ, Nat2Z.id. Qed.

(** The window of the rolling mean of 201 rows: the rows at most 100
    positions away. *)
Lemma rolling_mean_at_201 col i :
  rolling_mean_at col 201 i
  = let lo := Z.max 0 (i - 100) in
    let hi := Z.min (Z.of_nat (length col) - 1) (i + 100) in
    let vals := (λ j, default 0%Q (col !! Z.to_nat j)) <$> seqZ lo (hi - lo + 1) in
    (Qsum vals / inject_Z (Z.of_nat (length vals)))%Q.
Proof. reflexivity. Qed.

(** The rows of [df_filtered]: the rows with diff and BrdU, in order,
    each with the two rolling means and their quotient. *)
Lemma smooth_columns_rows sdf :
  let kept := List.filter defined sdf in
  let F := smooth_columns sdf in
  length F = length kept
  ∧ ∀ (i : nat) r, F !! i = Some r →
      kept !! i = Some (aligned r)
      ∧ BrdU_smooth r
        = rolling_mean_at (fillna0 ∘ BrdU ∘ track <$> kept) 201 (Z.of_nat i)
      ∧ diff_smooth r
        = rolling_mean_at (fillna0 ∘ diff ∘ track <$> kept) 201 (Z.of_nat i)
      ∧ diff_div_brdu_smooth r = fdiv (diff_smooth r) (BrdU_smooth r).
Proof.
  intros kept F. unfold F, smooth_columns. fold kept. split.
  - rewrite length_zip_with, length_zip, !length_rolling_mean, !length_fmap. lia.
  - intros i r Hr. apply lookup_zip_with_Some in Hr as ([a bs] & ds & -> & Habs & Hds).
    apply lookup_zip_Some in Habs as [Ha Hbs]. simpl in *.
    apply lookup_lt_Some in Ha as Hi.
    rewrite rolling_mean_lookup in Hbs, Hds by (by rewrite length_fmap).
    injection Hbs as <-. injection Hds as <-. done.
Qed.

Lemma qualifies_iff (peak r : SmoothedRow) :
  (fx peak <? fx r) && dropped r = true
  ↔ fx peak < fx r ∧ (diff_smooth r <= 3 # 4)%Q
    ∧ quotient_le (diff_div_brdu_smooth r) (13 # 20) = true.
Proof.
  unfold dropped. rewrite !andb_true_iff, Z.ltb_lt, Qle_bool_iff. tauto.
Qed.

Lemma filter_bool_sublist {A} (f : A → bool) (l : list A) :
  List.filter f l `sublist_of` l.
Proof.
  induction l as [|a l IH]; simpl; [done|].
  destruct (f a); [by apply sublist_skip|by apply sublist_cons].
Qed.

(** The rolling mean of 201 rows at a row of the column: the mean of
    the values from 100 rows before it to 100 rows after it, as far as
    the column goes. *)
Lemma rolling_mean_at_window col (i : nat) :
  (i < length col)%nat →
  rolling_mean_at col 201 (Z.of_nat i)
  = let w := take (i + 101 - (i - 100)) (drop (i - 100) col) in
    (foldr Qplus 0 w / inject_Z (Z.of_nat (length w)))%Q.
Proof.
  intros Hi. rewrite rolling_mean_at_201. cbv zeta.
  set (lo := Z.max 0 (Z.of_nat i - 100)).
  set (hi := Z.min (Z.of_nat (length col) - 1) (Z.of_nat i + 100)).
  assert ((λ j, default 0%Q (col !! Z.to_nat j)) <$> seqZ lo (hi - lo + 1)
          = take (i + 101 - (i - 100)) (drop (i - 100) col)) as ->; [|done].
  apply list_eq. intros k. rewrite list_lookup_fmap.
  destruct (decide (Z.of_nat k < hi - lo + 1)) as [Hk|Hk].
  - rewrite lookup_seqZ_lt by done. simpl.
    rewrite lookup_take_lt by (unfold lo, hi in Hk; lia).
    rewrite lookup_drop.
    replace (Z.to_nat (lo + Z.of_nat k)) with (i - 100 + k)%nat
      by (unfold lo; lia).
    destruct (lookup_lt_is_Some_2 col (i - 100 + k)) as [v ->]; [|done].
    unfold lo, hi in Hk. lia.
  - rewrite lookup_seqZ_ge by lia. simpl. symmetry.
    destruct (decide (k < i + 101 - (i - 100))%nat) as [Hk'|Hk'].
    + rewrite lookup_take_lt by done. rewrite lookup_drop.
      apply lookup_ge_None_2. unfold lo, hi in Hk. lia.
    + apply lookup_ge_None_2. rewrite length_take. lia.
Qed.

Lemma defined_columns (rows : list AlignedRow) :
  Forall (λ r, defined r = true) rows →
  BrdU ∘ track <$> rows = Some <$> (fillna0 ∘ BrdU ∘ track <$> rows)
  ∧ diff ∘ track <$> rows = Some <$> (fillna0 ∘ diff ∘ track <$> rows).
Proof.
  induction 1 as [|r rows Hr _ [IH1 IH2]]; [done|].
  rewrite !fmap_cons, <- IH1, <- IH2. unfold defined in Hr. simpl.
  destruct (diff (track r)), (BrdU (track r)); done.
Qed.

Lemma defined_iff r :
  defined r = true ↔ is_Some (diff (track r)) ∧ is_Some (BrdU (track r)).
Proof.
  unfold defined. destruct (diff (track r)), (BrdU (track r)); split;
    try done; intros [[? ?] [? ?]]; done.
Qed.

(** The float quotient, case by case. *)
Lemma fdiv_cases (a b : Q) :
  (¬ (b == 0)%Q → fdiv a b = Finite (a / b))
  ∧ ((b == 0)%Q →
     ((0 < a)%Q → fdiv a b = PlusInf)
     ∧ ((a < 0)%Q → fdiv a b = MinusInf)
     ∧ ((a == 0)%Q → fdiv a b = NaN)).
Proof.
  unfold fdiv. split.
  - intros Hb. destruct (Qeq_bool b 0) eqn:Hb0; [|done].
    by apply Qeq_bool_iff in Hb0.
  - intros Hb. apply Qeq_bool_iff in Hb as ->.
    destruct (Qeq_bool a 0) eqn:Ha0.
    + apply Qeq_bool_iff in Ha0. split; [|split; [|done]]; intros H;
        rewrite Ha0 in H; by apply Qlt_irrefl in H.
    + assert (¬ (a == 0)%Q) as Hne
        by (intros H; apply Qeq_bool_iff in H; congruence).
      destruct (Qltb 0 a) eqn:Hlt.
      * apply Qltb_lt in Hlt. split; [done|]. split; [|done].
        intros H. exfalso. apply (Qlt_irrefl 0). by apply (Qlt_trans _ a).
      * split; [|split; [done|done]]. intros H. apply Qltb_lt in H. congruence.
Qed.

Lemma quotient_le_cases v c :
  quotient_le v c = true
  ↔ match v with
    | Finite q => (q <= c)%Q
    | MinusInf => True
    | PlusInf | NaN => False
    end.
Proof. destruct v; simpl; [apply Qle_bool_iff|done..]. Qed.

Lemma sort_values_x_sorted df :
  sort_values_x df ≡ₚ df
  ∧ StronglySorted (λ a b, x a ≤ x b) (sort_values_x df).
Proof.
  split; [apply merge_sort_Permutation|].
  assert (Transitive x_le) by (intros a b c; unfold x_le; lia).
  assert (Total x_le) by (intros a b; unfold x_le; lia).
  apply (StronglySorted_merge_sort x_le).
Qed.

(** C5, with the first row taken after the peak as the code takes it.
    In the single-track detector the frame is the rows sorted by x, and
    [F] holds, in that order, the rows that have both diff and BrdU, each
    with the mean of BrdU and the mean of diff over the rows of [F] at
    most 100 places away (centered window of 201, any number of rows
    counting) and the float quotient of the two means.  Without a
    brdu_start, brdu_end is NaN; with brdu_start = b, and [W] the rows
    of [F] with b < x <= b + 15000, brdu_end is NaN when [W] is empty,
    and otherwise, [peak] being the first row of [W] of greatest
    BrdU_smooth, brdu_end is the x of the first row of [F] with
    x > x(peak), diff_smooth <= 0.75 and quotient <= 0.65, and NaN exactly
    when [F] has no such row. *)
Theorem edu_boundaries_detect_brdu_end (df : list AlignedRow) :
  let sorted := sort_values_x df in
  let kept := List.filter defined sorted in
  let F := smooth_columns sorted in
  ∃ out,
    edu_boundaries_detect df = Ok out
    ∧ sorted ≡ₚ df ∧ StronglySorted (λ a b, x a ≤ x b) sorted
    ∧ kept `sublist_of` sorted
    ∧ (∀ r, r ∈ kept
            ↔ r ∈ df ∧ is_Some (diff (track r)) ∧ is_Some (BrdU (track r)))
    ∧ length F = length kept
    ∧ (∀ (i : nat) r, F !! i = Some r →
         kept !! i = Some (aligned r)
         ∧ (let rows := take (i + 101 - (i - 100)) (drop (i - 100) kept) in
            ∃ bs ds : list Q,
              BrdU ∘ track <$> rows = Some <$> bs
              ∧ diff ∘ track <$> rows = Some <$> ds
              ∧ BrdU_smooth r
                = (foldr Qplus 0 bs / inject_Z (Z.of_nat (length bs)))%Q
              ∧ diff_smooth r
                = (foldr Qplus 0 ds / inject_Z (Z.of_nat (length ds)))%Q)
         ∧ (¬ (BrdU_smooth r == 0)%Q →
            diff_div_brdu_smooth r = Finite (diff_smooth r / BrdU_smooth r))
         ∧ ((BrdU_smooth r == 0)%Q →
            ((0 < diff_smooth r)%Q → diff_div_brdu_smooth r = PlusInf)
            ∧ ((diff_smooth r < 0)%Q → diff_div_brdu_smooth r = MinusInf)
            ∧ ((diff_smooth r == 0)%Q → diff_div_brdu_smooth r = NaN)))
    ∧ match brdu_start out with
      | None => brdu_end out = None
      | Some b =>
          let W := peak_window b F in
          W `sublist_of` F
          ∧ (∀ r, r ∈ W ↔ r ∈ F ∧ b < fx r ≤ b + 15000)
          ∧ (W = [] → brdu_end out = None)
          ∧ (W ≠ [] →
             ∃ (ipeak : nat) peak,
               first_max (BrdU_smooth <$> W) ipeak ∧ W !! ipeak = Some peak
               ∧ let qualifies r :=
                   fx peak < fx r ∧ (diff_smooth r <= 3 # 4)%Q
                   ∧ match diff_div_brdu_smooth r with
                     | Finite q => (q <= 13 # 20)%Q
                     | MinusInf => True
                     | PlusInf | NaN => False
                     end in
                 (∀ e, brdu_end out = Some e
                       ↔ ∃ pre r post,
                           F = pre ++ r :: post ∧ fx r = e ∧ qualifies r
                           ∧ ∀ y, y ∈ pre → ¬ qualifies y)
                 ∧ (brdu_end out = None ↔ ∀ y, y ∈ F → ¬ qualifies y))
      end.
Proof.
  intros sorted kept F.
  destruct (edu_boundaries_detect_steps df) as (out & Hout & _ & _ & Hend).
  destruct (smooth_columns_rows sorted) as [Hlen Hrows].
  destruct (sort_values_x_sorted df) as [Hperm Hsorted].
  fold sorted in Hend, Hperm, Hsorted.
  assert (Hq : ∀ peak r,
            (fx peak <? fx r) && dropped r = true
            ↔ fx peak < fx r ∧ (diff_smooth r <= 3 # 4)%Q
              ∧ match diff_div_brdu_smooth r with
                | Finite q => (q <= 13 # 20)%Q
                | MinusInf => True
                | PlusInf | NaN => False
                end).
  { intros peak r. rewrite qualifies_iff, quotient_le_cases. done. }
  exists out. split; [done|]. split; [done|]. split; [done|].
  split; [apply filter_bool_sublist|].
  split.
  { intros r. unfold kept. rewrite elem_of_filter_bool, defined_iff.
    rewrite Hperm. tauto. }
  split; [done|]. split.
  { intros i r Hr. destruct (Hrows i r Hr) as (Hk & Hb & Hd & Hratio).
    fold kept in Hk, Hb, Hd.
    pose proof (lookup_lt_Some _ _ _ Hk) as Hi.
    split; [done|]. split.
    - set (rows := take (i + 101 - (i - 100)) (drop (i - 100) kept)).
      assert (Forall (λ r, defined r = true) rows) as Hdef.
      { apply Forall_forall. intros y Hy. unfold rows in Hy.
        assert (y ∈ kept) as Hy'.
        { eapply elem_of_sublist; [exact Hy|].
          etrans; [apply sublist_take|apply sublist_drop]. }
        unfold kept in Hy'. apply elem_of_filter_bool in Hy'. tauto. }
      destruct (defined_columns rows Hdef) as [Hbs Hds].
      exists (fillna0 ∘ BrdU ∘ track <$> rows),
             (fillna0 ∘ diff ∘ track <$> rows).
      split; [done|]. split; [done|].
      rewrite Hb, Hd.
      rewrite !rolling_mean_at_window by (by rewrite length_fmap).
      cbv zeta. unfold rows. rewrite !fmap_take, !fmap_drop. done.
    - rewrite Hratio. apply fdiv_cases. }
  destruct (brdu_start out) as [b|]; [|done].
  destruct (single_brdu_end_peak b sorted) as [Hnil Hcons].
  fold F in Hnil, Hcons.
  split; [apply filter_bool_sublist|].
  split; [apply peak_window_elem|]. split.
  - intros HW. rewrite Hnil in Hend by done. by injection Hend as <-.
  - intros HW. destruct (Hcons HW) as (ipeak & peak & Hmax & Hpeak & Hres).
    exists ipeak, peak. split; [done|]. split; [done|].
    rewrite Hres in Hend. injection Hend as <-.
    set (test := λ r, (fx peak <? fx r) && dropped r).
    split.
    + intros e. rewrite x_of_first_Some. split.
      * intros (r & rest & Hf & <-).
        destruct (proj1 (filter_head test F r)) as (pre & post & HF & Hr & Hpre);
          [eauto|].
        exists pre, r, post. split; [done|]. split; [done|].
        split; [by apply Hq|].
        intros y Hy Hqy. apply Hq in Hqy.
        specialize (Hpre y Hy). unfold test in Hpre. congruence.
      * intros (pre & r & post & HF & <- & Hqr & Hpre).
        destruct (proj2 (filter_head test F r)) as [rest Hrest]; [|eauto].
        exists pre, post. split; [done|]. split; [by apply Hq|].
        intros y Hy. apply not_true_is_false. intros Hq'.
        apply (Hpre y Hy). by apply Hq.
    + split.
      * intros Hnone y Hy Hqy. apply Hq in Hqy.
        destruct (List.filter test F) as [|r rest] eqn:Hf; [|done].
        pose proof (proj1 (filter_nil test F) Hf y Hy) as Hfalse.
        unfold test in Hfalse. congruence.
      * intros Hall.
        destruct (List.filter test F) as [|r rest] eqn:Hf; [done|].
        exfalso.
        assert (r ∈ List.filter test F) as Hin by (rewrite Hf; left).
        apply elem_of_filter_bool in Hin as [Hin Ht].
        apply (Hall r Hin). by apply Hq.
Qed.

(** C10.  Whenever the three boundaries are all found, the aggregate
    detector has edu_start <= brdu_start and brdu_start + 100 < brdu_end,
    the three being x of rows of its input; and the single-track detector
    has -10000 < edu_start < 0 < brdu_start, and a row [peak] with
    brdu_start < x(peak) <= brdu_start + 15000 and x(peak) < brdu_end.
    In both, edu_start <= brdu_start < brdu_end. *)
Theorem boundaries_ordered :
  (∀ df e b d,
     detect_signal_boundaries df = Ok (MkBoundaries (Some e) (Some b) (Some d)) →
     (∃ re rb rd, re ∈ df ∧ rb ∈ df ∧ rd ∈ df
                  ∧ sx re = e ∧ sx rb = b ∧ sx rd = d)
     ∧ e ≤ b ∧ b + 100 < d
     ∧ (e ≤ b ∧ b < d))
  ∧ (∀ df e b d,
       edu_boundaries_detect df = Ok (MkBoundaries (Some e) (Some b) (Some d)) →
       -10000 < e < 0 ∧ 0 < b
       ∧ (∃ peak, peak ∈ smooth_columns (sort_values_x df)
                  ∧ b < fx peak ≤ b + 15000 ∧ fx peak < d)
       ∧ (e ≤ b ∧ b < d)).
Proof.
  split.
  - intros df e b d H.
    destruct (detect_signal_boundaries_ordered df e b d H) as (Hrows & Heb & Hbd).
    split; [done|]. lia.
  - intros df e b d H.
    destruct (edu_boundaries_detect_steps df) as (out & Hout & He & Hb & Hd).
    rewrite H in Hout. injection Hout as <-. simpl in *.
    specialize (He e eq_refl).
    symmetry in Hb. apply x_of_first_Some in Hb as (rb & rest & Hrb & Hxb).
    assert (rb ∈ List.filter (λ r, positive (diff (track r)))
                   (List.filter (λ r, (e <=? x r) && (0 <? x r))
                      (sort_values_x df))) as Hin by (rewrite Hrb; left).
    apply elem_of_filter_bool in Hin as [Hin _].
    apply elem_of_filter_bool in Hin as [_ Hin].
    rewrite andb_true_iff, Z.leb_le, Z.ltb_lt in Hin.
    destruct (single_brdu_end_peak b (sort_values_x df)) as [Hnil Hcons].
    destruct (peak_window b (smooth_columns (sort_values_x df)))
      as [|w W] eqn:HW.
    { rewrite Hnil in Hd by done. done. }
    destruct Hcons as (ipeak & peak & _ & Hpeak & Hres); [done|].
    rewrite Hres in Hd. injection Hd as Hd.
    apply x_of_first_Some in Hd as (rd & rest' & Hrd & Hxd).
    assert (rd ∈ List.filter (λ r, (fx peak <? fx r) && dropped r)
                   (smooth_columns (sort_values_x df))) as Hind
      by (rewrite Hrd; left).
    apply elem_of_filter_bool in Hind as [_ Hind].
    apply qualifies_iff in Hind as [Hlt _].
    apply list_elem_of_lookup_2 in Hpeak. rewrite <- HW in Hpeak.
    apply peak_window_elem in Hpeak as [HpF Hprange].
    split; [lia|]. split; [lia|]. split; [|lia].
    exists peak. split; [done|]. split; [lia|]. lia.
Qed.

Lemma boundaries_ordered_witness :
  (detect_signal_boundaries Sample.summary
   = Ok (MkBoundaries (Some (-30)) (Some 0) (Some 200))
   ∧ (∃ re rb rd, re ∈ Sample.summary ∧ rb ∈ Sample.summary
                  ∧ rd ∈ Sample.summary
                  ∧ sx re = -30 ∧ sx rb = 0 ∧ sx rd = 200)
   ∧ -30 ≤ 0 ∧ 0 + 100 < 200 ∧ (-30 ≤ 0 ∧ 0 < 200))
  ∧ (edu_boundaries_detect Sample.aligned_track
     = Ok (MkBoundaries (Some (-30)) (Some 10) (Some 30))
     ∧ -10000 < -30 < 0 ∧ 0 < 10
     ∧ (∃ peak, peak ∈ smooth_columns (sort_values_x Sample.aligned_track)
                ∧ 10 < fx peak ≤ 10 + 15000 ∧ fx peak < 30)
     ∧ (-30 ≤ 10 ∧ 10 < 30)).
Proof.
  assert (H1 : detect_signal_boundaries Sample.summary
               = Ok (MkBoundaries (Some (-30)) (Some 0) (Some 200)))
    by by_evaluation.
  assert (H2 : edu_boundaries_detect Sample.aligned_track
               = Ok (MkBoundaries (Some (-30)) (Some 10) (Some 30)))
    by by_evaluation.
  split.
  - split; [exact H1|].
    exact (proj1 boundaries_ordered Sample.summary (-30) 0 200 H1).
  - split; [exact H2|].
    exact (proj2 boundaries_ordered Sample.aligned_track (-30) 10 30 H2).
Defined.

Lemma edu_boundaries_detect_brdu_end_witness :
  let sorted := sort_values_x Sample.aligned_track in
  let kept := List.filter defined sorted in
  let F := smooth_columns sorted in
  ∃ out,
    edu_boundaries_detect Sample.aligned_track = Ok out
    ∧ sorted ≡ₚ Sample.aligned_track
    ∧ StronglySorted (λ a b, x a ≤ x b) sorted
    ∧ kept `sublist_of` sorted
    ∧ (∀ r, r ∈ kept
            ↔ r ∈ Sample.aligned_track
              ∧ is_Some (diff (track r)) ∧ is_Some (BrdU (track r)))
    ∧ length F = length kept
    ∧ (∀ (i : nat) r, F !! i = Some r →
         kept !! i = Some (aligned r)
         ∧ (let rows := take (i + 101 - (i - 100)) (drop (i - 100) kept) in
            ∃ bs ds : list Q,
              BrdU ∘ track <$> rows = Some <$> bs
              ∧ diff ∘ track <$> rows = Some <$> ds
              ∧ BrdU_smooth r
                = (foldr Qplus 0 bs / inject_Z (Z.of_nat (length bs)))%Q
              ∧ diff_smooth r
                = (foldr Qplus 0 ds / inject_Z (Z.of_nat (length ds)))%Q)
         ∧ (¬ (BrdU_smooth r == 0)%Q →
            diff_div_brdu_smooth r = Finite (diff_smooth r / BrdU_smooth r))
         ∧ ((BrdU_smooth r == 0)%Q →
            ((0 < diff_smooth r)%Q → diff_div_brdu_smooth r = PlusInf)
            ∧ ((diff_smooth r < 0)%Q → diff_div_brdu_smooth r = MinusInf)
            ∧ ((diff_smooth r == 0)%Q → diff_div_brdu_smooth r = NaN)))
    ∧ match brdu_start out with
      | None => brdu_end out = None
      | Some b =>
          let W := peak_window b F in
          W `sublist_of` F
          ∧ (∀ r, r ∈ W ↔ r ∈ F ∧ b < fx r ≤ b + 15000)
          ∧ (W = [] → brdu_end out = None)
          ∧ (W ≠ [] →
             ∃ (ipeak : nat) peak,
               first_max (BrdU_smooth <$> W) ipeak ∧ W !! ipeak = Some peak
               ∧ let qualifies r :=
                   fx peak < fx r ∧ (diff_smooth r <= 3 # 4)%Q
                   ∧ match diff_div_brdu_smooth r with
                     | Finite q => (q <= 13 # 20)%Q
                     | MinusInf => True
                     | PlusInf | NaN => False
                     end in
                 (∀ e, brdu_end out = Some e
                       ↔ ∃ pre r post,
                           F = pre ++ r :: post ∧ fx r = e ∧ qualifies r
                           ∧ ∀ y, y ∈ pre → ¬ qualifies y)
                 ∧ (brdu_end out = None ↔ ∀ y, y ∈ F → ¬ qualifies y))
      end.
Proof. exact (edu_boundaries_detect_brdu_end Sample.aligned_track). Defined.

(** C5 as worded fails at the peak row.  On the example track brdu_start
    is 10 and the peak window holds the rows at 20, 30, 40 and 50, all of
    the same BrdU_smooth 5/16, so the peak is the row at 20.  That row
    has diff_smooth -3/32 <= 0.75 and quotient -3/10 <= 0.65: it is the
    first row "from the peak's x onward" that meets both tests, and yet
    brdu_end is 30, the first such row after the peak. *)
Lemma brdu_end_skips_peak_row :
  let F := smooth_columns (sort_values_x Sample.aligned_track) in
  let W := peak_window 10 F in
  ∃ pre peak post,
    edu_boundaries_detect Sample.aligned_track
    = Ok (MkBoundaries (Some (-30)) (Some 10) (Some 30))
    ∧ first_max (BrdU_smooth <$> W) 0 ∧ W !! 0%nat = Some peak
    ∧ F = pre ++ peak :: post
    ∧ Forall (λ r, fx r < fx peak) pre
    ∧ fx peak = 20
    ∧ (BrdU_smooth peak == 5 # 16)%Q
    ∧ (diff_smooth peak == - (3 # 32))%Q ∧ (diff_smooth peak <= 3 # 4)%Q
    ∧ (∃ q, diff_div_brdu_smooth peak = Finite q
            ∧ (q == - (3 # 10))%Q ∧ (q <= 13 # 20)%Q)
    ∧ 20 ≠ 30.
Proof.
  intros F W. eexists (take 4 F), _, (drop 5 F).
  split; [by_evaluation|]. split.
  { destruct (idxmax_spec (BrdU_smooth <$> W)) as (i & Hi & Hmax);
      [unfold W, F; vm_compute; discriminate|].
    assert (idxmax (BrdU_smooth <$> W) = Ok 0%nat) as Hi0 by by_evaluation.
    congruence. }
  split; [unfold W, F; vm_compute; reflexivity|].
  split; [symmetry; apply take_drop_middle; by_evaluation|].
  split; [apply (bool_decide_unpack _); by_evaluation|].
  split; [reflexivity|].
  split; [by_evaluation|]. split; [by_evaluation|].
  split; [vm_compute; discriminate|].
  split; [|done].
  eexists. split; [reflexivity|]. split; [by_evaluation|].
  vm_compute; discriminate.
Qed.

(** The example track: the peak window after brdu_start = 10 holds the
    rows at 20, 30, 40 and 50, all of the same BrdU_smooth, so the peak
    is the row at 20 and brdu_end is found at 30, the first row after
    it. *)
Example edu_boundaries_detect_example :
  edu_boundaries_detect Sample.aligned_track
  = Ok (MkBoundaries (Some (-30)) (Some 10) (Some 30))
  ∧ fx <$> peak_window 10 (smooth_columns (sort_values_x Sample.aligned_track))
    = [20; 30; 40; 50]
  ∧ idxmax (BrdU_smooth
              <$> peak_window 10
                    (smooth_columns (sort_values_x Sample.aligned_track)))
    = Ok 0%nat.
Proof. repeat split; by_evaluation. Qed.

(** Without a row in -10000 < x < 0 of smoothed diff below -0.1 no
    boundary is found. *)
Example edu_boundaries_detect_none :
  edu_boundaries_detect [Sample.aligned_row 10 1 1; Sample.aligned_row 20 1 1]
  = Ok (MkBoundaries None None None).
Proof. by_evaluation. Qed.

End boundaries.

(** ** The track summarizer *)

Section summarizer.
Import TrackSummarizer.

Lemma elem_of_group_keys rows k : k ∈ group_keys rows ↔ k ∈ px <$> rows.
Proof.
  unfold group_keys. rewrite merge_sort_Permutation. apply elem_of_remove_dups.
Qed.

Lemma group_keys_NoDup rows : NoDup (group_keys rows).
Proof.
  unfold group_keys. rewrite merge_sort_Permutation. apply NoDup_remove_dups.
Qed.




(** The example: the groups are x = 0 (two values), x = 5 (one value)
    and x = 7 (no value); the row of x = 5 has n = 1 and NaN for sd, se
    and both bounds. *)
Example summarize_single_value :
  group_keys Sample.pooled = [0; 5; 7]
  ∧ ∃ r0 r5 r7,
      summarize_combined_tracks Sample.pooled = [r0; r5; r7]
      ∧ n r0 = 2%nat ∧ n r5 = 1%nat ∧ n r7 = 0%nat
      ∧ mean r5 = Some (2 / 1)%R
      ∧ sd r5 = None ∧ se r5 = None
      ∧ ci_lower r5 = None ∧ ci_upper r5 = None.
Proof.
  assert (Hk : group_keys Sample.pooled = [0; 5; 7]) by by_evaluation.
  split; [exact Hk|].
  unfold summarize_combined_tracks. rewrite Hk.
  eexists _, _, _. split; [reflexivity|].
  repeat split; simpl; rewrite ?Rplus_0_r; reflexivity.
Qed.

End summarizer.

(** * Further properties *)

(** ** Decoded entries *)

Section entries.
Import TagDecoder TagCalls.

(** When the loops return, every entry has parsed and the bytes have
    sufficed. *)
Lemma decode_entries_Ok_inv entries : ∀ st st',
  decode_entries entries st = Ok st' →
  ∃ groups, traverse parse_group entries = Ok groups
          ∧ (length (positions groups) ≤ length st.2)%nat.
Proof.
  induction entries as [|en entries IH]; intros [m ml] st' Hd; simpl in *.
  - exists []. split; [done|]. simpl. lia.
  - unfold parse_group at 1.
    destruct (traverse int (tl (split "," en))) as [rels|e]; simpl in *; [|done].
    destruct (decide (length rels ≤ length ml)%nat) as [Hle|Hgt].
    + rewrite decode_positions_ok in Hd by done. simpl in Hd.
      apply IH in Hd as (gs & -> & Hlen). simpl in *.
      eexists. split; [reflexivity|].
      rewrite positions_cons, length_app, length_group_positions. simpl.
      rewrite length_drop in Hlen. lia.
    + rewrite decode_positions_short in Hd by lia. done.
Qed.

Lemma parse_ml_mm_Ok_inv MM ML m :
  parse_ml_mm MM ML = Ok m →
  ∃ groups, tag_groups MM = Ok groups
          ∧ (position_count groups ≤ length ML)%nat
          ∧ m = finalize <$> run ∅ (calls groups ML).
Proof.
  intros Hm.
  assert (∃ groups, tag_groups MM = Ok groups
                    ∧ (position_count groups ≤ length ML)%nat)
    as (groups & Hg & Hlen).
  { unfold parse_ml_mm in Hm.
    destruct (decode_entries _ _) as [st|e] eqn:Hd; simpl in Hm; [|done].
    apply decode_entries_Ok_inv in Hd as (groups & Hg & Hlen). simpl in Hlen.
    exists groups. by rewrite length_positions in Hlen. }
  exists groups. split; [done|]. split; [done|].
  rewrite (parse_ml_mm_run MM ML groups Hg Hlen) in Hm. by injection Hm.
Qed.

Lemma last_prob_from_le_1 k p cs : ∀ init,
  (init <= 1)%Q → Forall (λ c, byte c ≤ 255) cs →
  (last_prob_from init k p cs <= 1)%Q.
Proof.
  induction cs as [|c cs IH]; intros init Hinit Hcs; [done|].
  apply Forall_cons in Hcs as [Hc Hcs].
  unfold last_prob_from in *. simpl. apply IH; [|done].
  case_bool_decide; [|done].
  unfold prob. apply Qle_shift_div_r; [done|].
  rewrite Qmult_1_l. by rewrite <- (Zle_Qle _ 255).
Qed.

Lemma calls_bytes_le groups ML :
  Forall (λ b, b ≤ 255) ML → Forall (λ c, byte c ≤ 255) (calls groups ML).
Proof.
  intros HML. apply Forall_forall. intros c Hc.
  apply elem_of_lookup_zip_with in Hc as (j & ko & b & -> & _ & Hb).
  simpl. rewrite Forall_forall in HML. apply HML.
  by apply list_elem_of_lookup_2 in Hb.
Qed.

Lemma max0_spec v :
  ((0 < v)%Q ∧ max0 v = v) ∨ ((v <= 0)%Q ∧ max0 v = 0%Q).
Proof. unfold max0. destruct (Qlt_le_dec 0 v); auto. Qed.

Lemma run_probabilities groups ML :
  Forall (λ b, 0 ≤ b ≤ 255) ML →
  ∀ p e, (finalize <$> run ∅ (calls groups ML)) !! p = Some e →
    (0 <= BrdU e <= 1)%Q ∧ (0 <= EdU e <= 1)%Q ∧ (0 <= None_ e <= 1)%Q
    ∧ ((BrdU e + EdU e <= 1)%Q → (BrdU e + EdU e + None_ e == 1)%Q)
    ∧ ((1 < BrdU e + EdU e)%Q → None_ e = 0%Q).
Proof.
  intros HML p e He.
  apply finalize_run_lookup in He as (Hb & Hd & Hn).
  assert (H0 : Forall (λ c, 0 ≤ byte c) (calls groups ML)).
  { apply calls_bytes_nonneg. eapply Forall_impl; [exact HML|]. simpl. lia. }
  assert (H1 : Forall (λ c, byte c ≤ 255) (calls groups ML)).
  { apply calls_bytes_le. eapply Forall_impl; [exact HML|]. simpl. lia. }
  assert (Hb0 : (0 <= BrdU e)%Q) by (rewrite Hb; by apply last_prob_from_nonneg).
  assert (Hb1 : (BrdU e <= 1)%Q) by (rewrite Hb; by apply last_prob_from_le_1).
  assert (Hd0 : (0 <= EdU e)%Q) by (rewrite Hd; by apply last_prob_from_nonneg).
  assert (Hd1 : (EdU e <= 1)%Q) by (rewrite Hd; by apply last_prob_from_le_1).
  assert (Hsum0 : (0 <= BrdU e + EdU e)%Q).
  { apply (Qle_trans _ (0 + 0)); [done|by apply Qplus_le_compat]. }
  split; [done|]. split; [done|].
  destruct (max0_spec (1 - (BrdU e + EdU e))) as [[Hpos Hmax]|[Hneg Hmax]];
    rewrite Hn, Hmax.
  - split; [split|split].
    + by apply Qlt_le_weak.
    + rewrite <- (Qplus_0_r 1) at 2. unfold Qminus.
      apply Qplus_le_compat; [apply Qle_refl|].
      rewrite <- (Qopp_involutive 0). apply Qopp_le_compat. done.
    + intros _. ring.
    + intros Hgt. exfalso. apply (Qlt_irrefl 0).
      apply (Qlt_trans _ _ _ Hpos). rewrite <- (Qplus_opp_r 1). unfold Qminus.
      apply Qplus_lt_r. apply Qopp_lt_compat. done.
  - split; [done|]. split; [|done].
    intros Hle. apply (Qle_antisym (1 - (BrdU e + EdU e)) 0) in Hneg.
    + rewrite <- Hneg. ring.
    + rewrite <- (Qplus_opp_r (BrdU e + EdU e)). unfold Qminus.
      apply Qplus_le_compat; [done|apply Qle_refl].
Qed.

(** Whenever [parse_ml_mm] returns on bytes between 0 and 255, each of
    the three probabilities of every entry lies between 0 and 1; [None]
    is the complement of the two channels to 1 when their sum is at most
    1, and 0 when it exceeds 1. *)
Theorem parse_ml_mm_probabilities MM ML m :
  parse_ml_mm MM ML = Ok m →
  Forall (λ b, 0 ≤ b ≤ 255) ML →
  ∀ p e, m !! p = Some e →
    (0 <= BrdU e <= 1)%Q ∧ (0 <= EdU e <= 1)%Q ∧ (0 <= None_ e <= 1)%Q
    ∧ ((BrdU e + EdU e <= 1)%Q → (BrdU e + EdU e + None_ e == 1)%Q)
    ∧ ((1 < BrdU e + EdU e)%Q → None_ e = 0%Q).
Proof.
  intros Hm HML p e He.
  apply parse_ml_mm_Ok_inv in Hm as (groups & _ & _ & ->).
  exact (run_probabilities groups ML HML p e He).
Qed.

Lemma parse_ml_mm_probabilities_witness :
  parse_ml_mm Sample.mixed_MM Sample.mixed_ML = Ok Cases.decoded
  ∧ Forall (λ b, 0 ≤ b ≤ 255) Sample.mixed_ML
  ∧ ∀ p e, Cases.decoded !! p = Some e →
      (0 <= BrdU e <= 1)%Q ∧ (0 <= EdU e <= 1)%Q ∧ (0 <= None_ e <= 1)%Q
      ∧ ((BrdU e + EdU e <= 1)%Q → (BrdU e + EdU e + None_ e == 1)%Q)
      ∧ ((1 < BrdU e + EdU e)%Q → None_ e = 0%Q).
Proof.
  assert (H : parse_ml_mm Sample.mixed_MM Sample.mixed_ML = Ok Cases.decoded)
    by (apply parse_ml_mm_run; [reflexivity|simpl; lia]).
  assert (HML : Forall (λ b, 0 ≤ b ≤ 255) Sample.mixed_ML)
    by (repeat (constructor; [lia|]); constructor).
  split; [exact H|]. split; [exact HML|].
  exact (parse_ml_mm_probabilities Sample.mixed_MM Sample.mixed_ML
           Cases.decoded H HML).
Defined.

(** *** Offsets under non-negative skips *)

Lemma offsets_from_increasing rels : ∀ a,
  Forall (λ r, 0 ≤ r) rels →
  StronglySorted Z.lt (offsets_from a rels)
  ∧ Forall (λ o, a < o) (offsets_from a rels).
Proof.
  induction rels as [|r rels IH]; intros a Hrels; simpl.
  - split; constructor.
  - apply Forall_cons in Hrels as [Hr Hrels].
    destruct (IH (a + (r + 1)) Hrels) as [Hs Hall].
    split.
    + constructor; [done|].
      eapply Forall_impl; [exact Hall|]. simpl. lia.
    + constructor; [lia|].
      eapply Forall_impl; [exact Hall|]. simpl. lia.
Qed.

Lemma StronglySorted_lt_NoDup (l : list Z) : StronglySorted Z.lt l → NoDup l.
Proof.
  induction 1 as [|x l Hl IH Hall]; constructor; [|done].
  intros Hin. rewrite Forall_forall in Hall. specialize (Hall x Hin). lia.
Qed.

(** With a byte for each position, every position of every group is a
    call. *)
Lemma group_offset_called groups ML g p :
  (position_count groups ≤ length ML)%nat →
  g ∈ groups → p ∈ offsets_from 0 g.2 →
  ∃ c, c ∈ calls groups ML ∧ offset c = p ∧ kind c = g.1.
Proof.
  intros Hlen Hg Hp.
  assert ((g.1, p) ∈ positions groups) as Hpos.
  { unfold positions. apply list_elem_of_bind. exists g. split; [|done].
    unfold group_positions. apply list_elem_of_fmap. eauto. }
  apply list_elem_of_lookup in Hpos as [j Hj].
  apply lookup_lt_Some in Hj as Hlt. rewrite length_positions in Hlt.
  destruct (lookup_lt_is_Some_2 ML j) as [b Hb]; [lia|].
  exists (MkCall g.1 p b). split; [|done].
  unfold calls. apply list_elem_of_lookup. exists j.
  rewrite lookup_zip_with, Hj. simpl. by rewrite Hb.
Qed.

(** When no skip is negative, every key of the decoded map is at least
    1 (offset 0 is never recorded), the offsets of a group increase
    strictly, and the map has at least as many keys as the longest group
    has positions: two calls of one group never land on the same
    offset. *)
Theorem parse_ml_mm_offsets MM ML m groups :
  parse_ml_mm MM ML = Ok m →
  tag_groups MM = Ok groups →
  Forall (λ g : group, Forall (λ r, 0 ≤ r) g.2) groups →
  (∀ p, is_Some (m !! p) → 1 ≤ p)
  ∧ ∀ g, g ∈ groups →
      StronglySorted Z.lt (offsets_from 0 g.2)
      ∧ (∀ p, p ∈ offsets_from 0 g.2 → is_Some (m !! p))
      ∧ (length g.2 ≤ size m)%nat.
Proof.
  intros Hm Hg Hnn.
  apply parse_ml_mm_Ok_inv in Hm as (groups' & Hg' & Hlen & ->).
  assert (groups' = groups) as -> by congruence.
  rewrite Forall_forall in Hnn.
  split.
  - intros p Hp. apply finalize_run_is_Some in Hp as (c & Hc & <-).
    unfold calls in Hc.
    apply elem_of_lookup_zip_with in Hc as (j & [k o] & b & -> & Hko & _).
    simpl. apply list_elem_of_lookup_2 in Hko.
    unfold positions in Hko. apply list_elem_of_bind in Hko as (g & Hin & Hgin).
    unfold group_positions in Hin.
    apply list_elem_of_fmap in Hin as (o' & [= _ ->] & Ho').
    destruct (offsets_from_increasing g.2 0 (Hnn g Hgin)) as [_ Hall].
    rewrite Forall_forall in Hall. specialize (Hall o' Ho'). lia.
  - intros g Hgin.
    destruct (offsets_from_increasing g.2 0 (Hnn g Hgin)) as [Hs _].
    assert (Hkeys : ∀ p, p ∈ offsets_from 0 g.2 →
              is_Some ((finalize <$> run ∅ (calls groups ML)) !! p)).
    { intros p Hp. apply finalize_run_is_Some.
      destruct (group_offset_called groups ML g p Hlen Hgin Hp)
        as (c & Hc & Ho & _). eauto. }
    split; [done|]. split; [done|].
    rewrite <- (length_offsets_from 0 g.2).
    rewrite <- (size_list_to_set (C := gset Z))
      by (by apply StronglySorted_lt_NoDup).
    rewrite <- size_dom. apply subseteq_size.
    intros p Hp. apply elem_of_list_to_set in Hp.
    apply elem_of_dom. by apply Hkeys.
Qed.

Lemma parse_ml_mm_offsets_witness :
  parse_ml_mm Sample.mixed_MM Sample.mixed_ML = Ok Cases.decoded
  ∧ tag_groups Sample.mixed_MM = Ok Sample.mixed_groups
  ∧ Forall (λ g : group, Forall (λ r, 0 ≤ r) g.2) Sample.mixed_groups
  ∧ (∀ p, is_Some (Cases.decoded !! p) → 1 ≤ p)
  ∧ ∀ g, g ∈ Sample.mixed_groups →
      StronglySorted Z.lt (offsets_from 0 g.2)
      ∧ (∀ p, p ∈ offsets_from 0 g.2 → is_Some (Cases.decoded !! p))
      ∧ (length g.2 ≤ size Cases.decoded)%nat.
Proof.
  assert (H : parse_ml_mm Sample.mixed_MM Sample.mixed_ML = Ok Cases.decoded)
    by (apply parse_ml_mm_run; [reflexivity|simpl; lia]).
  assert (Hg : tag_groups Sample.mixed_MM = Ok Sample.mixed_groups)
    by reflexivity.
  assert (Hpos : Forall (λ g : group, Forall (λ r, 0 ≤ r) g.2)
                        Sample.mixed_groups)
    by (repeat (constructor; [simpl; repeat (constructor; [lia|]); constructor|]);
        constructor).
  split; [exact H|]. split; [exact Hg|]. split; [exact Hpos|].
  exact (parse_ml_mm_offsets Sample.mixed_MM Sample.mixed_ML Cases.decoded
           Sample.mixed_groups H Hg Hpos).
Defined.

End entries.

(** ** Windows and rows of a read *)

Section reads.
Import TagDecoder TagCalls WindowAggregator CoordinateMapper Auxiliary.

(** *** Frequencies *)

Lemma accumulate_bounded (m : gmap Z entry) l : ∀ acc,
  (∀ p e, m !! p = Some e → (0 <= BrdU e <= 1)%Q ∧ (0 <= EdU e <= 1)%Q) →
  (0 <= acc.1.1 <= inject_Z acc.2)%Q → (0 <= acc.1.2 <= inject_Z acc.2)%Q →
  let r := foldl (accumulate m) acc l in
  (0 <= r.1.1 <= inject_Z r.2)%Q ∧ (0 <= r.1.2 <= inject_Z r.2)%Q.
Proof.
  induction l as [|p l IH]; intros acc Hm Hb He; simpl; [done|].
  apply IH; [done| |]; unfold accumulate;
    destruct (m !! p) as [e|] eqn:Hp; simpl; try done;
    destruct (Hm p e Hp) as [[Hb0 Hb1] [He0 He1]];
    rewrite inject_Z_plus; (split;
      [apply (Qle_trans _ (0 + 0)); [done|apply Qplus_le_compat; tauto]
      |apply Qplus_le_compat; tauto]).
Qed.

Lemma unit_quotient (b : Q) (t : Z) :
  0 < t → (0 <= b <= inject_Z t)%Q → (0 <= b / inject_Z t <= 1)%Q.
Proof.
  intros Ht [Hb0 Hb1].
  assert (0 < inject_Z t)%Q by (rewrite <- (Zlt_Qlt 0); done).
  split.
  - apply Qle_shift_div_l; [done|]. by rewrite Qmult_0_l.
  - apply Qle_shift_div_r; [done|]. by rewrite Qmult_1_l.
Qed.

Lemma window_at_unit (m : gmap Z entry) window_size s :
  (∀ p e, m !! p = Some e → (0 <= BrdU e <= 1)%Q ∧ (0 <= EdU e <= 1)%Q) →
  (0 <= brdu_freq (window_at m window_size s) <= 1)%Q
  ∧ (0 <= edu_freq (window_at m window_size s) <= 1)%Q.
Proof.
  intros Hm. unfold window_at, window_sums.
  destruct (accumulate_bounded m (range2 s (s + window_size)) (0%Q, 0%Q, 0) Hm)
    as [Hb He]; [done|done|].
  destruct (Z.ltb_spec 0 (foldl (accumulate m) (0%Q, 0%Q, 0)
                            (range2 s (s + window_size))).2); simpl.
  - split; by apply unit_quotient.
  - done.
Qed.

(** *** What the two later stages return *)

Lemma compute_sliding_windows_nonempty (m : gmap Z entry) min_pos rest w s :
  sorted_keys m = min_pos :: rest → s ≠ 0 →
  compute_sliding_windows m w s
  = Ok (window_at m w
          <$> range3 min_pos (List.last (sorted_keys m) min_pos - w + 1) s).
Proof.
  intros Hk Hs. unfold compute_sliding_windows. rewrite Hk.
  unfold range. by rewrite (proj2 (Z.eqb_neq s 0)) by done.
Qed.

Lemma compute_sliding_windows_elem (m : gmap Z entry) w s ws win :
  compute_sliding_windows m w s = Ok ws → win ∈ ws →
  ∃ start, win = window_at m w start.
Proof.
  unfold compute_sliding_windows.
  destruct (sorted_keys m) as [|min_pos rest].
  - intros [= <-] Hin. by apply elem_of_nil in Hin.
  - destruct (range _ _ s) as [starts|e]; simpl; [|done].
    intros [= <-] Hin. apply list_elem_of_fmap in Hin as (start & -> & _). eauto.
Qed.

Lemma convert_nonempty name rs re rev (w0 : Window) rest :
  convert_relative_to_abs_positions name rs re rev (w0 :: rest)
  = Ok ((λ w, MkGenomicWindow name
                (abs_start rs re rev (window_start w))
                (abs_start rs re rev (window_start w)
                 + (window_end w0 - window_start w0))
                (brdu_freq w) (edu_freq w)) <$> (w0 :: rest)).
Proof.
  set (ws := w0 :: rest). set (size := window_end w0 - window_start w0).
  set (starts := abs_start rs re rev <$> (window_start <$> ws)).
  unfold convert_relative_to_abs_positions. cbv zeta.
  change (ws !! 0%nat) with (Some w0). unfold Py.bind. fold size.
  replace (if negb rev
           then (λ x, rs + 1 + x) <$> (window_start <$> ws)
           else (λ x, re - 1 - x) <$> (window_start <$> ws))
    with starts by (unfold starts, abs_start; by destruct rev).
  rewrite (traverse_Ok _
    (λ ix : nat * Z,
       MkGenomicWindow name ix.2 (ix.2 + size)
         (brdu_freq (default w0 (ws !! ix.1)))
         (edu_freq (default w0 (ws !! ix.1))))).
  - f_equal. apply list_eq. intros i.
    rewrite !list_lookup_fmap, list_lookup_imap. unfold starts.
    rewrite !list_lookup_fmap.
    destruct (ws !! i) as [w|] eqn:Hw; simpl; [|done]. by rewrite Hw.
  - intros [i x] Hin. apply list_elem_of_lookup in Hin as [j Hj].
    rewrite list_lookup_imap in Hj.
    destruct (starts !! j) as [y|] eqn:Hy; simpl in Hj; [|done].
    injection Hj as <- <-. simpl.
    unfold starts in Hy. rewrite !list_lookup_fmap in Hy.
    destruct (ws !! j) as [w|] eqn:Hw; [|done]. simpl. done.
Qed.

(** What [process_read] returns, stage by stage. *)
Lemma process_read_Ok_inv rd name rows :
  process_read (Some rd) = Ok (ReadWindows name rows) →
  ∃ m w0 rest,
    parse_ml_mm (MM rd) (ML rd) = Ok m
    ∧ compute_sliding_windows m (window_size rd) (step_size rd)
      = Ok (w0 :: rest)
    ∧ name = read_name rd
    ∧ rows = (λ w, MkGenomicWindow (reference_name rd)
                (abs_start (reference_start rd) (reference_end rd)
                   (is_reverse rd) (window_start w))
                (abs_start (reference_start rd) (reference_end rd)
                   (is_reverse rd) (window_start w)
                 + (window_end w0 - window_start w0))
                (brdu_freq w) (edu_freq w)) <$> (w0 :: rest).
Proof.
  unfold process_read.
  destruct (parse_ml_mm (MM rd) (ML rd)) as [m|e] eqn:Hm; simpl; [|done].
  destruct (compute_sliding_windows m _ _) as [[|w0 rest]|e] eqn:Hws;
    simpl; try done.
  rewrite convert_nonempty. simpl. intros [= <- <-].
  exists m, w0, rest. done.
Qed.

Lemma process_read_Ok_rows rd r :
  process_read (Some rd) = Ok r →
  ∃ rows, r = ReadWindows (read_name rd) rows ∧ rows ≠ [].
Proof.
  intros Hr. destruct r as [|name rows].
  - unfold process_read in Hr.
    destruct (parse_ml_mm _ _); simpl in Hr; [|done].
    destruct (compute_sliding_windows _ _ _); simpl in Hr; [|done].
    destruct (convert_relative_to_abs_positions _ _ _ _ _); done.
  - apply process_read_Ok_inv in Hr as (m & w0 & rest & _ & _ & -> & ->).
    eexists. split; [done|]. done.
Qed.

(** The two values of every row that [process_read] returns, on bytes
    between 0 and 255, lie between 0 and 1. *)
Theorem process_read_frequencies rd name rows :
  process_read (Some rd) = Ok (ReadWindows name rows) →
  Forall (λ b, 0 ≤ b ≤ 255) (ML rd) →
  ∀ row, row ∈ rows →
    (0 <= g_brdu row <= 1)%Q ∧ (0 <= g_edu row <= 1)%Q.
Proof.
  intros Hp HML row Hrow.
  apply process_read_Ok_inv in Hp as (m & w0 & rest & Hm & Hws & _ & ->).
  apply list_elem_of_fmap in Hrow as (w & -> & Hw). simpl.
  destruct (compute_sliding_windows_elem _ _ _ _ _ Hws Hw) as [start ->].
  apply window_at_unit. intros p e He.
  apply parse_ml_mm_Ok_inv in Hm as (groups & _ & _ & ->).
  destruct (run_probabilities groups (ML rd) HML p e He) as (Hb & Hd & _).
  done.
Qed.

Lemma process_read_frequencies_witness :
  process_read (Some Cases.forward_read)
  = Ok (ReadWindows "read1" Cases.forward_rows)
  ∧ Forall (λ b, 0 ≤ b ≤ 255) (ML Cases.forward_read)
  ∧ ∀ row, row ∈ Cases.forward_rows →
      (0 <= g_brdu row <= 1)%Q ∧ (0 <= g_edu row <= 1)%Q.
Proof.
  assert (H : process_read (Some Cases.forward_read)
              = Ok (ReadWindows "read1" Cases.forward_rows)) by by_evaluation.
  assert (HML : Forall (λ b, 0 ≤ b ≤ 255) (ML Cases.forward_read))
    by (repeat (constructor; [lia|]); constructor).
  split; [exact H|]. split; [exact HML|].
  exact (process_read_frequencies Cases.forward_read "read1"
           Cases.forward_rows H HML).
Defined.

(** *** How many windows, and where *)

Lemma length_range3 start stop step :
  0 < step →
  Z.of_nat (length (range3 start stop step))
  = if decide (start < stop) then (stop - start - 1) / step + 1 else 0.
Proof.
  intros Hs. unfold range3. rewrite length_fmap, length_seq.
  unfold range_length. rewrite (proj2 (Z.ltb_lt 0 step)) by done.
  case_decide as Hlt.
  - rewrite (proj2 (Z.ltb_lt start stop)) by done.
    assert (0 ≤ (stop - start - 1) / step) by (apply Z.div_pos; lia).
    by rewrite Z2Nat.id by lia.
  - rewrite (proj2 (Z.ltb_ge start stop)) by lia. done.
Qed.

Lemma elem_of_range3 start stop step z :
  0 < step → z ∈ range3 start stop step → start ≤ z < stop.
Proof.
  intros Hs Hz. apply list_elem_of_lookup in Hz as [i Hi].
  rewrite range3_lookup in Hi by done. case_decide; [|done].
  injection Hi as <-. nia.
Qed.

Lemma accumulate_count_hit (m : gmap Z entry) l p : ∀ acc,
  p ∈ l → is_Some (m !! p) → acc.2 < (foldl (accumulate m) acc l).2.
Proof.
  induction l as [|q l IH]; intros acc Hp Hm; [by apply elem_of_nil in Hp|].
  simpl. apply elem_of_cons in Hp as [->|Hp].
  - pose proof (accumulate_count_le m l (accumulate m acc q)) as Hle.
    assert ((accumulate m acc q).2 = acc.2 + 1) as Hstep
      by (unfold accumulate; by destruct Hm as [e ->]).
    lia.
  - specialize (IH (accumulate m acc q) Hp Hm).
    assert (acc.2 ≤ (accumulate m acc q).2) as Hstep
      by (unfold accumulate; destruct (m !! q); simpl; lia).
    lia.
Qed.

(** On a non-empty map with positive sizes, the number of windows is 0
    when the keys span less than the window size and
    (max_pos - min_pos - window_size) / step_size + 1 otherwise.  No
    window starts before min_pos or ends after max_pos: the half-open
    windows never count the greatest offset.  The first window starts at
    min_pos and counts at least that offset. *)
Theorem compute_sliding_windows_count (m : gmap Z entry) window_size step_size :
  m ≠ ∅ → 0 < window_size → 0 < step_size →
  ∃ min_pos max_pos ws,
    (is_Some (m !! min_pos) ∧ is_Some (m !! max_pos)
     ∧ ∀ p, is_Some (m !! p) → min_pos ≤ p ≤ max_pos)
    ∧ compute_sliding_windows m window_size step_size = Ok ws
    ∧ Z.of_nat (length ws)
      = (if decide (max_pos - min_pos < window_size) then 0
         else (max_pos - min_pos - window_size) / step_size + 1)
    ∧ (∀ win, win ∈ ws →
         min_pos ≤ window_start win ∧ window_end win ≤ max_pos
         ∧ ¬ (window_start win ≤ max_pos < window_end win))
    ∧ (∀ w0 rest, ws = w0 :: rest →
         window_start w0 = min_pos ∧ 1 ≤ t_count m window_size min_pos).
Proof.
  intros Hne Hw Hs.
  destruct (sorted_keys m) as [|min_pos rest] eqn:Hkeys.
  { by apply sorted_keys_nil in Hkeys. }
  pose proof (sorted_keys_bounds m min_pos rest Hkeys) as Hb. simpl in Hb.
  pose proof (compute_sliding_windows_nonempty m min_pos rest
                window_size step_size Hkeys ltac:(lia)) as Hws.
  set (max_pos := List.last (sorted_keys m) min_pos) in *.
  set (starts := range3 min_pos (max_pos - window_size + 1) step_size) in *.
  exists min_pos, max_pos, (window_at m window_size <$> starts).
  split; [exact Hb|]. split; [exact Hws|]. split; [|split].
  - rewrite length_fmap. unfold starts. rewrite length_range3 by done.
    replace (max_pos - window_size + 1 - min_pos - 1)
      with (max_pos - min_pos - window_size) by lia.
    repeat case_decide; (done || lia).
  - intros win Hin. apply list_elem_of_fmap in Hin as (start & -> & Hstart).
    apply elem_of_range3 in Hstart; [|done].
    rewrite window_at_start, window_at_end. lia.
  - intros w0 rest' Heq.
    destruct starts as [|s0 starts'] eqn:Hst; [done|].
    assert (starts !! 0%nat = Some s0) as H0 by (by rewrite Hst).
    unfold starts in H0. rewrite range3_lookup in H0 by done.
    case_decide; [|done]. injection H0 as <-.
    injection Heq as <- _. rewrite window_at_start. split; [lia|].
    unfold t_count, window_sums.
    pose proof (accumulate_count_hit m (range2 min_pos (min_pos + window_size))
                  min_pos (0%Q, 0%Q, 0)) as Hhit.
    simpl in Hhit. destruct Hb as (Hmin & _ & _).
    specialize (Hhit ltac:(apply elem_of_range2_2; lia) Hmin). lia.
Qed.

Lemma compute_sliding_windows_count_witness :
  Sample.two_offsets ≠ ∅ ∧ 0 < 2 ∧ 0 < 1
  ∧ ∃ min_pos max_pos ws,
    (is_Some (Sample.two_offsets !! min_pos)
     ∧ is_Some (Sample.two_offsets !! max_pos)
     ∧ ∀ p, is_Some (Sample.two_offsets !! p) → min_pos ≤ p ≤ max_pos)
    ∧ compute_sliding_windows Sample.two_offsets 2 1 = Ok ws
    ∧ Z.of_nat (length ws)
      = (if decide (max_pos - min_pos < 2) then 0
         else (max_pos - min_pos - 2) / 1 + 1)
    ∧ (∀ win, win ∈ ws →
         min_pos ≤ window_start win ∧ window_end win ≤ max_pos
         ∧ ¬ (window_start win ≤ max_pos < window_end win))
    ∧ (∀ w0 rest, ws = w0 :: rest →
         window_start w0 = min_pos ∧ 1 ≤ t_count Sample.two_offsets 2 min_pos).
Proof.
  assert (Hne : Sample.two_offsets ≠ ∅) by apply insert_non_empty.
  split; [exact Hne|]. split; [lia|]. split; [lia|].
  apply (compute_sliding_windows_count Sample.two_offsets 2 1); [exact Hne|lia|lia].
Defined.

(** *** When [process_read] returns *)

Lemma process_read_cases rd m :
  parse_ml_mm (MM rd) (ML rd) = Ok m →
  0 < window_size rd → 0 < step_size rd →
  ((∀ p q, is_Some (m !! p) → is_Some (m !! q) → q - p < window_size rd) →
   process_read (Some rd) = Raise IndexError)
  ∧ (∀ p q, is_Some (m !! p) → is_Some (m !! q) → window_size rd ≤ q - p →
     ∃ rows, process_read (Some rd) = Ok (ReadWindows (read_name rd) rows)
           ∧ rows ≠ []).
Proof.
  intros Hm Hw Hs. unfold process_read. rewrite Hm. simpl.
  destruct (sorted_keys m) as [|min_pos rest] eqn:Hkeys.
  { apply sorted_keys_nil in Hkeys as ->. split.
    - intros _. reflexivity.
    - intros p q [e He]. by rewrite lookup_empty in He. }
  pose proof (sorted_keys_bounds m min_pos rest Hkeys) as (Hmin & Hmax & Hb).
  rewrite (compute_sliding_windows_nonempty m min_pos rest) by (done || lia).
  set (max_pos := List.last (sorted_keys m) min_pos) in *.
  pose proof (length_range3 min_pos (max_pos - window_size rd + 1)
                (step_size rd) Hs) as Hlen.
  destruct (range3 min_pos (max_pos - window_size rd + 1) (step_size rd))
    as [|s0 starts] eqn:Hst; simpl.
  - split; [done|]. intros p q Hp Hq Hpq. exfalso.
    pose proof (Hb p Hp). pose proof (Hb q Hq).
    case_decide; simpl in Hlen; [|lia].
    assert (0 ≤ (max_pos - window_size rd + 1 - min_pos - 1) / step_size rd)
      by (apply Z.div_pos; lia).
    lia.
  - rewrite convert_nonempty. simpl. split.
    + intros Hspan. exfalso. specialize (Hspan min_pos max_pos Hmin Hmax).
      case_decide; simpl in Hlen; lia.
    + intros _ _ _ _ _. eexists. split; [reflexivity|done].
Qed.

(** On a read whose tags decode, with positive sizes: [process_read]
    raises [IndexError] when no two decoded offsets are window_size apart
    (in particular when there is none), and returns at least one row
    under the read's name as soon as two offsets are. *)
Theorem process_read_outcome rd m :
  parse_ml_mm (MM rd) (ML rd) = Ok m →
  0 < window_size rd → 0 < step_size rd →
  ((∀ p q, is_Some (m !! p) → is_Some (m !! q) → q - p < window_size rd) →
   process_read (Some rd) = Raise IndexError)
  ∧ (∀ p q, is_Some (m !! p) → is_Some (m !! q) → window_size rd ≤ q - p →
     ∃ rows, process_read (Some rd) = Ok (ReadWindows (read_name rd) rows)
           ∧ rows ≠ []).
Proof. apply process_read_cases. Qed.

Lemma process_read_outcome_witness :
  parse_ml_mm
    (MM (MkReadData "chr1" 100 200 false "N+b?,0,2" [255; 128] 2 1 "read1"))
    (ML (MkReadData "chr1" 100 200 false "N+b?,0,2" [255; 128] 2 1 "read1"))
  = Ok (finalize <$> run ∅ (calls [("N+b?"%string, [0; 2])] [255; 128]))
  ∧ 0 < 2 ∧ 0 < 1
  ∧ ((∀ p q,
        is_Some ((finalize <$> run ∅ (calls [("N+b?"%string, [0; 2])] [255; 128])) !! p) →
        is_Some ((finalize <$> run ∅ (calls [("N+b?"%string, [0; 2])] [255; 128])) !! q) →
        q - p < 2) →
     process_read
       (Some (MkReadData "chr1" 100 200 false "N+b?,0,2" [255; 128] 2 1 "read1"))
     = Raise IndexError)
  ∧ (∀ p q,
       is_Some ((finalize <$> run ∅ (calls [("N+b?"%string, [0; 2])] [255; 128])) !! p) →
       is_Some ((finalize <$> run ∅ (calls [("N+b?"%string, [0; 2])] [255; 128])) !! q) →
       2 ≤ q - p →
       ∃ rows,
         process_read
           (Some (MkReadData "chr1" 100 200 false "N+b?,0,2" [255; 128] 2 1 "read1"))
         = Ok (ReadWindows "read1" rows)
         ∧ rows ≠ []).
Proof.
  assert (H : parse_ml_mm "N+b?,0,2" [255; 128]
              = Ok (finalize <$> run ∅ (calls [("N+b?"%string, [0; 2])] [255; 128])))
    by (apply parse_ml_mm_run; [reflexivity|simpl; lia]).
  split; [exact H|]. split; [lia|]. split; [lia|].
  apply (process_read_outcome
           (MkReadData "chr1" 100 200 false "N+b?,0,2" [255; 128] 2 1 "read1"));
    [exact H|simpl; lia|simpl; lia].
Defined.

(** The rows that [process_read] returns, for positive sizes: row i
    carries the reference name, starts at reference_start + 1 + r on the
    forward strand and at reference_end - 1 - r on the reverse strand,
    where r = min_pos + i * step_size and min_pos is the least decoded
    offset, and ends window_size further.  Thus the starts rise by
    step_size from row to row on the forward strand and fall by step_size
    on the reverse strand. *)
Theorem process_read_rows rd name rows :
  process_read (Some rd) = Ok (ReadWindows name rows) →
  0 < window_size rd → 0 < step_size rd →
  ∃ m min_pos,
    parse_ml_mm (MM rd) (ML rd) = Ok m
    ∧ is_Some (m !! min_pos) ∧ (∀ p, is_Some (m !! p) → min_pos ≤ p)
    ∧ name = read_name rd
    ∧ ∀ (i : nat) row, rows !! i = Some row →
        chrom row = reference_name rd
        ∧ g_start row
          = (if is_reverse rd
             then reference_end rd - 1 - (min_pos + Z.of_nat i * step_size rd)
             else reference_start rd + 1 + (min_pos + Z.of_nat i * step_size rd))
        ∧ g_end row = g_start row + window_size rd.
Proof.
  intros Hp Hw Hs.
  apply process_read_Ok_inv in Hp as (m & w0 & rest & Hm & Hws & -> & ->).
  destruct (sorted_keys m) as [|min_pos krest] eqn:Hkeys.
  { apply sorted_keys_nil in Hkeys as ->. done. }
  pose proof (sorted_keys_bounds m min_pos krest Hkeys) as (Hmin & _ & Hb).
  rewrite (compute_sliding_windows_nonempty m min_pos krest) in Hws
    by (done || lia).
  injection Hws as Hws.
  exists m, min_pos. split; [done|]. split; [done|].
  split; [intros p Hpk; by apply Hb|]. split; [done|].
  intros i row Hrow. rewrite list_lookup_fmap in Hrow.
  destruct ((w0 :: rest) !! i) as [w|] eqn:Hwi; simpl in Hrow; [|done].
  injection Hrow as <-. simpl.
  assert (window_end w0 - window_start w0 = window_size rd) as ->.
  { assert (w0 ∈ w0 :: rest) as Hin by left. rewrite <- Hws in Hin.
    apply list_elem_of_fmap in Hin as (s0 & -> & _).
    rewrite window_at_start, window_at_end. lia. }
  rewrite <- Hws in Hwi. rewrite list_lookup_fmap in Hwi.
  rewrite range3_lookup in Hwi by done.
  case_decide; simpl in Hwi; [|done]. injection Hwi as <-.
  rewrite window_at_start. unfold abs_start. split; [done|]. split; done.
Qed.

Lemma process_read_rows_witness :
  process_read (Some Cases.forward_read)
  = Ok (ReadWindows "read1" Cases.forward_rows)
  ∧ 0 < window_size Cases.forward_read ∧ 0 < step_size Cases.forward_read
  ∧ ∃ m min_pos,
      parse_ml_mm (MM Cases.forward_read) (ML Cases.forward_read) = Ok m
      ∧ is_Some (m !! min_pos) ∧ (∀ p, is_Some (m !! p) → min_pos ≤ p)
      ∧ "read1"%string = read_name Cases.forward_read
      ∧ ∀ (i : nat) row, Cases.forward_rows !! i = Some row →
          chrom row = reference_name Cases.forward_read
          ∧ g_start row
            = (if is_reverse Cases.forward_read
               then reference_end Cases.forward_read - 1
                    - (min_pos + Z.of_nat i * step_size Cases.forward_read)
               else reference_start Cases.forward_read + 1
                    + (min_pos + Z.of_nat i * step_size Cases.forward_read))
          ∧ g_end row = g_start row + window_size Cases.forward_read.
Proof.
  assert (H : process_read (Some Cases.forward_read)
              = Ok (ReadWindows "read1" Cases.forward_rows)) by by_evaluation.
  assert (Hw : 0 < window_size Cases.forward_read) by (simpl; lia).
  assert (Hs : 0 < step_size Cases.forward_read) by (simpl; lia).
  split; [exact H|]. split; [exact Hw|]. split; [exact Hs|].
  exact (process_read_rows Cases.forward_read "read1" Cases.forward_rows
           H Hw Hs).
Defined.

End reads.

(** ** The batch driver *)

Section batch.
Import TagDecoder WindowAggregator CoordinateMapper Batch.

(** *** [traverse] *)

Lemma traverse_Ok_Forall2 {A B} (f : A → result B) l : ∀ out,
  traverse f l = Ok out ↔ Forall2 (λ a b, f a = Ok b) l out.
Proof.
  induction l as [|a l IH]; intros out; simpl.
  - split; [intros [= <-]; constructor|]. by intros ->%Forall2_nil_inv_l.
  - destruct (f a) as [b|e] eqn:Hb; simpl.
    + destruct (traverse f l) as [bs|e] eqn:Hbs; simpl.
      * split.
        -- intros [= <-]. constructor; [done|]. by apply IH.
        -- intros (b' & bs' & Hb' & Hbs' & ->)%Forall2_cons_inv_l.
           apply IH in Hbs'. congruence.
      * split; [done|].
        intros (b' & bs' & Hb' & Hbs' & ->)%Forall2_cons_inv_l.
        apply IH in Hbs'. congruence.
    + split; [done|].
      intros (b' & bs' & Hb' & Hbs' & ->)%Forall2_cons_inv_l. congruence.
Qed.

(** The first exception in the order of the list is the one raised. *)
Lemma traverse_Raise_first {A B} (f : A → result B) pre a post e :
  Forall (λ x, ∃ b, f x = Ok b) pre → f a = Raise e →
  traverse f (pre ++ a :: post) = Raise e.
Proof.
  induction 1 as [|x pre [b Hx] Hpre IH]; intros Ha; simpl.
  - by rewrite Ha.
  - rewrite Hx. simpl. by rewrite IH.
Qed.

Lemma traverse_raises_elem {A B} (f : A → result B) l a :
  a ∈ l → raises (f a) → raises (traverse f l).
Proof.
  induction l as [|x l IH]; intros Ha Hr; [by apply elem_of_nil in Ha|].
  simpl. destruct (f x) as [b|e] eqn:Hx; simpl; [|by exists e].
  apply elem_of_cons in Ha as [->|Ha].
  - destruct Hr as [e He]. congruence.
  - destruct (IH Ha Hr) as [e ->]. by exists e.
Qed.

(** *** Which reads are processed *)

Lemma omap_extract_valid reads w s :
  Forall (λ read, is_Some (extract_read_data read w s)) reads →
  read_name <$> omap (λ read, (λ e, with_name e (query_name read))
                                 <$> extract_read_data read w s) reads
  = query_name <$> reads.
Proof.
  induction 1 as [|read reads [e He] Hreads IH]; simpl; [done|].
  rewrite He. simpl. f_equal. exact IH.
Qed.

Lemma length_omap_valid reads w s :
  Forall (λ read, is_Some (extract_read_data read w s)) reads →
  length (omap (λ read, (λ e, with_name e (query_name read))
                          <$> extract_read_data read w s) reads)
  = length reads.
Proof.
  intros H. rewrite <- (length_fmap read_name), omap_extract_valid by done.
  by rewrite length_fmap.
Qed.

Lemma filter_sublist {A} (f : A → bool) l : List.filter f l `sublist_of` l.
Proof.
  induction l as [|a l IH]; simpl; [constructor|].
  destruct (f a); by constructor.
Qed.

Lemma Forall_filter_bool {A} (f : A → bool) l :
  Forall (λ a, f a = true) (List.filter f l).
Proof.
  induction l as [|a l IH]; simpl; [constructor|].
  destruct (f a) eqn:Ha; [constructor|]; done.
Qed.

(** The tuples handed to the pool: [read_data_list] raises exactly when
    num_reads is negative.  Otherwise each tuple is made of a read of the
    chunk that carries both tags, with these tags, the name of the read
    and the two sizes; the reads are taken in their order, a read without
    one of the tags being passed over, and no more than num_reads of them
    are taken. *)
Theorem read_data_list_spec chunks window_size step_size num_reads :
  (raises (read_data_list chunks window_size step_size num_reads)
   ↔ ∃ n, num_reads = Some n ∧ n < 0)
  ∧ ∀ tasks,
      read_data_list chunks window_size step_size num_reads = Ok tasks →
      (∀ rd, rd ∈ tasks →
         ∃ read, read ∈ chunks
           ∧ tag_MM read = Some (MM rd) ∧ tag_ML read = Some (ML rd)
           ∧ read_name rd = query_name read
           ∧ reference_name rd = a_reference_name read
           ∧ reference_start rd = a_reference_start read
           ∧ reference_end rd = a_reference_end read
           ∧ is_reverse rd = a_is_reverse read
           ∧ CoordinateMapper.window_size rd = window_size
           ∧ CoordinateMapper.step_size rd = step_size)
      ∧ read_name <$> tasks `sublist_of` query_name <$> chunks
      ∧ (∀ n, num_reads = Some n → Z.of_nat (length tasks) ≤ n)
      ∧ (num_reads = None →
         read_name <$> tasks
         = query_name
             <$> List.filter (λ read, bool_decide (is_Some (tag_MM read)
                                                   ∧ is_Some (tag_ML read)))
                             chunks).
Proof.
  set (valid := List.filter
                  (λ read, bool_decide
                     (is_Some (extract_read_data read window_size step_size)))
                  chunks).
  assert (Hvalid : Forall (λ read,
              is_Some (extract_read_data read window_size step_size)) valid).
  { eapply Forall_impl; [apply Forall_filter_bool|]. simpl.
    intros read H. by apply bool_decide_eq_true in H. }
  assert (Hext : ∀ read, is_Some (extract_read_data read window_size step_size)
                         ↔ is_Some (tag_MM read) ∧ is_Some (tag_ML read)).
  { intros read. unfold extract_read_data.
    destruct (tag_MM read), (tag_ML read); split;
      try (intros [? ?]; done); try (intros [[? ?] [? ?]]; done); eauto. }
  unfold read_data_list. fold valid. split.
  - destruct num_reads as [n|]; simpl.
    + destruct (Z.ltb_spec n 0); simpl.
      * split; [eauto|]. intros _. by eexists.
      * split; [intros [e He]; done|]. intros (n' & [= <-] & Hn). lia.
    + split; [intros [e He]; done|]. intros (n' & Hn & _). done.
  - intros tasks Htasks.
    assert (∃ reads, islice valid num_reads = Ok reads
                     ∧ reads `sublist_of` valid
                     ∧ (∀ n, num_reads = Some n → Z.of_nat (length reads) ≤ n)
                     ∧ (num_reads = None → reads = valid))
      as (reads & Hreads & Hsub & Hn & Hall).
    { destruct num_reads as [n|]; simpl in *.
      - destruct (Z.ltb_spec n 0); simpl in *; [done|].
        eexists. split; [done|]. split; [apply sublist_take|].
        split; [|done]. intros n' [= <-]. rewrite length_take. lia.
      - eexists. split; [done|]. split; [done|]. split; done. }
    rewrite Hreads in Htasks. simpl in Htasks. injection Htasks as <-.
    assert (Hrv : Forall (λ read,
              is_Some (extract_read_data read window_size step_size)) reads).
    { rewrite Forall_forall in Hvalid |- *. intros read Hr.
      apply Hvalid. by eapply elem_of_sublist. }
    split; [|split; [|split]].
    + intros rd Hrd. apply list_elem_of_omap in Hrd as (read & Hr & Hrd).
      destruct (extract_read_data read window_size step_size) as [e|] eqn:He;
        simpl in Hrd; [|done].
      injection Hrd as <-. exists read. split.
      { apply (λ H, elem_of_sublist _ _ _ H Hsub) in Hr.
        unfold valid in Hr. apply list_elem_of_In, filter_In in Hr as [Hr _].
        by apply list_elem_of_In. }
      unfold extract_read_data in He.
      destruct (tag_MM read), (tag_ML read); try done.
      injection He as <-. simpl. done.
    + rewrite omap_extract_valid by done.
      apply fmap_sublist. etrans; [exact Hsub|]. apply filter_sublist.
    + intros n Hnum. rewrite length_omap_valid by done. by apply Hn.
    + intros Hnone. rewrite omap_extract_valid by done.
      rewrite (Hall Hnone). unfold valid. f_equal.
      clear -Hext. induction chunks as [|read chunks IH]; simpl; [done|].
      rewrite IH. by rewrite (bool_decide_ext _ _ (Hext read)).
Qed.

Lemma read_data_list_spec_witness :
  (raises (read_data_list Cases.bam 2 1 (Some 1))
   ↔ ∃ n, Some 1 = Some n ∧ n < 0)
  ∧ ∀ tasks,
      read_data_list Cases.bam 2 1 (Some 1) = Ok tasks →
      (∀ rd, rd ∈ tasks →
         ∃ read, read ∈ Cases.bam
           ∧ tag_MM read = Some (MM rd) ∧ tag_ML read = Some (ML rd)
           ∧ read_name rd = query_name read
           ∧ reference_name rd = a_reference_name read
           ∧ reference_start rd = a_reference_start read
           ∧ reference_end rd = a_reference_end read
           ∧ is_reverse rd = a_is_reverse read
           ∧ CoordinateMapper.window_size rd = 2
           ∧ CoordinateMapper.step_size rd = 1)
      ∧ read_name <$> tasks `sublist_of` query_name <$> Cases.bam
      ∧ (∀ n, Some 1 = Some n → Z.of_nat (length tasks) ≤ n)
      ∧ (Some 1 = None →
         read_name <$> tasks
         = query_name
             <$> List.filter (λ read, bool_decide (is_Some (tag_MM read)
                                                   ∧ is_Some (tag_ML read)))
                             Cases.bam).
Proof. exact (read_data_list_spec Cases.bam 2 1 (Some 1)). Defined.

(** *** What the batch returns *)

Section outputs.
Variable format_6f : Q → string.
Variables (bamfile fetched : list AlignedRead)
          (filtered_bed : option (list string))
          (brdu_output edu_output : string) (window_size step_size : Z)
          (num_reads : option Z) (write_wig_flag : bool).

Local Abbreviation tasks_of :=
  (read_data_list (read_chunks filtered_bed bamfile fetched)
     window_size step_size num_reads).

Local Abbreviation run_batch output_per_read :=
  (process_bam_and_write_bedgraphs format_6f bamfile fetched filtered_bed
     brdu_output edu_output window_size step_size num_reads
     output_per_read write_wig_flag).

Local Abbreviation write output_per_read :=
  (write_results format_6f brdu_output edu_output output_per_read
     write_wig_flag).

Local Abbreviation per_read_group :=
  (λ (rd : ReadData) (rows : list GenomicWindow),
     [(brdu_output +:+ "_" +:+ read_name rd +:+ ".bedgraph",
       (write_bedgraphs format_6f rows).1);
      (edu_output +:+ "_" +:+ read_name rd +:+ ".bedgraph",
       (write_bedgraphs format_6f rows).2)]
     ++ (if write_wig_flag then
           [(brdu_output +:+ "_" +:+ read_name rd +:+ ".wig",
             write_wig format_6f
               (default ""%string (chrom <$> head rows))
               (default 0 (g_start <$> head rows))
               (g_brdu <$> rows));
            (edu_output +:+ "_" +:+ read_name rd +:+ ".wig",
             write_wig format_6f
               (default ""%string (chrom <$> head rows))
               (default 0 (g_start <$> head rows))
               (g_edu <$> rows))]
         else [])).

(** The results of the pool: those of the reads before the first one
    on which [process_read] raises [StopIteration], if there is one. *)
Lemma pool_imap_results tasks results :
  pool_imap tasks = Ok results →
  ∃ processed rest rows_per_read,
    tasks = processed ++ rest
    ∧ (rest = []
       ∨ ∃ rd rest', rest = rd :: rest'
           ∧ process_read (Some rd) = Raise StopIteration)
    ∧ results = zip_with ReadWindows (read_name <$> processed) rows_per_read
    ∧ length rows_per_read = length processed
    ∧ Forall2 (λ rd rows,
                 process_read (Some rd) = Ok (ReadWindows (read_name rd) rows)
                 ∧ rows ≠ []) processed rows_per_read.
Proof.
  revert results.
  induction tasks as [|rd tasks IH]; intros results; cbn [pool_imap].
  - intros [= <-]. exists [], [], []. repeat split; auto.
  - destruct (process_read (Some rd)) as [r|e] eqn:Hr.
    + destruct (pool_imap tasks) as [rs|e] eqn:Hrs; cbn [Py.bind]; [|done].
      intros [= <-].
      destruct (IH rs eq_refl) as (processed & rest & rpr & -> & Hrest & -> & Hlen & Hall).
      destruct (process_read_Ok_rows rd r Hr) as (rows & -> & Hne).
      exists (rd :: processed), rest, (rows :: rpr).
      split; [done|]. split; [done|]. split; [done|].
      split; [simpl; by rewrite Hlen|]. by constructor.
    + destruct e; try done. intros [= <-].
      exists [], (rd :: tasks), []. split; [done|].
      split; [right; eauto|]. split; [done|]. split; [done|constructor].
Qed.

Lemma pool_imap_first_failure pre rd post e :
  Forall (λ t, ∃ r, process_read (Some t) = Ok r) pre →
  process_read (Some rd) = Raise e →
  (e ≠ StopIteration → pool_imap (pre ++ rd :: post) = Raise e)
  ∧ (e = StopIteration →
     pool_imap (pre ++ rd :: post)
     = traverse (λ t, process_read (Some t)) pre).
Proof.
  intros Hpre Hrd.
  induction Hpre as [|t pre [r Ht] _ [IH1 IH2]];
    cbn [app pool_imap traverse].
  - rewrite Hrd. split; [|by intros ->]. intros He. by destruct e.
  - rewrite Ht. cbn [Py.bind]. split.
    + intros He. by rewrite IH1.
    + intros He. by rewrite IH2.
Qed.

Lemma write_results_combined processed rows_per_read :
  length rows_per_read = length processed →
  write false (zip_with ReadWindows (read_name <$> processed) rows_per_read)
  = Ok [(brdu_output,
         (λ w, bedgraph_line format_6f (chrom w) (g_start w) (g_end w)
                 (g_brdu w)) <$> mjoin rows_per_read);
        (edu_output,
         (λ w, bedgraph_line format_6f (chrom w) (g_start w) (g_end w)
                 (g_edu w)) <$> mjoin rows_per_read)].
Proof.
  intros Hlen. unfold write_results.
  assert (traverse windows_of
            (zip_with ReadWindows (read_name <$> processed) rows_per_read)
          = Ok rows_per_read) as ->; [|done].
  apply traverse_Ok_Forall2.
  revert rows_per_read Hlen. induction processed as [|rd processed IH];
    intros [|rows rpr] Hlen; simpl in *; try lia; constructor; [done|].
  apply IH. lia.
Qed.

Lemma write_results_per_read processed rows_per_read :
  Forall2 (λ (rd : ReadData) (rows : list GenomicWindow), rows ≠ [])
          processed rows_per_read →
  write true (zip_with ReadWindows (read_name <$> processed) rows_per_read)
  = Ok (mjoin (zip_with per_read_group processed rows_per_read)).
Proof.
  intros Hall. unfold write_results.
  assert (traverse (per_read_files format_6f brdu_output edu_output
                      write_wig_flag)
            (zip_with ReadWindows (read_name <$> processed) rows_per_read)
          = Ok (zip_with per_read_group processed rows_per_read)) as ->;
    [|done].
  apply traverse_Ok_Forall2.
  induction Hall as [|rd rows processed rpr Hne _ IH]; simpl;
    constructor; [|done].
  unfold per_read_files. destruct write_wig_flag; [|done].
  destruct rows as [|w0 rows]; [done|]. done.
Qed.

Lemma run_batch_steps (output_per_read : bool) tasks :
  dirname brdu_output ≠ ""%string → dirname edu_output ≠ ""%string →
  tasks_of = Ok tasks →
  run_batch output_per_read
  = Py.bind (pool_imap tasks) (write output_per_read).
Proof.
  intros Hb He Htasks. unfold process_bam_and_write_bedgraphs, makedirs.
  destruct (dirname brdu_output); [done|].
  destruct (dirname edu_output); [done|]. simpl. by rewrite Htasks.
Qed.

(** [os.makedirs] refuses the empty directory name of an output path
    without a directory part, before any read is looked at. *)
Lemma run_batch_bare_path (output_per_read : bool) :
  dirname brdu_output = ""%string ∨ dirname edu_output = ""%string →
  run_batch output_per_read = Raise FileNotFoundError.
Proof.
  unfold process_bam_and_write_bedgraphs, makedirs.
  intros [H|H]; rewrite H; [done|]. by destruct (dirname brdu_output).
Qed.

Lemma run_batch_returns (output_per_read : bool) files :
  run_batch output_per_read = Ok files →
  dirname brdu_output ≠ ""%string ∧ dirname edu_output ≠ ""%string
  ∧ ∃ tasks results,
      tasks_of = Ok tasks ∧ pool_imap tasks = Ok results
      ∧ write output_per_read results = Ok files.
Proof.
  unfold process_bam_and_write_bedgraphs, makedirs.
  destruct (dirname brdu_output); [done|].
  destruct (dirname edu_output); [done|]. simpl.
  destruct tasks_of as [tasks|]; simpl; [|done].
  destruct (pool_imap tasks) as [results|] eqn:Hres; simpl; [|done].
  intros Hw. split; [done|]. split; [done|]. eauto.
Qed.

(** The first read, in order, on which [process_read] raises decides
    the run (both output paths having a directory part).  An exception
    other than [StopIteration] is raised by the run, in either output
    mode, before any file is written.  [StopIteration] ends the
    iteration over the results without a word: the run returns, and
    has written what the reads before that one give, and nothing of
    the reads after it.  A read whose decoded offsets span less than
    the window size (positive sizes) is of the first kind, with
    [IndexError]; a read with fewer bytes than positions is of the
    second. *)
Theorem process_bam_first_failure tasks pre rd post e
    (output_per_read : bool) :
  dirname brdu_output ≠ ""%string → dirname edu_output ≠ ""%string →
  tasks_of = Ok tasks →
  tasks = pre ++ rd :: post →
  Forall (λ t, ∃ r, process_read (Some t) = Ok r) pre →
  process_read (Some rd) = Raise e →
  (e ≠ StopIteration → run_batch output_per_read = Raise e)
  ∧ (e = StopIteration →
     ∃ results files,
       traverse (λ t, process_read (Some t)) pre = Ok results
       ∧ write output_per_read results = Ok files
       ∧ run_batch output_per_read = Ok files)
  ∧ (∀ m, parse_ml_mm (MM rd) (ML rd) = Ok m →
       0 < CoordinateMapper.window_size rd →
       0 < CoordinateMapper.step_size rd →
       (∀ p q, is_Some (m !! p) → is_Some (m !! q) →
               q - p < CoordinateMapper.window_size rd) →
       e = IndexError)
  ∧ (∀ groups, TagCalls.tag_groups (MM rd) = Ok groups →
       (length (ML rd) < TagCalls.position_count groups)%nat →
       e = StopIteration).
Proof.
  intros Hb He Htasks -> Hpre Hrd.
  rewrite (run_batch_steps output_per_read _ Hb He Htasks).
  destruct (pool_imap_first_failure pre rd post e Hpre Hrd) as [Hraise Hstop].
  split; [|split; [|split]].
  - intros Hne. by rewrite (Hraise Hne).
  - intros ->. rewrite (Hstop eq_refl).
    assert (∃ results, traverse (λ t, process_read (Some t)) pre = Ok results)
      as [results Hres].
    { clear -Hpre.
      induction Hpre as [|t pre [r Ht] _ [rs IH]]; cbn [traverse];
        [by eexists|]. rewrite Ht, IH. cbn [Py.bind]. by eexists. }
    rewrite Hres. cbn [Py.bind].
    apply traverse_Ok_Forall2 in Hres.
    assert (∃ rpr, results = zip_with ReadWindows (read_name <$> pre) rpr
                   ∧ length rpr = length pre
                   ∧ Forall2 (λ (rd : ReadData) (rows : list GenomicWindow),
                                rows ≠ []) pre rpr)
      as (rpr & -> & Hlen & Hne).
    { clear -Hres. induction Hres as [|t r pre results Ht _ (rpr & -> & Hl & Hn)].
      - exists []. split; [done|]. split; [done|constructor].
      - destruct (process_read_Ok_rows t r Ht) as (rows & -> & Hrows).
        exists (rows :: rpr). split; [done|].
        split; [simpl; by rewrite Hl|by constructor]. }
    destruct output_per_read.
    + eexists _, _. split; [done|].
      by rewrite (write_results_per_read pre rpr Hne).
    + eexists _, _. split; [done|].
      by rewrite (write_results_combined pre rpr Hlen).
  - intros m Hm Hw Hs Hspan.
    pose proof (proj1 (process_read_cases rd m Hm Hw Hs) Hspan) as Hidx.
    congruence.
  - intros groups Hg Hshort.
    pose proof (process_read_propagates rd _
                  (parse_ml_mm_short _ _ groups Hg Hshort)) as Hstop'.
    congruence.
Qed.

(** In the combined mode a run that returns has written exactly two
    files, the BrdU file and the EdU file, of the same number of lines:
    one line per window of each processed read, the reads in their
    order.  The processed reads are all the reads handed to the pool,
    or those before the first one on which [process_read] raises
    [StopIteration].  Each processed read has at least one window, so
    neither file has fewer lines than there are processed reads. *)
Theorem process_bam_combined files :
  run_batch false = Ok files →
  dirname brdu_output ≠ ""%string ∧ dirname edu_output ≠ ""%string
  ∧ ∃ tasks processed rest rows_per_read,
    tasks_of = Ok tasks
    ∧ tasks = processed ++ rest
    ∧ (rest = []
       ∨ ∃ rd rest', rest = rd :: rest'
           ∧ process_read (Some rd) = Raise StopIteration)
    ∧ Forall2 (λ rd rows,
                 process_read (Some rd) = Ok (ReadWindows (read_name rd) rows)
                 ∧ rows ≠ []) processed rows_per_read
    ∧ files
      = [(brdu_output,
          (λ w, bedgraph_line format_6f (chrom w) (g_start w) (g_end w)
                  (g_brdu w)) <$> mjoin rows_per_read);
         (edu_output,
          (λ w, bedgraph_line format_6f (chrom w) (g_start w) (g_end w)
                  (g_edu w)) <$> mjoin rows_per_read)]
    ∧ (length processed ≤ length (mjoin rows_per_read))%nat.
Proof.
  intros Hrun.
  destruct (run_batch_returns false files Hrun)
    as (Hb & He & tasks & results & Htasks & Hres & Hw).
  split; [done|]. split; [done|].
  destruct (pool_imap_results tasks results Hres)
    as (processed & rest & rpr & Hsplit & Hrest & -> & Hlen & Hall).
  rewrite (write_results_combined processed rpr Hlen) in Hw.
  injection Hw as <-.
  exists tasks, processed, rest, rpr.
  split; [done|]. split; [done|]. split; [done|]. split; [done|].
  split; [done|].
  clear -Hall. induction Hall as [|rd rows tasks rpr [_ Hne] _ IH];
    simpl; [lia|].
  rewrite length_app. destruct rows; [done|]. simpl. lia.
Qed.

(** In the per-read mode a run that returns has written, for each
    processed read in order, the BrdU and the EdU bedgraph named after
    the read, each with one line per window, and then, when WIG files
    are asked for, the two WIG files, each with a header line and one
    line per window: the test [if windows] never fails, since a read
    that is processed has at least one window.  The processed reads
    are all the reads handed to the pool, or those before the first
    one on which [process_read] raises [StopIteration]. *)
Theorem process_bam_per_read files :
  run_batch true = Ok files →
  dirname brdu_output ≠ ""%string ∧ dirname edu_output ≠ ""%string
  ∧ ∃ tasks processed rest rows_per_read,
    tasks_of = Ok tasks
    ∧ tasks = processed ++ rest
    ∧ (rest = []
       ∨ ∃ rd rest', rest = rd :: rest'
           ∧ process_read (Some rd) = Raise StopIteration)
    ∧ Forall2 (λ rd rows,
                 process_read (Some rd) = Ok (ReadWindows (read_name rd) rows)
                 ∧ rows ≠ []) processed rows_per_read
    ∧ files
      = mjoin (zip_with
          (λ rd rows,
             [(brdu_output +:+ "_" +:+ read_name rd +:+ ".bedgraph",
               (write_bedgraphs format_6f rows).1);
              (edu_output +:+ "_" +:+ read_name rd +:+ ".bedgraph",
               (write_bedgraphs format_6f rows).2)]
             ++ (if write_wig_flag then
                   [(brdu_output +:+ "_" +:+ read_name rd +:+ ".wig",
                     write_wig format_6f
                       (default ""%string (chrom <$> head rows))
                       (default 0 (g_start <$> head rows))
                       (g_brdu <$> rows));
                    (edu_output +:+ "_" +:+ read_name rd +:+ ".wig",
                     write_wig format_6f
                       (default ""%string (chrom <$> head rows))
                       (default 0 (g_start <$> head rows))
                       (g_edu <$> rows))]
                 else []))
          processed rows_per_read)
    ∧ length files
      = ((if write_wig_flag then 4 else 2) * length processed)%nat.
Proof.
  intros Hrun.
  destruct (run_batch_returns true files Hrun)
    as (Hb & He & tasks & results & Htasks & Hres & Hw).
  split; [done|]. split; [done|].
  destruct (pool_imap_results tasks results Hres)
    as (processed & rest & rpr & Hsplit & Hrest & -> & Hlen & Hall).
  rewrite (write_results_per_read processed rpr) in Hw
    by (eapply Forall2_impl; [exact Hall|]; by intros ? ? [_ ?]).
  injection Hw as <-.
  exists tasks, processed, rest, rpr.
  split; [done|]. split; [done|]. split; [done|]. split; [done|].
  split; [done|].
  clear -Hlen. revert rpr Hlen.
  induction processed as [|rd processed IH]; intros [|rows rpr] Hlen;
    simpl in *; try lia.
  rewrite length_app, IH by lia.
  destruct write_wig_flag; simpl; lia.
Qed.

End outputs.

Lemma process_bam_first_failure_witness :
  let run :=
    process_bam_and_write_bedgraphs Cases.millionths []
      Cases.bam_with_short_ML None "out/brdu.bedgraph" "out/edu.bedgraph"
      2 1 None false true in
  let write :=
    write_results Cases.millionths "out/brdu.bedgraph" "out/edu.bedgraph"
      false true in
  let pre := take 1 Cases.tasks_with_short_ML in
  let rd := Cases.short_ML_task in
  Cases.tasks_with_short_ML = pre ++ rd :: drop 2 Cases.tasks_with_short_ML
  ∧ process_read (Some rd) = Raise StopIteration
  ∧ (StopIteration ≠ StopIteration → run = Raise StopIteration)
  ∧ (StopIteration = StopIteration →
     ∃ results files,
       traverse (λ t, process_read (Some t)) pre = Ok results
       ∧ write results = Ok files
       ∧ run = Ok files)
  ∧ (∀ m, parse_ml_mm (MM rd) (ML rd) = Ok m →
       0 < CoordinateMapper.window_size rd →
       0 < CoordinateMapper.step_size rd →
       (∀ p q, is_Some (m !! p) → is_Some (m !! q) →
               q - p < CoordinateMapper.window_size rd) →
       StopIteration = IndexError)
  ∧ (∀ groups, TagCalls.tag_groups (MM rd) = Ok groups →
       (length (ML rd) < TagCalls.position_count groups)%nat →
       StopIteration = StopIteration).
Proof.
  intros run write pre rd.
  assert (Hsplit : Cases.tasks_with_short_ML
                   = pre ++ rd :: drop 2 Cases.tasks_with_short_ML)
    by by_evaluation.
  assert (Hrd : process_read (Some rd) = Raise StopIteration)
    by by_evaluation.
  split; [exact Hsplit|]. split; [exact Hrd|].
  apply (process_bam_first_failure Cases.millionths []
           Cases.bam_with_short_ML None "out/brdu.bedgraph"
           "out/edu.bedgraph" 2 1 None true Cases.tasks_with_short_ML
           pre rd (drop 2 Cases.tasks_with_short_ML) StopIteration false).
  - vm_compute. discriminate.
  - vm_compute. discriminate.
  - by_evaluation.
  - exact Hsplit.
  - constructor; [|constructor]. eexists. by_evaluation.
  - exact Hrd.
Defined.

(** The run on the three reads of which the second has a short [ML]
    returns, having written what the first read alone gives; a read of
    too short a span makes the run raise [IndexError]; an output path
    without a directory part makes it raise before any read is looked
    at. *)
Example process_bam_cases :
  let run bamfile brdu_output output_per_read :=
    process_bam_and_write_bedgraphs Cases.millionths [] bamfile None
      brdu_output "out/edu.bedgraph" 2 1 None output_per_read true in
  (∀ output_per_read,
     run Cases.bam_with_short_ML "out/brdu.bedgraph" output_per_read
     = run (take 1 Cases.bam_with_short_ML) "out/brdu.bedgraph"
         output_per_read)
  ∧ run Cases.bam_with_short_ML "out/brdu.bedgraph" false
    ≠ run Cases.bam "out/brdu.bedgraph" false
  ∧ (∀ output_per_read,
       run Cases.bam_with_short_read "out/brdu.bedgraph" output_per_read
       = Raise IndexError)
  ∧ (∀ output_per_read,
       run Cases.bam "brdu.bedgraph" output_per_read
       = Raise FileNotFoundError).
Proof.
  intros run. split; [|split; [|split]].
  - intros []; by_evaluation.
  - vm_compute. discriminate.
  - intros []; by_evaluation.
  - intros []; by_evaluation.
Qed.

Lemma process_bam_combined_witness :
  process_bam_and_write_bedgraphs Cases.millionths [] Cases.bam None
    "out/brdu.bedgraph" "out/edu.bedgraph" 2 1 None false true
  = Ok Cases.combined_files
  ∧ dirname "out/brdu.bedgraph" ≠ ""%string
  ∧ dirname "out/edu.bedgraph" ≠ ""%string
  ∧ ∃ tasks processed rest rows_per_read,
      read_data_list (read_chunks None [] Cases.bam) 2 1 None = Ok tasks
      ∧ tasks = processed ++ rest
      ∧ (rest = []
         ∨ ∃ rd rest', rest = rd :: rest'
             ∧ process_read (Some rd) = Raise StopIteration)
      ∧ Forall2 (λ rd rows,
                   process_read (Some rd) = Ok (ReadWindows (read_name rd) rows)
                   ∧ rows ≠ []) processed rows_per_read
      ∧ Cases.combined_files
        = [("out/brdu.bedgraph"%string,
            (λ w, bedgraph_line Cases.millionths (chrom w) (g_start w)
                    (g_end w) (g_brdu w)) <$> mjoin rows_per_read);
           ("out/edu.bedgraph"%string,
            (λ w, bedgraph_line Cases.millionths (chrom w) (g_start w)
                    (g_end w) (g_edu w)) <$> mjoin rows_per_read)]
      ∧ (length processed ≤ length (mjoin rows_per_read))%nat.
Proof.
  assert (H : process_bam_and_write_bedgraphs Cases.millionths [] Cases.bam
                None "out/brdu.bedgraph" "out/edu.bedgraph" 2 1 None false true
              = Ok Cases.combined_files) by by_evaluation.
  split; [exact H|].
  exact (process_bam_combined Cases.millionths [] Cases.bam None
           "out/brdu.bedgraph" "out/edu.bedgraph" 2 1 None true
           Cases.combined_files H).
Defined.

Lemma process_bam_per_read_witness :
  process_bam_and_write_bedgraphs Cases.millionths [] Cases.bam None
    "out/brdu" "out/edu" 2 1 None true true
  = Ok Cases.per_read_files
  ∧ dirname "out/brdu" ≠ ""%string
  ∧ dirname "out/edu" ≠ ""%string
  ∧ ∃ tasks processed rest rows_per_read,
      read_data_list (read_chunks None [] Cases.bam) 2 1 None = Ok tasks
      ∧ tasks = processed ++ rest
      ∧ (rest = []
         ∨ ∃ rd rest', rest = rd :: rest'
             ∧ process_read (Some rd) = Raise StopIteration)
      ∧ Forall2 (λ rd rows,
                   process_read (Some rd) = Ok (ReadWindows (read_name rd) rows)
                   ∧ rows ≠ []) processed rows_per_read
      ∧ Cases.per_read_files
        = mjoin (zip_with
            (λ rd rows,
               [("out/brdu" +:+ "_" +:+ read_name rd +:+ ".bedgraph",
                 (write_bedgraphs Cases.millionths rows).1);
                ("out/edu" +:+ "_" +:+ read_name rd +:+ ".bedgraph",
                 (write_bedgraphs Cases.millionths rows).2)]
               ++ (if true then
                     [("out/brdu" +:+ "_" +:+ read_name rd +:+ ".wig",
                       write_wig Cases.millionths
                         (default ""%string (chrom <$> head rows))
                         (default 0 (g_start <$> head rows))
                         (g_brdu <$> rows));
                      ("out/edu" +:+ "_" +:+ read_name rd +:+ ".wig",
                       write_wig Cases.millionths
                         (default ""%string (chrom <$> head rows))
                         (default 0 (g_start <$> head rows))
                         (g_edu <$> rows))]
                   else []))
            processed rows_per_read)
      ∧ length Cases.per_read_files
        = ((if true then 4 else 2) * length processed)%nat.
Proof.
  assert (H : process_bam_and_write_bedgraphs Cases.millionths [] Cases.bam
                None "out/brdu" "out/edu" 2 1 None true true
              = Ok Cases.per_read_files) by by_evaluation.
  split; [exact H|].
  exact (process_bam_per_read Cases.millionths [] Cases.bam None
           "out/brdu" "out/edu" 2 1 None true Cases.per_read_files H).
Defined.

End batch.

(** ** The fork filter *)

Section forks.
Import ForkFilter.

Lemma filter_bool_ext {A} (f g : A → bool) l :
  (∀ a, a ∈ l → f a = g a) → List.filter f l = List.filter g l.
Proof.
  induction l as [|a l IH]; intros H; simpl; [done|].
  rewrite (H a) by left. rewrite IH by (intros b Hb; apply H; by right).
  done.
Qed.

(** A stripped string has no white space at its ends. *)
Lemma rstrip_idemp s : rstrip (rstrip s) = rstrip s.
Proof.
  induction s as [|c s IH]; simpl; [done|].
  destruct (rstrip s) as [|c' r] eqn:Hr.
  - destruct (is_space c) eqn:Hc; simpl; [done|]. by rewrite Hc.
  - simpl in *. by rewrite IH.
Qed.

Lemma lstrip_head s :
  lstrip s = EmptyString
  ∨ ∃ c s', lstrip s = String c s' ∧ is_space c = false.
Proof.
  induction s as [|c s IH]; simpl; [by left|].
  destruct (is_space c) eqn:Hc; [done|]. right. eauto.
Qed.

Lemma lstrip_rstrip_head c s :
  is_space c = false → lstrip (rstrip (String c s)) = rstrip (String c s).
Proof.
  intros Hc. simpl. destruct (rstrip s); rewrite ?Hc; simpl; by rewrite Hc.
Qed.

Lemma strip_idemp s :
  rstrip (lstrip (rstrip (lstrip s))) = rstrip (lstrip s).
Proof.
  destruct (lstrip_head s) as [->|(c & s' & -> & Hc)]; [done|].
  rewrite lstrip_rstrip_head by done. apply rstrip_idemp.
Qed.

Lemma stripped_ids_fixed df s :
  s ∈ stripped_ids df → rstrip (lstrip s) = s.
Proof.
  unfold stripped_ids. rewrite elem_of_list_to_set, list_elem_of_fmap.
  intros (r & -> & _). apply strip_idemp.
Qed.

(** The result is the left rows followed by the right rows, order and
    repetitions kept, without those whose read id is not text and those
    whose read id is not in the set of stripped ids less the stripped
    ids of the origin and termination rows.  So a row whose read id
    [read_csv] has not kept as text -- a number, a missing value -- is
    dropped whatever the origin and termination tables hold; a row whose
    read id is text without white space at its ends is kept exactly when
    that id is not, once stripped, the id of an origin or termination
    row; a read called in both fork files stays twice, and a read with
    an origin or a termination call loses all its rows.  Filtering the
    result again changes nothing. *)
Theorem get_merged_forks_filtered_spec left_df right_df origin_df termination_df :
  let merged_ids := stripped_ids (left_df ++ right_df) in
  let excluded := stripped_ids (origin_df ++ termination_df) in
  let kept r :=
    match read_id r with
    | Text s => bool_decide (s ∈ merged_ids ∧ s ∉ excluded)
    | NotText _ => false
    end in
  let out := get_merged_forks_filtered left_df right_df origin_df termination_df in
  out = List.filter kept left_df ++ List.filter kept right_df
  ∧ out `sublist_of` left_df ++ right_df
  ∧ (∀ r, r ∈ out →
       ∃ s, read_id r = Text s ∧ rstrip (lstrip s) = s ∧ s ∉ excluded)
  ∧ (∀ r as_str, read_id r = NotText as_str → r ∉ out)
  ∧ (∀ r s, r ∈ left_df ++ right_df → read_id r = Text s →
       rstrip (lstrip s) = s → (r ∈ out ↔ s ∉ excluded))
  ∧ get_merged_forks_filtered out [] origin_df termination_df = out.
Proof.
  intros merged_ids excluded kept out.
  assert (Hout : out = List.filter kept (left_df ++ right_df)).
  { unfold out, get_merged_forks_filtered. apply filter_bool_ext.
    intros r Hr. unfold kept, isin. destruct (read_id r) as [s|]; [|done].
    apply bool_decide_ext. fold merged_ids excluded.
    by rewrite elem_of_difference. }
  assert (Hin : ∀ r, r ∈ out ↔
                     r ∈ left_df ++ right_df
                     ∧ ∃ s, read_id r = Text s ∧ s ∈ merged_ids
                            ∧ s ∉ excluded).
  { intros r. rewrite Hout, !list_elem_of_In, filter_In. unfold kept.
    destruct (read_id r) as [s|t].
    - rewrite bool_decide_eq_true. split.
      + intros [H1 [H2 H3]]. eauto.
      + intros [H1 (s' & [= <-] & H2 & H3)]. done.
    - split; [by intros [_ ?]|]. by intros [_ (s' & ? & _)]. }
  split; [by rewrite Hout, List.filter_app|].
  split; [rewrite Hout; apply filter_sublist|].
  split.
  { intros r Hr. apply Hin in Hr as [_ (s & Hs & Hm & Hex)].
    exists s. split; [done|]. split; [|done].
    by apply (stripped_ids_fixed (left_df ++ right_df)). }
  split.
  { intros r t Ht Hr. apply Hin in Hr as [_ (s & Hs & _)]. congruence. }
  split.
  { intros r s Hr Hs Hstrip. rewrite Hin. split.
    - intros [_ (s' & Hs' & _ & Hex)]. congruence.
    - intros Hex. split; [done|]. exists s. split; [done|]. split; [|done].
      unfold merged_ids, stripped_ids.
      apply elem_of_list_to_set, list_elem_of_fmap.
      exists r. split; [|done]. rewrite Hs. simpl. done. }
  unfold get_merged_forks_filtered. rewrite app_nil_r. fold excluded.
  rewrite <- (filter_bool_ext (λ _, true)).
  - clear. induction out as [|a l IH]; simpl; [done|]. by rewrite IH.
  - intros r Hr. symmetry.
    apply Hin in Hr as Hr'. destruct Hr' as [_ (s & Hs & Hm & Hex)].
    rewrite Hs. simpl. apply bool_decide_eq_true.
    apply elem_of_difference. split; [|done].
    unfold stripped_ids. apply elem_of_list_to_set, list_elem_of_fmap.
    exists r. split; [|done]. rewrite Hs. simpl.
    symmetry. by apply (stripped_ids_fixed (left_df ++ right_df)).
Qed.

(** On the sample tables the rows of the reads a and c are kept, those
    of read b and the row with the missing id are dropped; fork tables
    whose ids all read as numbers lose every row, even with empty origin
    and termination tables. *)
Example get_merged_forks_filtered_cases :
  get_merged_forks_filtered Cases.left_forks Cases.right_forks
    Cases.origins Cases.terminations
  = [Cases.bed (Text "a"); Cases.bed (Text "c"); Cases.bed (Text "a")]
  ∧ get_merged_forks_filtered Cases.numbered_forks Cases.numbered_forks [] []
    = [].
Proof. split; by_evaluation. Qed.

End forks.

(** ** The detectors: what they return *)

Section detectors.
Import Signal TrackAligner BoundaryDetector.

Lemma where_nil {A} (test : A → bool) col :
  Forall (λ v, test v = false) col → where_ test col = [].
Proof.
  intros Hall. destruct (where_ test col) as [|i idx] eqn:Hw; [done|].
  assert (i ∈ where_ test col) as Hi by (rewrite Hw; left).
  apply elem_of_where_ in Hi as (v & Hv & Ht).
  rewrite Forall_forall in Hall.
  rewrite (Hall v) in Ht by (by apply list_elem_of_lookup_2 in Hv). done.
Qed.

Lemma Qltb_ge a b : (b <= a)%Q → Qltb a b = false.
Proof.
  intros Hle. apply not_true_is_false. rewrite Qltb_lt.
  by apply Qle_not_lt.
Qed.

(** *** Neither detector raises; the boundaries come one after the other *)

Lemma x_at_first_where_col {A} (x : A → Z) (frame : list A) (col : list Q)
    (test : Q → bool) :
  length col = length frame →
  ∃ o, x_at_first x frame (where_ test col) = Ok o
     ∧ ∀ e, o = Some e → ∃ r, r ∈ frame ∧ x r = e.
Proof.
  intros Hlen. destruct (where_ test col) as [|i idx] eqn:Hidx; simpl.
  - exists None. split; [done|]. congruence.
  - assert (i ∈ where_ test col) as Hi by (rewrite Hidx; left).
    apply elem_of_where_ in Hi as (v & Hv & _).
    apply lookup_lt_Some in Hv. rewrite Hlen in Hv.
    destruct (lookup_lt_is_Some_2 frame i Hv) as [r Hr].
    unfold iloc. rewrite Hr. simpl. exists (Some (x r)). split; [done|].
    intros e [= <-]. exists r. split; [|done].
    by apply list_elem_of_lookup_2 in Hr.
Qed.

Lemma aggregate_brdu_end_total b df :
  ∃ o, aggregate_brdu_end b df = Ok o
     ∧ ∀ d, o = Some d → ∃ r, r ∈ df ∧ sx r = d ∧ b + 100 < d.
Proof.
  unfold aggregate_brdu_end.
  set (later := List.filter (λ r, b + 100 <? sx r) df).
  destruct (uniform_filter1d_Ok (fillna0 ∘ median_diff <$> later) 101)
    as (roll & -> & Hlen); [lia|]. simpl.
  rewrite length_fmap in Hlen.
  destruct (x_at_first_where_col sx later roll (λ v, Qle_bool v (1 # 100)) Hlen)
    as (o & -> & Ho).
  exists o. split; [done|]. intros d Hd.
  destruct (Ho d Hd) as (r & Hr & <-).
  apply elem_of_filter_bool in Hr as [Hr Hx]. exists r.
  split; [done|]. split; [done|]. lia.
Qed.

(** The steps of the aggregate detector. *)
Lemma detect_signal_boundaries_steps df :
  ∃ roll out,
    uniform_filter1d (fillna0 ∘ median_diff <$> df) 101 = Ok roll
    ∧ detect_signal_boundaries df = Ok out
    ∧ x_at_first sx df (where_ (λ v, Qltb v (- (1 # 10))) roll)
      = Ok (edu_start out)
    ∧ (∀ e, edu_start out = Some e → ∃ r, r ∈ df ∧ sx r = e)
    ∧ match edu_start out with
      | None => brdu_start out = None
      | Some e =>
          brdu_start out
          = x_of_first sx
              (List.filter (λ r, positive (median_diff r))
                 (List.filter (λ r, e <=? sx r) df))
      end
    ∧ match brdu_start out with
      | None => brdu_end out = None
      | Some b => aggregate_brdu_end b df = Ok (brdu_end out)
      end.
Proof.
  unfold detect_signal_boundaries.
  destruct (uniform_filter1d_Ok (fillna0 ∘ median_diff <$> df) 101)
    as (roll & Hroll & Hlen); [lia|]. rewrite Hroll. simpl.
  rewrite length_fmap in Hlen.
  destruct (x_at_first_where_col sx df roll (λ v, Qltb v (- (1 # 10))) Hlen)
    as (oe & Hoe & Hrow). rewrite Hoe. simpl.
  exists roll.
  destruct oe as [e|]; simpl.
  - destruct (x_of_first sx _) as [b|] eqn:Hb; simpl.
    + destruct (aggregate_brdu_end_total b df) as (od & Hod & _).
      rewrite Hod. simpl. eexists. split; [done|]. split; [done|]. simpl.
      split; [done|]. split; [done|]. split; [by rewrite Hb|done].
    + eexists. split; [done|]. split; [done|]. simpl.
      split; [done|]. split; [done|]. split; [by rewrite Hb|done].
  - eexists. split; [done|]. split; [done|]. simpl.
    split; [done|]. split; [|done]. intros e He. done.
Qed.

(** Neither detector ever raises, and in both a boundary is found only
    after the one before it: without edu_start there is no brdu_start,
    and without brdu_start there is no brdu_end. *)
Theorem boundaries_cascade :
  (∀ df, ∃ out,
      detect_signal_boundaries df = Ok out
      ∧ (edu_start out = None → brdu_start out = None)
      ∧ (brdu_start out = None → brdu_end out = None))
  ∧ (∀ df, ∃ out,
      edu_boundaries_detect df = Ok out
      ∧ (edu_start out = None → brdu_start out = None)
      ∧ (brdu_start out = None → brdu_end out = None)).
Proof.
  split; intros df.
  - destruct (detect_signal_boundaries_steps df)
      as (roll & out & _ & Hout & _ & _ & Hb & Hd).
    exists out. split; [done|]. split.
    + intros He. by rewrite He in Hb.
    + intros Hn. by rewrite Hn in Hd.
  - destruct (edu_boundaries_detect_steps df) as (out & Hout & _ & Hb & Hd).
    exists out. split; [done|]. split.
    + intros He. by rewrite He in Hb.
    + intros Hn. by rewrite Hn in Hd.
Qed.

Lemma boundaries_cascade_witness :
  (∃ out,
      detect_signal_boundaries Sample.summary = Ok out
      ∧ (edu_start out = None → brdu_start out = None)
      ∧ (brdu_start out = None → brdu_end out = None))
  ∧ (∃ out,
      edu_boundaries_detect Cases.right_track = Ok out
      ∧ (edu_start out = None → brdu_start out = None)
      ∧ (brdu_start out = None → brdu_end out = None)).
Proof.
  exact (conj (proj1 boundaries_cascade Sample.summary)
              (proj2 boundaries_cascade Cases.right_track)).
Defined.

(** *** No signal, no boundary *)

Lemma filter_bool_nil {A} (f : A → bool) l :
  Forall (λ a, f a = false) l → List.filter f l = [].
Proof.
  induction 1 as [|a l Ha _ IH]; simpl; [done|]. by rewrite Ha.
Qed.

Lemma positive_false (v : option Q) :
  (∀ q, v = Some q → (q <= 0)%Q) → positive v = false.
Proof.
  intros Hv. destruct v as [q|]; [|done]. simpl.
  apply Qltb_ge. by apply Hv.
Qed.

(** Without a positive difference there is no BrdU boundary, whatever
    the smoothed values are: when no row of the summary has a
    median_diff above 0 the aggregate detector finds neither brdu_start
    nor brdu_end, and when no row of an aligned track to the right of 0
    has a diff above 0 the single-track detector finds neither.  The
    single-track detector finds no boundary at all when no row has x
    strictly between -10000 and 0. *)
Theorem boundaries_need_signal :
  (∀ df,
     Forall (λ r, ∀ q, median_diff r = Some q → (q <= 0)%Q) df →
     ∃ out, detect_signal_boundaries df = Ok out
          ∧ brdu_start out = None ∧ brdu_end out = None)
  ∧ (∀ df,
       Forall (λ r, 0 < x r → ∀ q, diff (track r) = Some q → (q <= 0)%Q) df →
       ∃ out, edu_boundaries_detect df = Ok out
            ∧ brdu_start out = None ∧ brdu_end out = None)
  ∧ (∀ df,
       Forall (λ r, x r ≤ -10000 ∨ 0 ≤ x r) df →
       edu_boundaries_detect df = Ok (MkBoundaries None None None)).
Proof.
  split; [|split].
  - intros df Hall.
    destruct (detect_signal_boundaries_steps df)
      as (roll & out & _ & Hout & _ & _ & Hb & Hd).
    exists out. split; [done|].
    assert (brdu_start out = None) as Hnone.
    { destruct (edu_start out) as [e|]; [|done]. rewrite Hb.
      rewrite filter_bool_nil; [done|].
      apply Forall_forall. intros r Hr.
      apply elem_of_filter_bool in Hr as [Hr _].
      rewrite Forall_forall in Hall. apply positive_false, Hall, Hr. }
    split; [done|]. by rewrite Hnone in Hd.
  - intros df Hall.
    destruct (edu_boundaries_detect_steps df) as (out & Hout & _ & Hb & Hd).
    exists out. split; [done|].
    assert (brdu_start out = None) as Hnone.
    { destruct (edu_start out) as [e|]; [|done]. rewrite Hb.
      rewrite filter_bool_nil; [done|].
      apply Forall_forall. intros r Hr.
      apply elem_of_filter_bool in Hr as [Hr Hx].
      rewrite andb_true_iff, Z.ltb_lt in Hx.
      unfold sort_values_x in Hr. rewrite merge_sort_Permutation in Hr.
      rewrite Forall_forall in Hall. apply positive_false, Hall; tauto. }
    split; [done|]. by rewrite Hnone in Hd.
  - intros df Hall.
    destruct (edu_boundaries_detect_steps df) as (out & Hout & _ & Hb & Hd).
    rewrite Hout. f_equal.
    assert (edu_start out = None) as He.
    { pose proof Hout as Hout'. unfold edu_boundaries_detect in Hout'.
      destruct (uniform_filter1d_Ok
                  (fillna0 ∘ diff ∘ track <$> sort_values_x df) 101)
        as (sm & Hsm & Hlen); [lia|].
      rewrite Hsm in Hout'. simpl in Hout'.
      rewrite where_nil in Hout'.
      - simpl in Hout'. by injection Hout' as <-.
      - apply Forall_forall. intros [r v] Hrv.
        apply list_elem_of_lookup in Hrv as [i Hi].
        apply lookup_zip_Some in Hi as [Hr Hv]. simpl in *.
        rewrite Forall_forall in Hall.
        assert (r ∈ df) as Hin.
        { apply list_elem_of_lookup_2 in Hr. unfold sort_values_x in Hr.
          by rewrite merge_sort_Permutation in Hr. }
        destruct (Hall r Hin) as [Hx|Hx].
        + rewrite (proj2 (Z.ltb_ge (-10000) (x r))) by lia.
          by rewrite andb_false_r.
        + rewrite (proj2 (Z.ltb_ge (x r) 0)) by lia.
          by rewrite andb_false_r. }
    destruct out as [oe ob od]. simpl in *. subst oe. subst ob. by subst od.
Qed.

Lemma boundaries_need_signal_witness :
  (Forall (λ r, ∀ q, median_diff r = Some q → (q <= 0)%Q)
          Cases.edu_only_summary
   ∧ ∃ out, detect_signal_boundaries Cases.edu_only_summary = Ok out
          ∧ brdu_start out = None ∧ brdu_end out = None)
  ∧ (Forall (λ r, 0 < x r → ∀ q, diff (track r) = Some q → (q <= 0)%Q)
            Cases.edu_only_track
     ∧ ∃ out, edu_boundaries_detect Cases.edu_only_track = Ok out
            ∧ brdu_start out = None ∧ brdu_end out = None)
  ∧ (Forall (λ r, x r ≤ -10000 ∨ 0 ≤ x r) Cases.right_track
     ∧ edu_boundaries_detect Cases.right_track
       = Ok (MkBoundaries None None None)).
Proof.
  assert (H1 : Forall (λ r, ∀ q, median_diff r = Some q → (q <= 0)%Q)
                      Cases.edu_only_summary).
  { repeat (constructor; [by (intros q [= <-])|]). constructor. }
  assert (H2 : Forall (λ r, 0 < x r →
                            ∀ q, diff (track r) = Some q → (q <= 0)%Q)
                      Cases.edu_only_track).
  { repeat (constructor;
              [simpl; intros Hx q Hq; first [lia|by injection Hq as <-]|]).
    constructor. }
  assert (H3 : Forall (λ r, x r ≤ -10000 ∨ 0 ≤ x r) Cases.right_track)
    by (repeat (constructor; [right; simpl; lia|]); constructor).
  split; [|split].
  - split; [exact H1|].
    exact (proj1 boundaries_need_signal Cases.edu_only_summary H1).
  - split; [exact H2|].
    exact (proj1 (proj2 boundaries_need_signal) Cases.edu_only_track H2).
  - split; [exact H3|].
    exact (proj2 (proj2 boundaries_need_signal) Cases.right_track H3).
Defined.

(** *** The single-track detector sorts its input *)

Lemma NoDup_fmap_eq {A B} (f : A → B) (l : list A) a b :
  NoDup (f <$> l) → a ∈ l → b ∈ l → f a = f b → a = b.
Proof.
  induction l as [|c l IH]; intros Hnd Ha Hb Hf; [by apply elem_of_nil in Ha|].
  rewrite fmap_cons in Hnd. apply NoDup_cons in Hnd as [Hc Hnd].
  apply elem_of_cons in Ha as [->|Ha]; apply elem_of_cons in Hb as [->|Hb].
  - done.
  - exfalso. apply Hc. rewrite Hf. by apply list_elem_of_fmap_2.
  - exfalso. apply Hc. rewrite <- Hf. by apply list_elem_of_fmap_2.
  - by apply IH.
Qed.

Lemma sort_values_x_Permutation df df' :
  df ≡ₚ df' → NoDup (x <$> df) → sort_values_x df = sort_values_x df'.
Proof.
  intros Hperm Hnd. unfold sort_values_x.
  assert (Htrans : Transitive x_le) by (intros a b c; unfold x_le; lia).
  assert (Htotal : Total x_le) by (intros a b; unfold x_le; lia).
  apply (StronglySorted_unique_strong x_le).
  - intros a b Ha Hb Hab Hba. unfold x_le in *.
    rewrite merge_sort_Permutation in Ha.
    rewrite merge_sort_Permutation, <- Hperm in Hb.
    apply (NoDup_fmap_eq x df); [done|done|done|lia].
  - by apply StronglySorted_merge_sort.
  - by apply StronglySorted_merge_sort.
  - by rewrite !merge_sort_Permutation.
Qed.

(** The single-track detector sorts its rows by x: on rows of pairwise
    distinct x, its result does not depend on the order in which the
    rows are given. *)
Theorem edu_boundaries_detect_order df df' :
  df ≡ₚ df' → NoDup (x <$> df) →
  edu_boundaries_detect df = edu_boundaries_detect df'.
Proof.
  intros Hperm Hnd. unfold edu_boundaries_detect.
  by rewrite (sort_values_x_Permutation df df' Hperm Hnd).
Qed.

Lemma edu_boundaries_detect_order_witness :
  Sample.aligned_track ≡ₚ reverse Sample.aligned_track
  ∧ NoDup (x <$> Sample.aligned_track)
  ∧ edu_boundaries_detect Sample.aligned_track
    = edu_boundaries_detect (reverse Sample.aligned_track).
Proof.
  assert (H1 : Sample.aligned_track ≡ₚ reverse Sample.aligned_track)
    by (symmetry; apply reverse_Permutation).
  assert (H2 : NoDup (x <$> Sample.aligned_track))
    by (apply (bool_decide_unpack _); vm_compute; exact I).
  split; [exact H1|]. split; [exact H2|].
  exact (edu_boundaries_detect_order Sample.aligned_track
           (reverse Sample.aligned_track) H1 H2).
Defined.

End detectors.

(** ** The aggregate path *)

Section aggregate.
Import Signal TrackAligner BoundaryDetector AggregatePipeline.

(** *** The aligner on a track with rows *)

Lemma align_diff_by_minimum_rows (df : list TrackRow) (window_size : Z) :
  df ≠ [] → 1 ≤ window_size →
  ∃ roll imin imax min_start max_start origin,
    let starts := if decide (max_start < min_start)
                  then reverse (start <$> df) else start <$> df in
    uniform_filter1d (fillna0 ∘ diff <$> df) window_size = Ok roll
    ∧ length roll = length df
    ∧ first_min roll imin ∧ first_max roll imax
    ∧ (start <$> df) !! imin = Some min_start
    ∧ (start <$> df) !! imax = Some max_start
    ∧ starts !! imin = Some origin
    ∧ align_diff_by_minimum df window_size
      = Ok (zip_with (λ (rs : TrackRow * Z) (dr : Q),
                        MkAlignedRow (set_start rs.2 rs.1) dr (rs.2 - origin))
                     (zip df starts) roll).
Proof.
  intros Hne Hsize.
  destruct (uniform_filter1d_Ok (fillna0 ∘ diff <$> df) window_size Hsize)
    as (roll & Hroll & Hlen).
  rewrite length_fmap in Hlen.
  assert (Hrne : roll ≠ []).
  { intros ->. destruct df; [done|]. simpl in Hlen. lia. }
  destruct (idxmin_spec roll Hrne) as (imin & Himin & Hmin).
  destruct (idxmax_spec roll Hrne) as (imax & Himax & Hmax).
  pose proof (first_min_lt _ _ Hmin) as Hlmin.
  pose proof (first_max_lt _ _ Hmax) as Hlmax.
  destruct (lookup_lt_is_Some_2 (start <$> df) imin) as [min_start Hms];
    [rewrite length_fmap; lia|].
  destruct (lookup_lt_is_Some_2 (start <$> df) imax) as [max_start Hxs];
    [rewrite length_fmap; lia|].
  set (starts := if decide (max_start < min_start)
                 then reverse (start <$> df) else start <$> df).
  assert (Hls : length starts = length df).
  { unfold starts. case_decide; by rewrite ?length_reverse, length_fmap. }
  destruct (lookup_lt_is_Some_2 starts imin) as [origin Horigin]; [lia|].
  exists roll, imin, imax, min_start, max_start, origin. simpl. fold starts.
  split; [done|]. split; [done|]. split; [done|]. split; [done|].
  split; [done|]. split; [done|]. split; [done|].
  unfold align_diff_by_minimum, align_by_diff_roll. rewrite Hroll. simpl.
  rewrite Himin, Himax. simpl. unfold iloc at 1 2. rewrite Hms, Hxs. simpl.
  replace (if max_start <? min_start
           then reverse (start <$> df) else start <$> df) with starts
    by (unfold starts; case_decide; destruct (Z.ltb_spec max_start min_start);
        done || lia).
  unfold iloc. rewrite Horigin. reflexivity.
Qed.

Lemma align_diff_by_minimum_nil window_size :
  raises (align_diff_by_minimum [] window_size)
  ∧ (1 ≤ window_size → align_diff_by_minimum [] window_size = Raise ValueError).
Proof.
  unfold align_diff_by_minimum, align_by_diff_roll, uniform_filter1d.
  destruct (Z.ltb_spec window_size 1); simpl.
  - split; [by eexists|lia].
  - split; [by eexists|done].
Qed.

Lemma align_diff_by_minimum_500 (df : list TrackRow) :
  (df = [] → align_diff_by_minimum df 500 = Raise ValueError)
  ∧ (df ≠ [] → ∃ out, align_diff_by_minimum df 500 = Ok out
                      ∧ length out = length df).
Proof.
  split.
  - intros ->. by apply align_diff_by_minimum_nil.
  - intros Hne.
    destruct (align_diff_by_minimum_rows df 500 Hne ltac:(lia))
      as (roll & imin & imax & ms & xs & origin & _ & Hlen & _ & _ & _ & _
          & Ho & Hout).
    eexists. split; [exact Hout|].
    rewrite length_zip_with, length_zip, Hlen.
    case_decide; rewrite ?length_reverse, length_fmap; lia.
Qed.

(** *** When the aggregate is made *)

Lemma traverse_raises_inv {A B} (f : A → result B) l :
  raises (traverse f l) → ∃ a, a ∈ l ∧ raises (f a).
Proof.
  induction l as [|a l IH]; simpl; [by intros [e He]|].
  destruct (f a) as [b|e] eqn:Ha; simpl.
  - destruct (traverse f l) as [bs|e]; simpl; [by intros [e He]|].
    intros _. destruct IH as (a' & Hin & Hr); [by eexists|].
    exists a'. split; [by right|done].
  - intros _. exists a. split; [left|]. rewrite Ha. by eexists.
Qed.

(** [make_aggregate_plot_df] raises exactly when there is no track to
    pool or when one of the tracks has no row, and then a [ValueError];
    otherwise it returns a summary, whatever the signal. *)
Theorem make_aggregate_plot_df_raises tracks :
  (raises (make_aggregate_plot_df tracks) ↔ tracks = [] ∨ [] ∈ tracks)
  ∧ (raises (make_aggregate_plot_df tracks) →
     make_aggregate_plot_df tracks = Raise ValueError).
Proof.
  unfold make_aggregate_plot_df.
  destruct (traverse (λ df, align_diff_by_minimum df 500) tracks)
    as [aligned|e] eqn:Hal; simpl.
  - apply traverse_Ok_Forall2 in Hal.
    assert ([] ∉ tracks) as Hnn.
    { intros Hin. apply list_elem_of_lookup in Hin as [i Hi].
      destruct (Forall2_lookup_l _ _ _ _ _ Hal Hi) as (out & _ & Hout).
      by rewrite (proj1 (align_diff_by_minimum_500 []) eq_refl) in Hout. }
    destruct aligned as [|a aligned]; simpl.
    + apply Forall2_nil_inv_r in Hal as ->.
      split; [|done]. split; [auto|]. intros _. by eexists.
    + destruct (detect_signal_boundaries_steps
                  (clip (summarize_median (a ++ mjoin aligned))))
        as (roll & out & _ & -> & _). simpl.
      assert (tracks ≠ []) by (intros ->; by apply Forall2_nil_inv_l in Hal).
      split; [|by intros [e He]].
      split; [by intros [e He]|]. intros [?|?]; done.
  - assert (raises (traverse (λ df, align_diff_by_minimum df 500) tracks))
      as Hr by (rewrite Hal; by eexists).
    apply traverse_raises_inv in Hr as (df & Hin & Hdf).
    assert (df = []) as ->.
    { destruct df as [|r df]; [done|].
      destruct (proj2 (align_diff_by_minimum_500 (r :: df))) as (out & Ho & _);
        [done|].
      destruct Hdf as [e' He']. congruence. }
    assert (e = ValueError) as ->.
    { clear -Hal. revert e Hal. induction tracks as [|df tracks IH];
        intros e Hal; simpl in Hal; [done|].
      destruct df as [|r df].
      - rewrite (proj1 (align_diff_by_minimum_500 []) eq_refl) in Hal.
        simpl in Hal. congruence.
      - destruct (proj2 (align_diff_by_minimum_500 (r :: df)))
          as (out & Ho & _); [done|].
        rewrite Ho in Hal. simpl in Hal.
        destruct (traverse _ tracks) as [bs|e'] eqn:Ht; simpl in Hal; [done|].
        injection Hal as <-. by apply IH. }
    split; [|done]. split; [auto|]. intros _. by eexists.
Qed.

Lemma make_aggregate_plot_df_raises_witness :
  (raises (make_aggregate_plot_df [Cases.short_track; []])
   ↔ [Cases.short_track; []] = [] ∨ [] ∈ [Cases.short_track; []])
  ∧ (raises (make_aggregate_plot_df [Cases.short_track; []]) →
     make_aggregate_plot_df [Cases.short_track; []] = Raise ValueError).
Proof. exact (make_aggregate_plot_df_raises [Cases.short_track; []]). Defined.

(** *** What the aggregate holds *)

Lemma StronglySorted_le_NoDup_lt (l : list Z) :
  StronglySorted Z.le l → NoDup l → StronglySorted Z.lt l.
Proof.
  induction 1 as [|a l Hl IH Hall]; intros Hnd; [constructor|].
  apply NoDup_cons in Hnd as [Ha Hnd]. constructor; [by apply IH|].
  rewrite Forall_forall in Hall |- *. intros b Hb.
  specialize (Hall b Hb). assert (a ≠ b) by (intros ->; done). lia.
Qed.

Lemma summary_keys_sorted combined :
  StronglySorted Z.lt (sx <$> summarize_median combined).
Proof.
  unfold summarize_median. rewrite <- list_fmap_compose.
  assert (∀ l : list Z,
            (sx ∘ (λ k, MkSummaryRow k (agg_median (group_values combined k))))
              <$> l = l) as ->.
  { induction l as [|a l IH]; [done|]. rewrite fmap_cons. by rewrite IH. }
  unfold group_keys.
  apply StronglySorted_le_NoDup_lt.
  - apply StronglySorted_merge_sort; apply _.
  - rewrite merge_sort_Permutation. apply NoDup_remove_dups.
Qed.

Lemma StronglySorted_filter_bool {A} (R : relation A) (f : A → bool) l :
  StronglySorted R l → StronglySorted R (List.filter f l).
Proof.
  induction 1 as [|a l Hl IH Hall]; simpl; [constructor|].
  destruct (f a); [|done]. constructor; [done|].
  rewrite Forall_forall in Hall |- *. intros b Hb.
  apply elem_of_filter_bool in Hb as [Hb _]. by apply Hall.
Qed.

(** The summary that [make_aggregate_plot_df] returns has its rows in
    strictly ascending x, all within -40000 and 60000, each x being that
    of a row of one of the aligned tracks.  Each boundary that is found
    is the x of a row of that summary, hence lies within -40000 and
    60000 too; brdu_start is not before edu_start, and brdu_end is more
    than 100 after brdu_start. *)
Theorem make_aggregate_plot_df_spec tracks summary boundaries :
  make_aggregate_plot_df tracks = Ok (summary, boundaries) →
  StronglySorted Z.lt (sx <$> summary)
  ∧ (∀ row, row ∈ summary →
       -40000 ≤ sx row ≤ 60000
       ∧ ∃ df aligned r, df ∈ tracks
           ∧ align_diff_by_minimum df 500 = Ok aligned
           ∧ r ∈ aligned ∧ x r = sx row)
  ∧ (∀ e, edu_start boundaries = Some e →
       (∃ row, row ∈ summary ∧ sx row = e) ∧ -40000 ≤ e ≤ 60000)
  ∧ (∀ v, brdu_start boundaries = Some v →
       (∃ row, row ∈ summary ∧ sx row = v) ∧ -40000 ≤ v ≤ 60000
       ∧ ∃ e, edu_start boundaries = Some e ∧ e ≤ v)
  ∧ (∀ d, brdu_end boundaries = Some d →
       (∃ row, row ∈ summary ∧ sx row = d) ∧ -40000 ≤ d ≤ 60000
       ∧ ∃ v, brdu_start boundaries = Some v ∧ v + 100 < d).
Proof.
  unfold make_aggregate_plot_df.
  destruct (traverse (λ df, align_diff_by_minimum df 500) tracks)
    as [aligned|e] eqn:Hal; simpl; [|done].
  destruct (concat aligned) as [combined|e] eqn:Hc; simpl; [|done].
  destruct (detect_signal_boundaries_steps (clip (summarize_median combined)))
    as (roll & out & _ & Hout & _ & He & Hb & Hd).
  rewrite Hout. simpl. intros [= <- <-].
  set (summary := clip (summarize_median combined)) in *.
  assert (Hclip : ∀ row, row ∈ summary → -40000 ≤ sx row ≤ 60000).
  { intros row Hrow. unfold summary, clip in Hrow.
    apply elem_of_filter_bool in Hrow as [_ Hrow].
    apply andb_true_iff in Hrow as [H1 H2].
    apply Z.leb_le in H1. apply Z.leb_le in H2. lia. }
  split; [|split; [|split; [|split]]].
  - unfold summary, clip.
    assert (∀ l f, sx <$> List.filter (λ r, f (sx r)) l
                   = List.filter f (sx <$> l)) as Hff.
    { intros l f. induction l as [|a l IH]; [done|].
      rewrite fmap_cons. cbn [List.filter].
      destruct (f (sx a)); [rewrite fmap_cons; f_equal|]; exact IH. }
    rewrite (Hff _ (λ z, (-40000 <=? z) && (z <=? 60000))).
    apply StronglySorted_filter_bool, summary_keys_sorted.
  - intros row Hrow. split; [by apply Hclip|].
    unfold summary, clip in Hrow.
    apply elem_of_filter_bool in Hrow as [Hrow _].
    unfold summarize_median in Hrow.
    apply list_elem_of_fmap in Hrow as (k & -> & Hk). simpl.
    unfold group_keys in Hk. rewrite merge_sort_Permutation in Hk.
    apply elem_of_remove_dups, list_elem_of_fmap in Hk as (r & -> & Hr).
    assert (combined = mjoin aligned) as ->.
    { unfold concat in Hc. destruct aligned; [done|]. by injection Hc. }
    apply list_elem_of_join in Hr as (al & Hr & Hal').
    apply traverse_Ok_Forall2 in Hal.
    apply list_elem_of_lookup in Hal' as [i Hi].
    destruct (Forall2_lookup_r _ _ _ _ _ Hal Hi) as (df & Hdf & Hout').
    exists df, al, r. split; [by apply list_elem_of_lookup_2 in Hdf|]. done.
  - intros e' He'. destruct (He e' He') as (row & Hrow & <-).
    split; [eauto|]. by apply Hclip.
  - intros v Hv. rewrite Hv in Hd.
    destruct (edu_start out) as [e'|] eqn:Hes; [|congruence].
    rewrite Hv in Hb. symmetry in Hb.
    apply x_of_first_Some in Hb as (rb & rest & Hrb & <-).
    assert (rb ∈ List.filter (λ r, positive (median_diff r))
                   (List.filter (λ r, e' <=? sx r) summary)) as Hin
      by (rewrite Hrb; left).
    apply elem_of_filter_bool in Hin as [Hin _].
    apply elem_of_filter_bool in Hin as [Hin Hle]. apply Z.leb_le in Hle.
    split; [eauto|]. split; [by apply Hclip|]. eauto.
  - intros d Hdd. destruct (brdu_start out) as [v|] eqn:Hv; [|congruence].
    rewrite Hdd in Hd.
    destruct (aggregate_brdu_end_total v summary) as (o & Ho & Hrow).
    assert (o = Some d) as -> by congruence.
    destruct (Hrow d eq_refl) as (r & Hr & <- & Hlt).
    split; [eauto|]. split; [by apply Hclip|]. eauto.
Qed.

Lemma make_aggregate_plot_df_spec_witness :
  let tracks := [Cases.short_track; Cases.short_track] in
  let summary := Cases.aggregate.1 in
  let boundaries := Cases.aggregate.2 in
  make_aggregate_plot_df tracks = Ok (summary, boundaries)
  ∧ StronglySorted Z.lt (sx <$> summary)
  ∧ (∀ row, row ∈ summary →
       -40000 ≤ sx row ≤ 60000
       ∧ ∃ df aligned r, df ∈ tracks
           ∧ align_diff_by_minimum df 500 = Ok aligned
           ∧ r ∈ aligned ∧ x r = sx row)
  ∧ (∀ e, edu_start boundaries = Some e →
       (∃ row, row ∈ summary ∧ sx row = e) ∧ -40000 ≤ e ≤ 60000)
  ∧ (∀ v, brdu_start boundaries = Some v →
       (∃ row, row ∈ summary ∧ sx row = v) ∧ -40000 ≤ v ≤ 60000
       ∧ ∃ e, edu_start boundaries = Some e ∧ e ≤ v)
  ∧ (∀ d, brdu_end boundaries = Some d →
       (∃ row, row ∈ summary ∧ sx row = d) ∧ -40000 ≤ d ≤ 60000
       ∧ ∃ v, brdu_start boundaries = Some v ∧ v + 100 < d).
Proof.
  assert (H : make_aggregate_plot_df [Cases.short_track; Cases.short_track]
              = Ok (Cases.aggregate.1, Cases.aggregate.2)) by by_evaluation.
  split; [exact H|].
  exact (make_aggregate_plot_df_spec [Cases.short_track; Cases.short_track]
           Cases.aggregate.1 Cases.aggregate.2 H).
Defined.

End aggregate.

(** ** The single-track path *)

Section single.
Import Signal TrackAligner SingleTrack.

(** *** The uniform filter of width 500 on a short column *)

Lemma Qsum_slide (f : Z → Q) a m :
  0 ≤ m →
  (Qsum (f <$> seqZ (a + 1) m) == Qsum (f <$> seqZ a m) + f (a + m)%Z - f a)%Q.
Proof.
  intros Hm. rewrite <- (Z2Nat.id m Hm). clear Hm.
  generalize (Z.to_nat m). clear m. intros k. revert a.
  induction k as [|k IH]; intros a.
  - simpl. rewrite Z.add_0_r. ring.
  - rewrite Nat2Z.inj_succ. rewrite (seqZ_cons a), (seqZ_cons (a + 1)) by lia.
    rewrite !Z.pred_succ, !fmap_cons. simpl Qsum. unfold Z.succ.
    rewrite IH. replace (a + (Z.of_nat k + 1)) with (a + 1 + Z.of_nat k) by lia.
    ring.
Qed.

Lemma fmap_seqZ_shift {A} (f : Z → A) a m :
  (λ k, f (a + k)) <$> seqZ 0 m = f <$> seqZ a m.
Proof.
  replace (seqZ a m) with (Z.add a <$> seqZ 0 m)
    by (rewrite fmap_add_seqZ; f_equal; lia).
  by rewrite <- list_fmap_compose.
Qed.

Lemma nearest_left input j : j ≤ 0 → nearest input j = nearest input 0.
Proof. intros Hj. unfold nearest. do 3 f_equal. lia. Qed.

Lemma nearest_right input j :
  Z.of_nat (length input) - 1 ≤ j →
  nearest input j = nearest input (Z.of_nat (length input) - 1).
Proof. intros Hj. unfold nearest. do 3 f_equal. lia. Qed.

(** From one index to the next the window of 500 values loses the value
    250 to the left and gains the value 250 to the right. *)
Lemma filter_at_step input i :
  (filter_at input 500 (i + 1)
   == filter_at input 500 i
      + (nearest input (i + 250) - nearest input (i - 250)) / 500)%Q.
Proof.
  unfold filter_at. change (500 / 2) with 250.
  rewrite (fmap_seqZ_shift (nearest input) (i + 1 - 250)),
          (fmap_seqZ_shift (nearest input) (i - 250)).
  replace (i + 1 - 250) with (i - 250 + 1) by lia.
  rewrite Qsum_slide by lia. replace (i - 250 + 500) with (i + 250) by lia.
  change (inject_Z 500) with 500%Q. field.
Qed.

(** On a column of at most 251 values every step is the same. *)
Lemma short_column_step input (i : nat) :
  (length input ≤ 251)%nat → (S i < length input)%nat →
  (filter_at input 500 (Z.of_nat (S i))
   == filter_at input 500 (Z.of_nat i)
      + (nearest input (Z.of_nat (length input) - 1) - nearest input 0) / 500)%Q.
Proof.
  intros Hn Hi. rewrite Nat2Z.inj_succ. unfold Z.succ. rewrite filter_at_step.
  rewrite (nearest_left input (Z.of_nat i - 250)) by lia.
  rewrite (nearest_right input (Z.of_nat i + 250)) by lia.
  reflexivity.
Qed.

Lemma steps_up (g : nat → Q) (s : Q) (n : nat) :
  (∀ i, (S i < n)%nat → (g (S i) == g i + s)%Q) → (0 <= s)%Q →
  ∀ j, (j < n)%nat → (g 0%nat <= g j)%Q.
Proof.
  intros Hstep Hs. induction j as [|j IH]; intros Hj; [apply Qle_refl|].
  rewrite Hstep by lia. eapply Qle_trans; [apply IH; lia|].
  rewrite <- (Qplus_0_r (g j)) at 1.
  apply Qplus_le_compat; [apply Qle_refl|done].
Qed.

Lemma steps_down (g : nat → Q) (s : Q) (n : nat) :
  (∀ i, (S i < n)%nat → (g (S i) == g i + s)%Q) → (s < 0)%Q →
  ∀ j i, (i < j)%nat → (j < n)%nat → (g j < g i)%Q.
Proof.
  intros Hstep Hs. induction j as [|j IH]; intros i Hi Hj; [lia|].
  assert (g (S j) < g j)%Q as Hlt.
  { rewrite Hstep by lia. rewrite <- (Qplus_0_r (g j)) at 2.
    apply Qplus_lt_r. done. }
  destruct (decide (i = j)) as [->|Hne]; [done|].
  eapply Qlt_trans; [exact Hlt|]. apply IH; lia.
Qed.

Lemma uniform_filter1d_lookup input size roll (i : nat) :
  uniform_filter1d input size = Ok roll → (i < length input)%nat →
  roll !! i = Some (filter_at input size (Z.of_nat i)).
Proof.
  unfold uniform_filter1d. destruct (size <? 1); [done|].
  intros [= <-] Hi. rewrite list_lookup_fmap, lookup_seqZ_lt by lia. done.
Qed.

(** The smoothed column of a short track is least at one of its ends. *)
Lemma first_min_short input roll imin :
  (length input ≤ 251)%nat →
  uniform_filter1d input 500 = Ok roll → first_min roll imin →
  imin = 0%nat ∨ imin = (length input - 1)%nat.
Proof.
  intros Hn Hroll Hmin.
  pose proof (first_min_lt _ _ Hmin) as Hlt.
  assert (length roll = length input) as Hlen.
  { destruct (uniform_filter1d_Ok input 500) as (roll' & Hr' & Hl); [lia|].
    congruence. }
  rewrite Hlen in Hlt.
  destruct Hmin as (v & Hv & Hle & Hbefore).
  rewrite (uniform_filter1d_lookup _ _ _ _ Hroll Hlt) in Hv.
  injection Hv as <-.
  set (g := λ j : nat, filter_at input 500 (Z.of_nat j)).
  set (s := ((nearest input (Z.of_nat (length input) - 1) - nearest input 0)
             / 500)%Q).
  assert (Hstep : ∀ i, (S i < length input)%nat → (g (S i) == g i + s)%Q)
    by (intros i Hi; by apply short_column_step).
  destruct (Qlt_le_dec s 0) as [Hs|Hs].
  - right. destruct (decide (imin = length input - 1)%nat) as [|Hne]; [done|].
    exfalso.
    assert (g (length input - 1)%nat < g imin)%Q as Hdown
      by (apply (steps_down g s (length input) Hstep Hs); lia).
    apply (Qlt_not_le _ _ Hdown).
    apply (Hle (length input - 1)%nat).
    apply (uniform_filter1d_lookup _ _ _ _ Hroll). lia.
  - left. destruct (decide (imin = 0%nat)) as [|Hne]; [done|]. exfalso.
    assert (g 0%nat <= g imin)%Q as Hup
      by (by apply (steps_up g s (length input) Hstep Hs)).
    apply (Qle_not_lt _ _ Hup).
    apply (Hbefore 0%nat); [lia|].
    apply (uniform_filter1d_lookup _ _ _ _ Hroll). lia.
Qed.

(** *** Columns in ascending or in descending order *)

Lemma sorted_head_least (l : list Z) o :
  StronglySorted Z.le l → l !! 0%nat = Some o → ∀ v, v ∈ l → o ≤ v.
Proof.
  intros Hs Ho v Hv. destruct l as [|a l]; [done|]. injection Ho as ->.
  apply StronglySorted_inv in Hs as [_ Hall].
  apply elem_of_cons in Hv as [->|Hv]; [lia|].
  rewrite Forall_forall in Hall. by apply Hall.
Qed.

Lemma sorted_last_greatest (l : list Z) o :
  StronglySorted Z.le l → l !! (length l - 1)%nat = Some o →
  ∀ v, v ∈ l → v ≤ o.
Proof.
  induction 1 as [|a l Hs IH Hall]; intros Ho v Hv; [done|].
  rewrite Forall_forall in Hall.
  destruct l as [|b l].
  - injection Ho as <-. apply list_elem_of_singleton in Hv as ->. lia.
  - replace (length (a :: b :: l) - 1)%nat with (S (length (b :: l) - 1))
      in Ho by (simpl; lia).
    assert ((b :: l) !! (length (b :: l) - 1)%nat = Some o) as Ho' by exact Ho.
    apply elem_of_cons in Hv as [->|Hv]; [|by apply IH].
    apply Hall. by apply list_elem_of_lookup_2 in Ho'.
Qed.

Lemma monotone_end (l : list Z) (i : nat) o :
  StronglySorted Z.le l ∨ StronglySorted Z.le (reverse l) →
  l !! i = Some o → i = 0%nat ∨ i = (length l - 1)%nat →
  (∀ v, v ∈ l → o ≤ v) ∨ (∀ v, v ∈ l → v ≤ o).
Proof.
  intros Hm Ho Hi.
  assert (length l ≠ 0)%nat as Hlen by (destruct l; done).
  assert (∀ j, (j < length l)%nat →
               reverse l !! (length l - S j)%nat = l !! j) as Hrev.
  { intros j Hj. rewrite reverse_lookup by lia. f_equal. lia. }
  destruct Hm as [Hs|Hs], Hi as [->| ->].
  - left. by apply sorted_head_least.
  - right. by apply sorted_last_greatest.
  - right. intros v Hv. apply (sorted_last_greatest (reverse l) o Hs).
    + rewrite length_reverse.
      replace (length l - 1)%nat with (length l - 1 - 0)%nat by lia.
      rewrite <- Ho. rewrite <- (Hrev 0%nat) by lia. f_equal. lia.
    + by apply elem_of_reverse.
  - left. intros v Hv. apply (sorted_head_least (reverse l) o Hs).
    + rewrite <- Ho. rewrite <- (Hrev (length l - 1)%nat) by lia. f_equal. lia.
    + by apply elem_of_reverse.
Qed.

(** *** A short track lies on one side of its origin *)

Lemma align_short_one_sided df out :
  (length df ≤ 251)%nat →
  StronglySorted Z.le (start <$> df)
  ∨ StronglySorted Z.le (reverse (start <$> df)) →
  align_diff_by_minimum df 500 = Ok out →
  Forall (λ r, 0 ≤ x r) out ∨ Forall (λ r, x r ≤ 0) out.
Proof.
  intros Hn Hm Hout.
  assert (df ≠ []) as Hne.
  { intros ->. by rewrite (proj1 (align_diff_by_minimum_500 []) eq_refl) in Hout. }
  destruct (align_diff_by_minimum_rows df 500 Hne ltac:(lia))
    as (roll & imin & imax & ms & xs & origin & Hroll & Hlen & Hmin & _ & _ & _
        & Ho & Hout').
  simpl in Ho, Hout'. rewrite Hout' in Hout. injection Hout as <-.
  set (starts := if decide (xs < ms) then reverse (start <$> df)
                 else start <$> df) in *.
  assert (length starts = length df) as Hls
    by (unfold starts; case_decide; by rewrite ?length_reverse, length_fmap).
  assert (StronglySorted Z.le starts ∨ StronglySorted Z.le (reverse starts))
    as Hms.
  { unfold starts. case_decide; [|done].
    rewrite reverse_involutive. tauto. }
  assert (imin = 0%nat ∨ imin = (length starts - 1)%nat) as Hi.
  { rewrite Hls. rewrite <- (length_fmap (fillna0 ∘ diff) df).
    apply (first_min_short _ roll); [by rewrite length_fmap|done|done]. }
  assert (∀ r, r ∈ zip_with (λ (rs : TrackRow * Z) (dr : Q),
                   MkAlignedRow (set_start rs.2 rs.1) dr (rs.2 - origin))
                 (zip df starts) roll →
               ∃ s, s ∈ starts ∧ x r = s - origin) as Hx.
  { intros r Hr. apply list_elem_of_lookup in Hr as [i Hi'].
    rewrite aligned_rows_lookup in Hi' by done.
    destruct (df !! i), (starts !! i) as [s|] eqn:Hs, (roll !! i);
      try done.
    injection Hi' as <-. exists s. split; [|done].
    by apply list_elem_of_lookup_2 in Hs. }
  destruct (monotone_end starts imin origin Hms Ho Hi) as [Hlow|Hhigh].
  - left. apply Forall_forall. intros r Hr.
    destruct (Hx r Hr) as (s & Hs & ->). specialize (Hlow s Hs). lia.
  - right. apply Forall_forall. intros r Hr.
    destruct (Hx r Hr) as (s & Hs & ->). specialize (Hhigh s Hs). lia.
Qed.

(** On a track of at most 251 rows the default window of 500 rows is
    wider than the track, and the smoothed diff changes by the same
    amount from each row to the next: the aligner then puts x = 0 at the
    first or at the last row.  When the starts are in ascending or in
    descending order, all the rows are therefore on one side of x = 0. *)
Theorem align_diff_by_minimum_short df out :
  (length df ≤ 251)%nat →
  align_diff_by_minimum df 500 = Ok out →
  ((x <$> out) !! 0%nat = Some 0
   ∨ (x <$> out) !! (length df - 1)%nat = Some 0)
  ∧ (StronglySorted Z.le (start <$> df)
     ∨ StronglySorted Z.le (reverse (start <$> df)) →
     Forall (λ r, 0 ≤ x r) out ∨ Forall (λ r, x r ≤ 0) out).
Proof.
  intros Hn Hout. split; [|intros Hm; by apply (align_short_one_sided df)].
  assert (df ≠ []) as Hne.
  { intros ->. by rewrite (proj1 (align_diff_by_minimum_500 []) eq_refl) in Hout. }
  destruct (align_diff_by_minimum_rows df 500 Hne ltac:(lia))
    as (roll & imin & imax & ms & xs & origin & Hroll & Hlen & Hmin & _ & _ & _
        & Ho & Hout').
  simpl in Ho, Hout'. rewrite Hout' in Hout. injection Hout as <-.
  set (starts := if decide (xs < ms) then reverse (start <$> df)
                 else start <$> df) in *.
  assert (length starts = length df) as Hls
    by (unfold starts; case_decide; by rewrite ?length_reverse, length_fmap).
  assert (imin = 0%nat ∨ imin = (length df - 1)%nat) as Hi.
  { rewrite <- (length_fmap (fillna0 ∘ diff) df).
    apply (first_min_short _ roll); [by rewrite length_fmap|done|done]. }
  assert ((x <$> zip_with (λ (rs : TrackRow * Z) (dr : Q),
                   MkAlignedRow (set_start rs.2 rs.1) dr (rs.2 - origin))
                 (zip df starts) roll) !! imin = Some 0) as Hx.
  { rewrite list_lookup_fmap, aligned_rows_lookup by done. rewrite Ho.
    pose proof (first_min_lt _ _ Hmin) as Hlt. rewrite Hlen in Hlt.
    destruct (lookup_lt_is_Some_2 df imin Hlt) as [r ->].
    destruct (lookup_lt_is_Some_2 roll imin) as [dr ->]; [lia|].
    simpl. f_equal. lia. }
  destruct Hi as [Hi|Hi]; rewrite Hi in Hx; [by left|by right].
Qed.

Lemma align_diff_by_minimum_short_witness :
  (length Cases.short_track ≤ 251)%nat
  ∧ align_diff_by_minimum Cases.short_track 500 = Ok Cases.short_aligned
  ∧ ((x <$> Cases.short_aligned) !! 0%nat = Some 0
     ∨ (x <$> Cases.short_aligned) !! (length Cases.short_track - 1)%nat
       = Some 0)
  ∧ (StronglySorted Z.le (start <$> Cases.short_track)
     ∨ StronglySorted Z.le (reverse (start <$> Cases.short_track)) →
     Forall (λ r, 0 ≤ x r) Cases.short_aligned
     ∨ Forall (λ r, x r ≤ 0) Cases.short_aligned).
Proof.
  assert (Hn : (length Cases.short_track ≤ 251)%nat) by (simpl; lia).
  assert (H : align_diff_by_minimum Cases.short_track 500
              = Ok Cases.short_aligned) by by_evaluation.
  split; [exact Hn|]. split; [exact H|].
  exact (align_diff_by_minimum_short Cases.short_track Cases.short_aligned
           Hn H).
Defined.

(** *** The table of [plot_each_track] *)

(** [plot_each_track] raises [ValueError] as soon as the directory holds
    one paired track, whatever the track: [read_bedgraph_tracks] returns
    frames, and the head of the loop unpacks each one, which iterates
    over six column labels, into the two names [sample_id] and [df].
    Only without any paired track does the function return, and the
    table it writes is then empty: no run writes an entry. *)
Theorem plot_each_track_spec paired_tracks :
  (plot_each_track paired_tracks = Raise ValueError ↔ paired_tracks ≠ [])
  ∧ (plot_each_track paired_tracks = Ok [] ↔ paired_tracks = [])
  ∧ (∀ entries, plot_each_track paired_tracks = Ok entries → entries = []).
Proof.
  destruct paired_tracks as [|df rest].
  - split; [|split]; [split; done|split; done|].
    by intros entries [= <-].
  - split; [|split]; [split; done|split; done|]. done.
Qed.

(** The sample track alone, and a track without rows, make the run
    raise. *)
Example plot_each_track_raises :
  plot_each_track [Cases.short_track] = Raise ValueError
  ∧ plot_each_track [[]] = Raise ValueError
  ∧ plot_each_track [] = Ok [].
Proof. split; [|split]; by_evaluation. Qed.

End single.

(** ** The summary of the pooled tracks *)

Section summaries.
Import TrackSummarizer.

(** *** Every value is counted once *)

Lemma sum_list_fmap_add {A} (f g : A → nat) l :
  sum_list ((λ k, f k + g k)%nat <$> l)
  = (sum_list (f <$> l) + sum_list (g <$> l))%nat.
Proof. induction l as [|a l IH]; csimpl; [done|]. rewrite IH. lia. Qed.

Lemma sum_list_fmap_zero {A} (l : list A) :
  sum_list ((λ _, 0%nat) <$> l) = 0%nat.
Proof. induction l as [|a l IH]; csimpl; [done|]. by rewrite IH. Qed.

Lemma sum_list_indicator (keys : list Z) (a : Z) (c : nat) :
  NoDup keys → a ∈ keys →
  sum_list ((λ k, if a =? k then c else 0%nat) <$> keys) = c.
Proof.
  induction 1 as [|k keys Hk Hnd IH]; intros Ha; [by apply elem_of_nil in Ha|].
  csimpl. destruct (Z.eqb_spec a k) as [->|Hne].
  - assert (sum_list ((λ k', if k =? k' then c else 0%nat) <$> keys) = 0%nat)
      as ->; [|lia].
    clear IH Ha. induction keys as [|k' keys IH]; csimpl; [done|].
    apply not_elem_of_cons in Hk as [Hne Hk].
    apply NoDup_cons in Hnd as [_ Hnd].
    destruct (Z.eqb_spec k k'); [done|]. by rewrite IH.
  - apply elem_of_cons in Ha as [->|Ha]; [done|]. by rewrite IH.
Qed.

Lemma length_group_values_cons a rows k :
  length (group_values (a :: rows) k)
  = ((if (px a =? k)%Z then match pdiff a with Some _ => 1 | None => 0 end else 0)
     + length (group_values rows k))%nat.
Proof.
  unfold group_values. simpl. destruct (px a =? k); simpl; [|done].
  by destruct (pdiff a).
Qed.

Lemma group_values_total (keys : list Z) rows :
  NoDup keys → (∀ r, r ∈ rows → px r ∈ keys) →
  sum_list ((λ k, length (group_values rows k)) <$> keys)
  = length (omap pdiff rows).
Proof.
  intros Hnd. induction rows as [|a rows IH]; intros Hin.
  - apply sum_list_fmap_zero.
  - rewrite (list_fmap_ext _
               (λ k, ((if (px a =? k)%Z then match pdiff a with Some _ => 1 | None => 0 end else 0)
                      + length (group_values rows k))%nat) keys)
      by (intros; apply length_group_values_cons).
    rewrite (sum_list_fmap_add
               (λ k, if px a =? k then match pdiff a with Some _ => 1%nat | None => 0%nat end else 0%nat)).
    rewrite IH by (intros r Hr; apply Hin; by right).
    rewrite (sum_list_indicator keys (px a) (match pdiff a with Some _ => 1 | None => 0 end)%nat Hnd)
      by (apply Hin; left).
    simpl. by destruct (pdiff a).
Qed.

(** Grouping loses no value and counts none twice: the counts of the
    rows of the summary add up to the number of pooled rows whose diff is
    not NaN.  A group without a value keeps its row, with n = 0 and NaN
    in every other column. *)
Theorem summarize_combined_tracks_counts (rows : list PooledRow) :
  sum_list (n <$> summarize_combined_tracks rows) = length (omap pdiff rows)
  ∧ ∀ r, r ∈ summarize_combined_tracks rows → n r = 0%nat →
      median_diff r = None ∧ mean r = None ∧ sd r = None ∧ se r = None
      ∧ ci_lower r = None ∧ ci_upper r = None.
Proof.
  split.
  - unfold summarize_combined_tracks. rewrite <- list_fmap_compose.
    rewrite (list_fmap_ext _ (λ k, length (group_values rows k))
               (group_keys rows)) by done.
    apply group_values_total; [apply group_keys_NoDup|].
    intros r Hr. apply elem_of_group_keys. by apply list_elem_of_fmap_2.
  - intros r Hr Hn. unfold summarize_combined_tracks in Hr.
    apply list_elem_of_fmap in Hr as (k & -> & _). simpl in *.
    destruct (group_values rows k); [done|]. done.
Qed.

Lemma summarize_combined_tracks_counts_witness :
  sum_list (n <$> summarize_combined_tracks Sample.pooled)
  = length (omap pdiff Sample.pooled)
  ∧ ∀ r, r ∈ summarize_combined_tracks Sample.pooled → n r = 0%nat →
      median_diff r = None ∧ mean r = None ∧ sd r = None ∧ se r = None
      ∧ ci_lower r = None ∧ ci_upper r = None.
Proof. exact (summarize_combined_tracks_counts Sample.pooled). Defined.

(** *** Where the statistics lie *)

Lemma Rsum_bounds (lo hi : R) vs :
  (∀ v, v ∈ vs → (lo <= v <= hi)%R) →
  (INR (length vs) * lo <= Rsum vs <= INR (length vs) * hi)%R.
Proof.
  induction vs as [|a vs IH]; intros Hall.
  - simpl. lra.
  - change (length (a :: vs)) with (S (length vs)). rewrite S_INR.
    change (Rsum (a :: vs)) with (a + Rsum vs)%R.
    destruct IH as [IH1 IH2]; [intros v Hv; apply Hall; by right|].
    destruct (Hall a) as [Ha1 Ha2]; [left|]. lra.
Qed.

Lemma agg_mean_bounds (lo hi : R) vs m :
  agg_mean vs = Some m → (∀ v, v ∈ vs → (lo <= v <= hi)%R) →
  (lo <= m <= hi)%R.
Proof.
  intros Hm Hall. pose proof (Rsum_bounds lo hi vs Hall) as [H1 H2].
  assert (0 < INR (length vs))%R as Hn
    by (apply lt_0_INR; destruct vs; [done|simpl; lia]).
  assert (m = Rsum vs / INR (length vs))%R as ->
    by (destruct vs; [done|by injection Hm]).
  split.
  - apply (Rmult_le_reg_r (INR (length vs))); [done|].
    unfold Rdiv. rewrite Rmult_assoc, Rinv_l, Rmult_1_r by lra. lra.
  - apply (Rmult_le_reg_r (INR (length vs))); [done|].
    unfold Rdiv. rewrite Rmult_assoc, Rinv_l, Rmult_1_r by lra. lra.
Qed.

Lemma agg_median_bounds (lo hi : R) vs med :
  agg_median vs = Some med → (∀ v, v ∈ vs → (lo <= v <= hi)%R) →
  (lo <= med <= hi)%R.
Proof.
  unfold agg_median. intros Hmed Hall.
  assert (∀ (i : nat) v, merge_sort Rle vs !! i = Some v → (lo <= v <= hi)%R)
    as Hs.
  { intros i v Hv. apply Hall. apply list_elem_of_lookup_2 in Hv.
    by rewrite merge_sort_Permutation in Hv. }
  destruct (Nat.even _).
  - destruct (merge_sort Rle vs !! _) as [a|] eqn:Ha; [|done].
    destruct (merge_sort Rle vs !! (length _ / 2)%nat) as [b|] eqn:Hb; [|done].
    injection Hmed as <-.
    pose proof (Hs _ _ Ha). pose proof (Hs _ _ Hb). lra.
  - by apply Hs in Hmed.
Qed.

Lemma agg_median_is_Some vs : vs ≠ [] → is_Some (agg_median vs).
Proof.
  intros Hne. unfold agg_median.
  assert (length (merge_sort Rle vs) = length vs) as Hlen
    by (by rewrite merge_sort_Permutation).
  assert (0 < length vs)%nat as Hpos by (destruct vs; [done|simpl; lia]).
  set (s := merge_sort Rle vs) in *.
  destruct (Nat.even (length s)) eqn:He.
  - assert (2 ≤ length s)%nat as H2.
    { destruct (length s) as [|[|k]] eqn:Hl; [lia|done|lia]. }
    assert (length s / 2 < length s)%nat as Hk
      by (apply Nat.div_lt; lia).
    destruct (lookup_lt_is_Some_2 s (length s / 2 - 1)%nat) as [a ->]; [lia|].
    destruct (lookup_lt_is_Some_2 s (length s / 2)%nat) as [b ->]; [lia|].
    by eexists.
  - apply lookup_lt_is_Some_2. apply Nat.div_lt; lia.
Qed.

(** The median and the mean of a group lie between any two bounds of its
    values.  With two values or more, sd is not negative, se is between
    0 and sd, and the two bounds of the interval lie at the same
    distance on either side of the mean. *)
Theorem summarize_combined_tracks_bounds (rows : list PooledRow) :
  ∀ r, r ∈ summarize_combined_tracks rows →
    ((1 ≤ n r)%nat →
     ∃ med m, median_diff r = Some med ∧ mean r = Some m
       ∧ ∀ lo hi : R,
           (∀ v, v ∈ group_values rows (x r) → (lo <= v <= hi)%R) →
           (lo <= med <= hi)%R ∧ (lo <= m <= hi)%R)
    ∧ ((2 ≤ n r)%nat →
       ∃ m s e l u,
         mean r = Some m ∧ sd r = Some s ∧ se r = Some e
         ∧ ci_lower r = Some l ∧ ci_upper r = Some u
         ∧ (0 <= e <= s)%R ∧ (l <= m <= u)%R ∧ (m - l = u - m)%R).
Proof.
  intros r Hr. unfold summarize_combined_tracks in Hr.
  apply list_elem_of_fmap in Hr as (k & -> & _). simpl.
  set (vs := group_values rows k). split.
  - intros Hn.
    assert (vs ≠ []) as Hne by (intros Hnil; rewrite Hnil in Hn; simpl in Hn; lia).
    destruct (agg_median_is_Some vs Hne) as [med Hmed].
    destruct (agg_mean vs) as [m|] eqn:Hm; [|by destruct vs].
    exists med, m. split; [done|]. split; [done|]. intros lo hi Hall.
    split; [by apply (agg_median_bounds lo hi vs)|by apply (agg_mean_bounds lo hi vs)].
  - intros Hn.
    destruct (agg_mean vs) as [m|] eqn:Hm;
      [|destruct vs; [simpl in Hn; lia|done]].
    destruct (agg_std vs) as [s|] eqn:Hsd;
      [|destruct vs as [|v1 [|v2 vs']]; simpl in Hn; try lia; done].
    simpl. eexists m, s, _, _, _. repeat split; try reflexivity.
    all: assert (0 <= s)%R as Hs
      by (destruct vs as [|v1 [|v2 vs']]; try done;
          injection Hsd as <-; apply sqrt_pos).
    all: assert (1 <= sqrt (INR (length vs)))%R as Hq
      by (rewrite <- sqrt_1 at 1; apply sqrt_le_1_alt;
          change 1%R with (INR 1); apply le_INR; lia).
    all: assert (0 < / sqrt (INR (length vs)) <= 1)%R as [Hi1 Hi2]
      by (split; [apply Rinv_0_lt_compat; lra|];
          pose proof (Rinv_le_contravar 1 _ ltac:(lra) Hq) as Hinv;
          by rewrite Rinv_1 in Hinv).
    all: unfold Rdiv; try nra.
Qed.

Lemma summarize_combined_tracks_bounds_witness :
  let r := summary_row Sample.pooled 0 in
  r ∈ summarize_combined_tracks Sample.pooled
  ∧ ((1 ≤ n r)%nat →
     ∃ med m, median_diff r = Some med ∧ mean r = Some m
       ∧ ∀ lo hi : R,
           (∀ v, v ∈ group_values Sample.pooled (x r) → (lo <= v <= hi)%R) →
           (lo <= med <= hi)%R ∧ (lo <= m <= hi)%R)
  ∧ ((2 ≤ n r)%nat →
     ∃ m s e l u,
       mean r = Some m ∧ sd r = Some s ∧ se r = Some e
       ∧ ci_lower r = Some l ∧ ci_upper r = Some u
       ∧ (0 <= e <= s)%R ∧ (l <= m <= u)%R ∧ (m - l = u - m)%R).
Proof.
  assert (H : summary_row Sample.pooled 0
              ∈ summarize_combined_tracks Sample.pooled).
  { apply list_elem_of_fmap_2. apply elem_of_group_keys. simpl. left. }
  split; [exact H|].
  exact (summarize_combined_tracks_bounds Sample.pooled
           (summary_row Sample.pooled 0) H).
Defined.

End summaries.
